(** * Execution logging of script-server: the transcript store

    A shallow embedding of [src/execution/logging.py]: the header codec
    ([_read_parameters_text], [_parse_history_parameters],
    [_parameters_to_entry]), the transcript writer ([ScriptOutputLogger]),
    the deferred exit-code patch ([_write_post_execution_info]) and the
    directory index of [ExecutionLoggingService] ([_renew_files_cache] and
    the three look-up operations).

    Conventions of the model.
    - A Python [str] is a list of characters; characters are the code points
      U+0000..U+00FF, carried by [ascii].  Character classes ([\w], the line
      boundaries of [str.splitlines], the white space of [int]) are the ones
      Python uses on that range.
    - A file holds text: writing encodes with UTF-8 and reading decodes, and
      the two cancel.  What does not cancel is kept: a file opened in text
      mode for reading goes through universal-newline translation, a file
      written in binary mode or read with [keep_newlines] does not.
    - A directory is flat: a list of (name, content) pairs in the order in
      which [os.listdir] reports them, all of them regular files.  The files
      are the log directory and the other directories, for a transcript is
      written at the path that [os.path.join] makes of the log directory and
      the file name, and a file name with a directory part leads elsewhere.
    - [os.linesep] depends on the platform, which is a parameter.
    - Exceptions are values: a computation returns or raises, and in both
      cases hands back the state of the service as the mutation left it.
    - Of the failures of the file system only the one that the source
      handles by itself is kept, a log file that cannot be opened; reads of
      files that are listed succeed, and messages to [LOGGER] are left out.

    The definitions come first, in the order of the source; the facts and the
    properties of the specification follow. *)

From Stdlib Require Import ZArith Ascii String Decimal DecimalString.
From Stdlib Require Import Numbers.DecimalZ Numbers.DecimalPos.
From stdpp Require Import base option list gmap strings.

Local Open Scope char_scope.
Local Open Scope list_scope.

#[local] Set Warnings "-clear-no-such-hyp".

(** ** Text *)

Abbreviation str := (list ascii).

Definition s2l (s : string) : str := list_ascii_of_string s.

Definition LF : ascii := "010".
Definition CR : ascii := "013".

Definition ENCODING : str := Eval cbv in s2l "utf8".

Definition OUTPUT_STARTED_MARKER : str :=
  Eval cbv in s2l ">>>>>  OUTPUT STARTED <<<<<".

Definition code (c : ascii) : N := N_of_ascii c.

Definition in_range (lo hi : N) (c : ascii) : bool :=
  (lo <=? code c)%N && (code c <=? hi)%N.

Definition ascii_eqb (a b : ascii) : bool := bool_decide (a = b).

(** [str.startswith] and [str.endswith]. *)
Fixpoint startswith (t pre : str) {struct pre} : bool :=
  match pre, t with
  | [], _ => true
  | p :: pre', c :: t' => ascii_eqb c p && startswith t' pre'
  | _ :: _, [] => false
  end.

Definition endswith (t suf : str) : bool := startswith (rev t) (rev suf).

(** [text[:-1]] *)
Definition drop_last (t : str) : str := removelast t.

(** Lines 372-376. *)
Definition _rstrip_once (text : str) (char : str) : str :=
  if endswith text char then drop_last text else text.

(** ** The platform *)

Inductive platform : Type := Posix | Windows.

Definition linesep (p : platform) : str :=
  match p with
  | Posix => [LF]
  | Windows => [CR; LF]
  end.

(** Lines 379-386. *)
Definition _lstrip_any_linesep (p : platform) (text : str) : str :=
  if startswith text [CR; LF] then drop 2 text
  else if startswith text (linesep p) then drop (length (linesep p)) text
  else text.

(** ** Python built-ins used by the module *)

(** [str.split(sep, 1)]: the text before and after the first occurrence of
    [sep], or nothing when [sep] does not occur (Python then returns a list
    of one element, and indexing it at 1 raises). *)
Fixpoint split_once (sep t : str) : option (str * str) :=
  if startswith t sep then Some ([], drop (length sep) t)
  else match t with
       | [] => None
       | c :: t' =>
           match split_once sep t' with
           | Some (a, b) => Some (c :: a, b)
           | None => None
           end
       end.

(** Universal newlines: what a file opened with [open(path, 'r')] delivers.
    Every [\r\n] and every lone [\r] arrives as [\n]. *)
Fixpoint universal_newlines (t : str) : str :=
  match t with
  | [] => []
  | c :: t' =>
      if ascii_eqb c CR then
        LF :: match t' with
              | d :: t'' => if ascii_eqb d LF then universal_newlines t''
                            else universal_newlines t'
              | [] => []
              end
      else c :: universal_newlines t'
  end.

(** Iterating a text file: the lines, each with its [\n], the last one
    possibly without. *)
Fixpoint lines_lf (t : str) : list str :=
  match t with
  | [] => []
  | c :: t' =>
      if ascii_eqb c LF then [c] :: lines_lf t'
      else match lines_lf t' with
           | [] => [[c]]
           | l :: ls => (c :: l) :: ls
           end
  end.

Definition file_lines (content : str) : list str :=
  lines_lf (universal_newlines content).

(** The line boundaries of [str.splitlines] below U+0100:
    [\n], [\v], [\f], [\r], FS, GS, RS and NEL. *)
Definition is_linebreak (c : ascii) : bool :=
  in_range 10 13 c || in_range 28 30 c || (code c =? 133)%N.

(** [str.splitlines(keepends=True)]; [\r\n] is one boundary. *)
Fixpoint splitlines (t : str) : list str :=
  match t with
  | [] => []
  | c :: t' =>
      if ascii_eqb c CR then
        match t' with
        | d :: t'' => if ascii_eqb d LF then [c; d] :: splitlines t''
                      else [c] :: splitlines t'
        | [] => [[c]]
        end
      else if is_linebreak c then [c] :: splitlines t'
      else match splitlines t' with
           | [] => [[c]]
           | l :: ls => (c :: l) :: ls
           end
  end.

(** [\w] of a [str] pattern: alphanumeric code points and the underscore. *)
Definition is_word (c : ascii) : bool :=
  in_range 48 57 c || in_range 65 90 c || (code c =? 95)%N
  || in_range 97 122 c || (code c =? 170)%N || in_range 178 179 c
  || (code c =? 181)%N || in_range 185 186 c || in_range 188 190 c
  || in_range 192 214 c || in_range 216 246 c || in_range 248 255 c.

(** [str.lower] *)
Definition lower_char (c : ascii) : ascii :=
  if in_range 65 90 c || in_range 192 214 c || in_range 216 222 c
  then ascii_of_N (code c + 32) else c.

Definition lower (t : str) : str := map lower_char t.

(** [str(n)] for an [int]. *)
Fixpoint uint_digits (u : uint) : str :=
  match u with
  | Nil => []
  | D0 u => "0" :: uint_digits u
  | D1 u => "1" :: uint_digits u
  | D2 u => "2" :: uint_digits u
  | D3 u => "3" :: uint_digits u
  | D4 u => "4" :: uint_digits u
  | D5 u => "5" :: uint_digits u
  | D6 u => "6" :: uint_digits u
  | D7 u => "7" :: uint_digits u
  | D8 u => "8" :: uint_digits u
  | D9 u => "9" :: uint_digits u
  end.

Definition py_str_of_Z (z : Z) : str :=
  match Z.to_int z with
  | Decimal.Pos u => uint_digits u
  | Decimal.Neg u => "-" :: uint_digits u
  end.

(** [int(s)]: white space around, one optional sign, decimal digits with
    single underscores between them. *)
Definition is_int_space (c : ascii) : bool :=
  in_range 9 13 c || (code c =? 32)%N || (code c =? 133)%N
  || (code c =? 160)%N.

Definition digit_char (c : ascii) : option (uint -> uint) :=
  if ascii_eqb c "0" then Some D0 else if ascii_eqb c "1" then Some D1
  else if ascii_eqb c "2" then Some D2 else if ascii_eqb c "3" then Some D3
  else if ascii_eqb c "4" then Some D4 else if ascii_eqb c "5" then Some D5
  else if ascii_eqb c "6" then Some D6 else if ascii_eqb c "7" then Some D7
  else if ascii_eqb c "8" then Some D8 else if ascii_eqb c "9" then Some D9
  else None.

Fixpoint int_digits (after_digit : bool) (t : str) : option uint :=
  match t with
  | [] => if after_digit then Some Nil else None
  | c :: t' =>
      if ascii_eqb c "_" then
        if after_digit then int_digits false t' else None
      else match digit_char c with
           | Some D => D <$> int_digits true t'
           | None => None
           end
  end.

Fixpoint lstrip_space (t : str) : str :=
  match t with
  | c :: t' => if is_int_space c then lstrip_space t' else t
  | [] => []
  end.

Definition strip_space (t : str) : str :=
  rev (lstrip_space (rev (lstrip_space t))).

Definition py_int (s : str) : option Z :=
  match strip_space s with
  | c :: t =>
      if ascii_eqb c "-" then (fun u => Z.opp (Z.of_uint u)) <$> int_digits false t
      else if ascii_eqb c "+" then Z.of_uint <$> int_digits false t
      else Z.of_uint <$> int_digits false (c :: t)
  | [] => None
  end.

(** ** Exceptions *)

Inductive exn : Type :=
| TypeError | AttributeError | ValueError | IndexError | FileNotFoundError.

Inductive result (A : Type) : Type :=
| Ok (a : A)
| Err (e : exn).

Arguments Ok {A} a.
Arguments Err {A} e.

Definition result_bind {A B} (r : result A) (k : A -> result B) : result B :=
  match r with
  | Ok a => k a
  | Err e => Err e
  end.

Notation "'let?' x ':=' r 'in' k" := (result_bind r (fun x => k))
  (at level 10, x pattern, r at level 100, k at level 200).

(** ** Header codec *)

Module Codec.

(** The pattern of line 251, [([\w_]+):(.*\r?\n)], under [re.fullmatch]:
    the line, the first group and the second group. *)
Inductive fullmatch_field : str -> str -> str -> Prop :=
| fullmatch_field_intro (key dots cr : str) :
    key <> [] ->
    Forall (fun c => is_word c = true) key ->
    Forall (fun c => c <> LF) dots ->
    cr = [] \/ cr = [CR] ->
    fullmatch_field (key ++ ":" :: dots ++ cr ++ [LF]) key (dots ++ cr ++ [LF]).

(** The same match as a function: the longest run of word characters, the
    colon, and a remainder that has its only [\n] at the end. *)
Fixpoint span_word (t : str) : str * str :=
  match t with
  | [] => ([], [])
  | c :: t' =>
      if is_word c then let '(k, r) := span_word t' in (c :: k, r)
      else ([], t)
  end.

Definition dot_star_eol (v : str) : bool :=
  match rev v with
  | c :: body => ascii_eqb c LF && forallb (fun c => negb (ascii_eqb c LF)) body
  | [] => false
  end.

Definition match_field (line : str) : option (str * str) :=
  match span_word line with
  | ((_ :: _) as key, c :: v) =>
      if ascii_eqb c ":" && dot_star_eol v then Some (key, v) else None
  | _ => None
  end.

(** The loop state of [_parse_history_parameters] (lines 246-249). *)
Record parse_state : Type := ParseState {
  current_value : option str;
  current_key : option str;
  parameters : gmap str str
}.

Definition parse_start : parse_state :=
  {| current_value := None; current_key := None; parameters := ∅ |}.

(** Lines 256-257 and 262-263: [parameters[current_key] = ...]. *)
Definition store_current (s : parse_state) : result (gmap str str) :=
  match current_key s with
  | None => Ok (parameters s)
  | Some k =>
      match current_value s with
      | Some v => Ok (<[k := _rstrip_once v [LF]]> (parameters s))
      | None => Err AttributeError
      end
  end.

(** One turn of the loop, lines 251-260.  [current_value += line] on the
    initial [None] is Python's [TypeError]. *)
Definition parse_line (s : parse_state) (line : str) : result parse_state :=
  match match_field line with
  | None =>
      match current_value s with
      | Some v =>
          Ok {| current_value := Some (v ++ line);
                current_key := current_key s;
                parameters := parameters s |}
      | None => Err TypeError
      end
  | Some (k, v) =>
      let? params := store_current s in
      Ok {| current_value := Some v; current_key := Some k;
            parameters := params |}
  end.

Fixpoint parse_lines (s : parse_state) (lines : list str)
  : result parse_state :=
  match lines with
  | [] => Ok s
  | line :: rest => let? s' := parse_line s line in parse_lines s' rest
  end.

(** Lines 244-265. *)
Definition _parse_history_parameters (parameters_text : str)
  : result (gmap str str) :=
  let? s := parse_lines parse_start (splitlines parameters_text) in
  store_current s.

(** [encode-field]: what [write_line(key + ':' + value)] puts in the file
    (lines 134-139 with line 80). *)
Definition encode_field (p : platform) (key value : str) : str :=
  key ++ ":" :: value ++ linesep p.

(** Lines 194-204, on the text of the file. *)
Fixpoint read_lines (lines : list str) (parameters_text : str) : bool * str :=
  match lines with
  | [] => (false, parameters_text)
  | line :: rest =>
      if bool_decide (_rstrip_once line [LF] = OUTPUT_STARTED_MARKER)
      then (true, parameters_text)
      else read_lines rest (parameters_text ++ line)
  end.

Definition read_parameters_text (content : str) : bool * str :=
  read_lines (file_lines content) [].

End Codec.

Import Codec.

(** ** History entries *)

(** Lines 83-91.  [id] is mandatory once an entry exists. *)
Record HistoryEntry : Type := {
  user_name : option str;
  user_id : option str;
  start_time : option Z;
  script_name : option str;
  command : option str;
  entry_id : str;
  exit_code : option Z
}.

(** Modelled from the spec: [ms_to_datetime] of [utils.date_utils] is not
    part of the sources; a calendar timestamp is represented by the
    milliseconds it was decoded from. *)
Definition ms_to_datetime (ms : Z) : Z := ms.

Definition int_of (s : str) : result Z :=
  match py_int s with
  | Some z => Ok z
  | None => Err ValueError
  end.

Definition K_id : str := Eval cbv in s2l "id".
Definition K_user_name : str := Eval cbv in s2l "user_name".
Definition K_user_id : str := Eval cbv in s2l "user_id".
Definition K_script : str := Eval cbv in s2l "script".
Definition K_start_time : str := Eval cbv in s2l "start_time".
Definition K_command : str := Eval cbv in s2l "command".
Definition K_exit_code : str := Eval cbv in s2l "exit_code".

(** Lines 267-288. *)
Definition _parameters_to_entry (parameters : gmap str str)
  : result (option HistoryEntry) :=
  match parameters !! K_id with
  | None | Some [] => Ok None
  | Some id =>
      let? exit_code :=
        match parameters !! K_exit_code with
        | Some s => let? z := int_of s in Ok (Some z)
        | None => Ok None
        end in
      let? start_time :=
        match parameters !! K_start_time with
        | None | Some [] => Ok None
        | Some s => let? z := int_of s in Ok (Some (ms_to_datetime z))
        end in
      Ok (Some {| user_name := parameters !! K_user_name;
                  user_id := parameters !! K_user_id;
                  start_time := start_time;
                  script_name := parameters !! K_script;
                  command := parameters !! K_command;
                  entry_id := id;
                  exit_code := exit_code |})
  end.

(** ** The log directory *)

(** Modelled from the spec: the file primitives of [utils.file_utils] and of
    [os] are not part of the sources ("general file read/write/listing
    primitives").  A directory is the list of its files in listing order;
    [read_file] with [keep_newlines=True] returns the content untranslated,
    [write_file] replaces the content. *)
Abbreviation disk := (list (str * str)).

Definition listdir (d : disk) : list str := map fst d.

Fixpoint read_file (d : disk) (name : str) : option str :=
  match d with
  | [] => None
  | (n, content) :: d' =>
      if bool_decide (n = name) then Some content else read_file d' name
  end.

Definition exists_file (d : disk) (name : str) : bool :=
  bool_decide (name ∈ listdir d).

Fixpoint write_file (d : disk) (name content : str) : disk :=
  match d with
  | [] => [(name, content)]
  | (n, c) :: d' =>
      if bool_decide (n = name) then (n, content) :: d'
      else (n, c) :: write_file d' name content
  end.

(** A write through an open handle; a file unlinked meanwhile stays out of
    the directory. *)
Fixpoint append_file (d : disk) (name text : str) : disk :=
  match d with
  | [] => []
  | (n, c) :: d' =>
      if bool_decide (n = name) then (n, c ++ text) :: d'
      else (n, c) :: append_file d' name text
  end.

Definition remove_file (d : disk) (name : str) : disk :=
  filter (fun f => f.1 <> name) d.

(** Where a path lies: directly in the log directory, or in another
    directory, which [dir] names.  [os.path.join], [os.path.basename] and
    [create_unique_filename] are not part of the sources; of a path the
    model keeps the directory it lies in and its base name, the name of the
    file in that directory. *)
Inductive place : Type :=
| InFolder
| Elsewhere (dir : str).

(** The files: the log directory, which the service lists, and the other
    directories. *)
Record files : Type := Files {
  folder : disk;
  others : str -> disk
}.

Definition directory (at_ : place) (fs : files) : disk :=
  match at_ with
  | InFolder => folder fs
  | Elsewhere dir => others fs dir
  end.

Definition set_directory (at_ : place) (d : disk) (fs : files) : files :=
  match at_ with
  | InFolder => {| folder := d; others := others fs |}
  | Elsewhere dir =>
      {| folder := folder fs;
         others := fun k => if bool_decide (k = dir) then d
                            else others fs k |}
  end.

Definition new_files : files := {| folder := []; others := fun _ => [] |}.

(** ** Transcript writer (lines 21-80) *)

(** The writer works on the directory in which its path lies, and
    [log_file_path] is the base name of the path, the name of the file
    there. *)

Record ScriptOutputLogger : Type := {
  opened : bool;
  log_file_path : str;
  log_file : option str;
  closed : bool
}.

Definition new_logger (path : str) : ScriptOutputLogger :=
  {| opened := false; log_file_path := path; log_file := None;
     closed := false |}.

(** Lines 35-44.  [can_open] tells whether [open(path, 'wb')] succeeds; a
    failure is logged and swallowed. *)
Definition _ensure_file_open (can_open : bool) (w : ScriptOutputLogger)
    (d : disk) : ScriptOutputLogger * disk :=
  if opened w then (w, d)
  else if can_open then
    ({| opened := true; log_file_path := log_file_path w;
        log_file := Some (log_file_path w); closed := closed w |},
     write_file d (log_file_path w) [])
  else
    ({| opened := true; log_file_path := log_file_path w;
        log_file := None; closed := closed w |}, d).

(** Lines 46-59; a write to a closed file raises and is swallowed. *)
Definition __log (w : ScriptOutputLogger) (text : option str) (d : disk)
  : disk :=
  if negb (opened w) then d
  else match log_file w, text with
       | Some f, Some t => if closed w then d else append_file d f t
       | _, _ => d
       end.

(** Lines 77-80. *)
Definition write_line (p : platform) (can_open : bool)
    (w : ScriptOutputLogger) (text : str) (d : disk)
  : ScriptOutputLogger * disk :=
  let '(w', d') := _ensure_file_open can_open w d in
  (w', __log w' (Some (text ++ linesep p)) d').

(** Lines 71-72. *)
Definition on_next (w : ScriptOutputLogger) (output : option str) (d : disk)
  : disk := __log w output d.

(** Lines 61-66, without the callback. *)
Definition _close (w : ScriptOutputLogger) : ScriptOutputLogger :=
  {| opened := opened w; log_file_path := log_file_path w;
     log_file := log_file w; closed := true |}.

(** ** The logging service *)

(** Python's [dict]: keys in insertion order, an assignment to a present key
    keeps its place. *)
Abbreviation dict := (list (str * str)).

Fixpoint dict_get (k : str) (m : dict) : option str :=
  match m with
  | [] => None
  | (k', v) :: m' => if bool_decide (k' = k) then Some v else dict_get k m'
  end.

Fixpoint dict_set (k v : str) (m : dict) : dict :=
  match m with
  | [] => [(k, v)]
  | (k', v') :: m' =>
      if bool_decide (k' = k) then (k', v) :: m'
      else (k', v') :: dict_set k v m'
  end.

Definition dict_del (k : str) (m : dict) : dict :=
  filter (fun kv => kv.1 <> k) m.

(** Lines 100-106.  [parse_log] is not in the source: it records, latest
    first, each file handed to [_extract_history_entry], and is what a test
    counts as parses. *)
Record service : Type := Service {
  _visited_files : gset str;
  _ids_to_file_map : dict;
  parse_log : list str
}.

Inductive outcome (A : Type) : Type :=
| Returned (a : A) (s : service)
| Raised (e : exn) (s : service).

Arguments Returned {A} a s.
Arguments Raised {A} e s.

Definition final_state {A} (o : outcome A) : service :=
  match o with
  | Returned _ s => s
  | Raised _ s => s
  end.

Definition M (A : Type) : Type := service -> outcome A.

Definition ret {A} (a : A) : M A := fun s => Returned a s.

Definition bind {A B} (m : M A) (k : A -> M B) : M B :=
  fun s => match m s with
           | Returned a s' => k a s'
           | Raised e s' => Raised e s'
           end.

Definition lift {A} (r : result A) : M A :=
  fun s => match r with
           | Ok a => Returned a s
           | Err e => Raised e s
           end.

Notation "'let!' x ':=' m 'in' k" := (bind m (fun x => k))
  (at level 10, x pattern, m at level 100, k at level 200).

Definition get_state : M service := fun s => Returned s s.

Definition add_visited (file : str) : M unit :=
  fun s => Returned tt {| _visited_files := {[file]} ∪ _visited_files s;
                          _ids_to_file_map := _ids_to_file_map s;
                          parse_log := parse_log s |}.

Definition set_cache (m : dict) : M unit :=
  fun s => Returned tt {| _visited_files := _visited_files s;
                          _ids_to_file_map := m;
                          parse_log := parse_log s |}.

Definition note_parse (file : str) : M unit :=
  fun s => Returned tt {| _visited_files := _visited_files s;
                          _ids_to_file_map := _ids_to_file_map s;
                          parse_log := file :: parse_log s |}.

Definition open_text (d : disk) (file : str) : result str :=
  match read_file d file with
  | Some content => Ok content
  | None => Err FileNotFoundError
  end.

(** Lines 194-204. *)
Definition _read_parameters_text (d : disk) (file_path : str)
  : result (bool * str) :=
  let? content := open_text d file_path in
  Ok (read_parameters_text content).

(** Lines 186-192, on a flat directory ([file_path] is [file]). *)
Definition extract (d : disk) (file : str) : result (option HistoryEntry) :=
  let? (correct_format, parameters_text) := _read_parameters_text d file in
  if negb correct_format then Ok None
  else
    let? parameters := _parse_history_parameters parameters_text in
    _parameters_to_entry parameters.

Definition _extract_history_entry (d : disk) (file : str)
  : M (option HistoryEntry) :=
  let! _ := note_parse file in lift (extract d file).

(** Lines 209-213. *)
Definition obsolete_ids (d : disk) (cache : dict) : list str :=
  map fst (filter (fun kv => exists_file d kv.2 = false) cache).

(** Lines 215-217. *)
Definition prune (d : disk) : M unit :=
  let! s := get_state in
  set_cache (foldl (fun cache obsolete_id => dict_del obsolete_id cache)
                   (_ids_to_file_map s)
                   (obsolete_ids d (_ids_to_file_map s))).

Definition is_log_name (file : str) : bool :=
  endswith (lower file) (s2l ".log").

(** Lines 219-232. *)
Fixpoint discover (d : disk) (files : list str) : M unit :=
  match files with
  | [] => ret tt
  | file :: rest =>
      if negb (is_log_name file) then discover d rest
      else
        let! s := get_state in
        if bool_decide (file ∈ _visited_files s) then discover d rest
        else
          let! _ := add_visited file in
          let! entry := _extract_history_entry d file in
          match entry with
          | None => discover d rest
          | Some e =>
              let! s := get_state in
              let! _ := set_cache (dict_set (entry_id e) file
                                            (_ids_to_file_map s)) in
              discover d rest
          end
  end.

(** Lines 206-232. *)
Definition _renew_files_cache (d : disk) : M unit :=
  let! _ := prune d in discover d (listdir d).

(** Lines 101-110, once [prepare_folder] has made the directory. *)
Definition new_service : service :=
  {| _visited_files := ∅; _ids_to_file_map := []; parse_log := [] |}.

Definition init_service (d : disk) : outcome unit :=
  _renew_files_cache d new_service.

(** Lines 150-157. *)
Fixpoint collect_entries (d : disk) (files : list str)
  : M (list HistoryEntry) :=
  match files with
  | [] => ret []
  | file :: rest =>
      let! history_entry := _extract_history_entry d file in
      let! result := collect_entries d rest in
      ret (match history_entry with
           | Some e => e :: result
           | None => result
           end)
  end.

(** Lines 147-157. *)
Definition get_history_entries (d : disk) : M (list HistoryEntry) :=
  let! _ := _renew_files_cache d in
  let! s := get_state in
  collect_entries d (map snd (_ids_to_file_map s)).

(** Lines 159-171. *)
Definition find_history_entry (d : disk) (execution_id : str)
  : M (option HistoryEntry) :=
  let! _ := _renew_files_cache d in
  let! s := get_state in
  match dict_get execution_id (_ids_to_file_map s) with
  | None => ret None
  | Some file => _extract_history_entry d file
  end.

(** Line 183: [file_content.split(OUTPUT_STARTED_MARKER, 1)[1]]. *)
Definition after_marker (file_content : str) : result str :=
  match split_once OUTPUT_STARTED_MARKER file_content with
  | Some (_, log) => Ok log
  | None => Err IndexError
  end.

(** Lines 173-184. *)
Definition find_log (p : platform) (d : disk) (execution_id : str)
  : M (option str) :=
  let! _ := _renew_files_cache d in
  let! s := get_state in
  match dict_get execution_id (_ids_to_file_map s) with
  | None => ret None
  | Some file =>
      let! file_content := lift (open_text d file) in
      let! log := lift (after_marker file_content) in
      ret (Some (_lstrip_any_linesep p log))
  end.

(** Lines 290-303, on the directory in which the path lies.  The provider's
    answer is [exit_code]. *)
Definition _write_post_execution_info (p : platform) (log_file_path : str)
    (exit_code : option Z) (d : disk) : result disk :=
  match exit_code with
  | None => Ok d
  | Some c =>
      let? file_content := open_text d log_file_path in
      match split_once (OUTPUT_STARTED_MARKER ++ linesep p) file_content with
      | Some (parameters_text, body) =>
          Ok (write_file d log_file_path
                (parameters_text ++ K_exit_code ++ ":" :: py_str_of_Z c
                 ++ linesep p ++ OUTPUT_STARTED_MARKER ++ linesep p ++ body))
      | None => Err IndexError
      end
  end.

(** Lines 112-145.  The path of line 128 lies at [log_dir] and has the base
    name [log_filename]: the transcript is written there (lines 133-141),
    in the log directory or elsewhere, and the index and the visited files
    get the base name alone (lines 143-145). *)
Definition start_logging (p : platform) (can_open : bool)
    (execution_id user_name user_id script_name command : str)
    (start_time_millis : Z) (log_dir : place) (log_filename : str)
    (s : service) (fs : files) : service * files * ScriptOutputLogger :=
  let d := directory log_dir fs in
  let w := new_logger log_filename in
  let '(w, d) := write_line p can_open w (K_id ++ ":" :: execution_id) d in
  let '(w, d) := write_line p can_open w (K_user_name ++ ":" :: user_name) d in
  let '(w, d) := write_line p can_open w (K_user_id ++ ":" :: user_id) d in
  let '(w, d) := write_line p can_open w (K_script ++ ":" :: script_name) d in
  let '(w, d) := write_line p can_open w
                   (K_start_time ++ ":" :: py_str_of_Z start_time_millis) d in
  let '(w, d) := write_line p can_open w (K_command ++ ":" :: command) d in
  let '(w, d) := write_line p can_open w OUTPUT_STARTED_MARKER d in
  let '(w, d) := _ensure_file_open can_open w d in
  ({| _visited_files := {[log_filename]} ∪ _visited_files s;
      _ids_to_file_map := dict_set execution_id log_filename
                                   (_ids_to_file_map s);
      parse_log := parse_log s |}, set_directory log_dir d fs, w).

(** ** Predicates on inputs *)

(** [m in t] *)
Fixpoint contains (t m : str) : bool :=
  startswith t m
  || match t with
     | [] => false
     | _ :: t' => contains t' m
     end.

Definition infix (m t : str) : Prop := exists a b, t = a ++ m ++ b.

(** The field value does not contain the marker text. *)
Definition marker_free (v : str) : bool :=
  negb (contains v OUTPUT_STARTED_MARKER).

(** A text begins like a field: word characters, then a colon. *)
Definition starts_field (t : str) : bool :=
  match span_word t with
  | (_ :: _, c :: _) => ascii_eqb c ":"
  | _ => false
  end.

(** A value that the header can carry: its only line boundary is [\n], and
    none of its lines after the first begins like a field. *)
Fixpoint header_value (v : str) : bool :=
  match v with
  | [] => true
  | c :: v' =>
      if ascii_eqb c LF then negb (starts_field v') && header_value v'
      else negb (is_linebreak c) && header_value v'
  end.

Definition is_digit (c : ascii) : bool := in_range 48 57 c.

(** A value that a transcript can carry in its header. *)
Definition loggable (v : str) : bool := header_value v && marker_free v.

(** Every [.log] file of the directory has been looked at. *)
Definition synced (s : service) (d : disk) : bool :=
  forallb (fun file => negb (is_log_name file)
                       || bool_decide (file ∈ _visited_files s))
          (listdir d).

(** The keys of a [dict] are distinct. *)
Definition dict_ok (m : dict) : bool := bool_decide (NoDup (map fst m)).

(** The loop state with text added to the current value (line 253). *)
Definition with_value (s : parse_state) (v : str) : parse_state :=
  {| current_value := Some v; current_key := current_key s;
     parameters := parameters s |}.


(** A key that the field pattern accepts. *)
Definition is_key (k : str) : bool :=
  match k with
  | [] => false
  | _ => forallb is_word k
  end.

(** The header as [start_logging] writes it, lines 134-139: one
    [write_line] for each field, in order. *)
Definition encode_fields (p : platform) (fields : list (str * str)) : str :=
  flat_map (fun kv => encode_field p kv.1 kv.2) fields.

Definition header_fields
    (execution_id user_name user_id script_name start_time command : str)
  : list (str * str) :=
  [(K_id, execution_id); (K_user_name, user_name); (K_user_id, user_id);
   (K_script, script_name); (K_start_time, start_time);
   (K_command, command)].

(** The mapping that holds each field under its key, a later field
    replacing an earlier one of the same key. *)
Definition mapping_of (fields : list (str * str)) : gmap str str :=
  foldl (fun m kv => <[kv.1 := kv.2]> m) ∅ fields.

(** Fields that the header can carry. *)
Definition fields_ok (fields : list (str * str)) : Prop :=
  Forall (fun kv => is_key kv.1 = true /\ header_value kv.2 = true) fields.

(** The six fields of a new transcript as one text, and the mapping they
    stand for. *)
Definition header_text (p : platform)
    (execution_id user_name user_id script_name start_time command : str)
  : str :=
  encode_fields p (header_fields execution_id user_name user_id script_name
                                 start_time command).

Definition header_mapping
    (execution_id user_name user_id script_name start_time command : str)
  : gmap str str :=
  <[K_command := command]>
    (<[K_start_time := start_time]>
       (<[K_script := script_name]>
          (<[K_user_id := user_id]>
             (<[K_user_name := user_name]>
                (<[K_id := execution_id]> ∅))))).

(** A transcript: header, marker line, body (lines 134-141). *)
Definition transcript (p : platform) (fields : list (str * str)) (body : str)
  : str :=
  encode_fields p fields ++ OUTPUT_STARTED_MARKER ++ linesep p ++ body.

(** The file has a line that the reader takes for the marker: a line as
    the text-mode reader of line 198 delivers it ([\r\n] and [\r] arrive
    as [\n]), equal to the marker once one trailing [\n] is off. *)
Definition has_marker_line (content : str) : bool :=
  existsb (fun line =>
             bool_decide (_rstrip_once line [LF] = OUTPUT_STARTED_MARKER))
          (file_lines content).


(** The output source delivers its chunks (lines 71-72). *)
Definition feed (w : ScriptOutputLogger) (chunks : list (option str))
    (d : disk) : disk :=
  foldl (fun d output => on_next w output d) d chunks.

Definition chunk_text (chunks : list (option str)) : str :=
  flat_map (fun output => default [] output) chunks.

(** Lines 74-75 with 61-69 and 130-131: the source completes, the file is
    closed, then the callback asks the provider and patches the file. *)
Definition on_close (p : platform) (w : ScriptOutputLogger)
    (post_execution_info_provider : str -> option Z) (execution_id : str)
    (d : disk) : ScriptOutputLogger * result disk :=
  (_close w,
   _write_post_execution_info p (log_file_path w)
     (post_execution_info_provider execution_id) d).

(** ** The life of a service *)

(** What happens to a service: a call of the façade, or the files
    changing under it (the writer, the patch, anyone else). *)
Inductive action : Type :=
| Environment (fs : files)
| StartLogging (p : platform) (can_open : bool)
    (execution_id user_name user_id script_name command : str)
    (start_time_millis : Z) (log_dir : place) (log_filename : str)
| GetHistoryEntries
| FindHistoryEntry (execution_id : str)
| FindLog (p : platform) (execution_id : str).

Definition step (a : action) (w : service * files) : service * files :=
  let '(s, fs) := w in
  match a with
  | Environment fs' => (s, fs')
  | StartLogging p can_open execution_id user_name user_id script_name
      command start_time_millis log_dir log_filename =>
      let '(s', fs', _) :=
        start_logging p can_open execution_id user_name user_id script_name
          command start_time_millis log_dir log_filename s fs in
      (s', fs')
  | GetHistoryEntries =>
      (final_state (get_history_entries (folder fs) s), fs)
  | FindHistoryEntry execution_id =>
      (final_state (find_history_entry (folder fs) execution_id s), fs)
  | FindLog p execution_id =>
      (final_state (find_log p (folder fs) execution_id s), fs)
  end.

Definition run (actions : list action) (w : service * files)
  : service * files :=
  foldl (fun w a => step a w) w actions.

(** The action starts a transcript under the given file name. *)
Definition starts_file (file : str) (a : action) : bool :=
  match a with
  | StartLogging _ _ _ _ _ _ _ _ _ log_filename =>
      bool_decide (log_filename = file)
  | _ => false
  end.

(** ** The statements of the specification, as it words them *)

(** Round trip of the header, for the six values given. *)
Definition header_roundtrip_as_specified (p : platform)
    (execution_id user_name user_id script_name start_time command : str)
  : Prop :=
  _parse_history_parameters
    (header_text p execution_id user_name user_id script_name start_time
                 command)
  = Ok (header_mapping execution_id user_name user_id script_name start_time
                       command).

(** The field pattern of the specification, [^[A-Za-z0-9_]+:.*], on a line
    with its terminator: the key and the remainder. *)
Definition is_spec_key_char (c : ascii) : bool :=
  in_range 48 57 c || in_range 65 90 c || (code c =? 95)%N
  || in_range 97 122 c.

Fixpoint span_spec_key (t : str) : str * str :=
  match t with
  | [] => ([], [])
  | c :: t' =>
      if is_spec_key_char c
      then let '(k, r) := span_spec_key t' in (c :: k, r)
      else ([], t)
  end.

Definition spec_field_start (line : str) : option (str * str) :=
  match span_spec_key line with
  | ((_ :: _) as key, c :: v) =>
      if ascii_eqb c ":" then Some (key, v) else None
  | _ => None
  end.

(** What the loop stores when a field line arrives (lines 256-257). *)
Definition stored (s : parse_state) (cv : str) : gmap str str :=
  match current_key s with
  | Some k => <[k := _rstrip_once cv [LF]]> (parameters s)
  | None => parameters s
  end.

(** The field-start rule for one line met with a field open: a line that
    matches the pattern opens a field, any other is appended. *)
Definition field_start_rule_as_specified (s : parse_state) (line : str)
  : Prop :=
  forall cv, current_value s = Some cv ->
  match spec_field_start line with
  | Some (key, v) =>
      parse_line s line
      = Ok {| current_value := Some v; current_key := Some key;
              parameters := stored s cv |}
  | None => parse_line s line = Ok (with_value s (cv ++ line))
  end.




(** The index once the entries without a file are gone (lines 209-217). *)
Definition pruned (d : disk) (cache : dict) : dict :=
  foldl (fun cache obsolete_id => dict_del obsolete_id cache) cache
        (obsolete_ids d cache).

Definition with_cache (s : service) (m : dict) : service :=
  {| _visited_files := _visited_files s; _ids_to_file_map := m;
     parse_log := parse_log s |}.



(** How a call may change the service: files are added to the visited
    ones, a file newly indexed was not visited before, and a file newly
    parsed was either not visited before or in the index. *)
Definition grows (s s' : service) : Prop :=
  _visited_files s ⊆ _visited_files s'
  /\ (forall k g, (k, g) ∈ _ids_to_file_map s' ->
                  (k, g) ∈ _ids_to_file_map s \/ g ∉ _visited_files s)
  /\ exists new,
       parse_log s' = new ++ parse_log s
       /\ forall g, g ∈ new ->
             g ∉ _visited_files s \/ g ∈ map snd (_ids_to_file_map s).



(** ** File names (lines 306-338 and 234-242) *)

(** [str.replace(" ", "_")] *)
Definition replace_spaces (t : str) : str :=
  map (fun c => if ascii_eqb c " " then "_" else c) t.

(** [string.Template.safe_substitute].  The pattern of [Template] finds the
    delimiter followed by a second delimiter, by an identifier
    ([[_a-z][_a-z0-9]*], letters of either case), by an identifier in
    braces, or by none of these; in the last case the delimiter stands for
    itself and the scan goes on right after it.  A name that the mapping
    lacks leaves the placeholder as it is written.  The scan is told here
    as the reading of the text character by character. *)
Definition is_id_start (c : ascii) : bool :=
  ascii_eqb c "_" || in_range 65 90 c || in_range 97 122 c.

Definition is_id_char (c : ascii) : bool := is_id_start c || in_range 48 57 c.

Inductive template_mode : Type :=
| Plain
| AfterDelimiter
| InNamed (name : str)
| AfterBrace
| InBraced (name : str).

Definition named_value (mapping : dict) (name : str) : str :=
  match dict_get name mapping with
  | Some value => value
  | None => "$" :: name
  end.

Definition braced_value (mapping : dict) (name : str) : str :=
  match dict_get name mapping with
  | Some value => value
  | None => "$" :: "{" :: name ++ ["}"]
  end.

Fixpoint substitute (mapping : dict) (mode : template_mode) (t : str) : str :=
  match t with
  | [] =>
      match mode with
      | Plain => []
      | AfterDelimiter => ["$"]
      | InNamed name => named_value mapping name
      | AfterBrace => ["$"; "{"]
      | InBraced name => "$" :: "{" :: name
      end
  | c :: t' =>
      let plain :=
        if ascii_eqb c "$" then substitute mapping AfterDelimiter t'
        else c :: substitute mapping Plain t' in
      match mode with
      | Plain => plain
      | AfterDelimiter =>
          if ascii_eqb c "$" then "$" :: substitute mapping Plain t'
          else if is_id_start c then substitute mapping (InNamed [c]) t'
          else if ascii_eqb c "{" then substitute mapping AfterBrace t'
          else "$" :: plain
      | InNamed name =>
          if is_id_char c then substitute mapping (InNamed (name ++ [c])) t'
          else named_value mapping name ++ plain
      | AfterBrace =>
          if is_id_start c then substitute mapping (InBraced [c]) t'
          else "$" :: "{" :: plain
      | InBraced name =>
          if is_id_char c then substitute mapping (InBraced (name ++ [c])) t'
          else if ascii_eqb c "}"
               then braced_value mapping name ++ substitute mapping Plain t'
               else "$" :: "{" :: name ++ plain
      end
  end.

Definition safe_substitute (template : str) (mapping : dict) : str :=
  substitute mapping Plain template.

(** [str(x)] for a text that may be [None]. *)
Definition py_str_of_option (x : option str) : str :=
  match x with
  | Some t => t
  | None => s2l "None"
  end.

(** What the module takes from [utils] and is not part of the sources:
    [get_audit_name] and the names of the audit attributes
    ([utils.audit_utils]), [to_filename] ([utils.file_utils]),
    [get_first_existing] ([utils.collection_utils]) and the formatting of a
    time, [ms_to_datetime(start_time).strftime(format)]
    ([utils.date_utils]). *)
Class Utilities : Type := {
  get_audit_name : dict -> str;
  to_filename : str -> str;
  get_first_existing : dict -> list str -> option str -> option str;
  format_time : Z -> str -> str;
  AUTH_USERNAME : str;
  PROXIED_USERNAME : str;
  PROXIED_HOSTNAME : str;
  HOSTNAME : str;
  PROXIED_IP : str;
  IP : str
}.

(** Lines 306-311. *)
Record LogNameCreator : Type := {
  _date_format : str;
  _filename_template : str
}.

Definition DEFAULT_DATE_FORMAT : str := Eval cbv in s2l "%y%m%d_%H%M%S".

Definition DEFAULT_FILENAME_PATTERN : str :=
  Eval cbv in s2l "${SCRIPT}_${AUDIT_NAME}_${DATE}".

Definition new_LogNameCreator (filename_pattern date_format : option str)
  : LogNameCreator :=
  {| _date_format :=
       match date_format with
       | Some ((_ :: _) as format) => format
       | _ => DEFAULT_DATE_FORMAT
       end;
     _filename_template :=
       match filename_pattern with
       | Some ((_ :: _) as pattern) => pattern
       | _ => DEFAULT_FILENAME_PATTERN
       end |}.

(** Lines 333-334. *)
Definition with_log_extension (filename : str) : str :=
  if negb (endswith (lower filename) (s2l ".log"))
  then filename ++ s2l ".log" else filename.

(** Lines 321-330. *)
Definition filename_mapping `{Utilities} (date_format : str)
    (execution_id : str) (all_audit_names : dict) (script_name : str)
    (start_time : Z) : dict :=
  let audit_name := to_filename (get_audit_name all_audit_names) in
  let date_string := format_time start_time date_format in
  let username :=
    get_first_existing all_audit_names [AUTH_USERNAME; PROXIED_USERNAME]
                       None in
  [(s2l "ID", execution_id);
   (s2l "USERNAME", py_str_of_option username);
   (s2l "HOSTNAME",
    py_str_of_option
      (get_first_existing all_audit_names [PROXIED_HOSTNAME; HOSTNAME]
                          (Some (s2l "unknown-host"))));
   (s2l "IP",
    py_str_of_option
      (get_first_existing all_audit_names [PROXIED_IP; IP] None));
   (s2l "DATE", date_string);
   (s2l "AUDIT_NAME", audit_name);
   (s2l "SCRIPT", script_name)].

(** Lines 313-338. *)
Definition create_filename `{Utilities} (self : LogNameCreator)
    (execution_id : str) (all_audit_names : dict) (script_name : str)
    (start_time : Z) : str :=
  let mapping := filename_mapping (_date_format self) execution_id
                   all_audit_names script_name start_time in
  let filename := safe_substitute (_filename_template self) mapping in
  replace_spaces (with_log_extension filename).

(** Lines 234-242. *)
Definition _create_log_identifier `{Utilities} (audit_name script_name : str)
    (start_time : Z) : str :=
  let audit_name := to_filename audit_name in
  let date_string := format_time start_time DEFAULT_DATE_FORMAT in
  let script_name := replace_spaces script_name in
  script_name ++ "_" :: audit_name ++ "_" :: date_string.

(** Utilities to compute with: the attributes are looked up in order, a
    file name is the text with its spaces replaced, a time is written in
    decimal. *)
Definition sample_utilities : Utilities :=
  {| get_audit_name := fun names => default [] (dict_get (s2l "user") names);
     to_filename := replace_spaces;
     get_first_existing := fun names keys fallback =>
       match omap (fun k => dict_get k names) keys with
       | v :: _ => Some v
       | [] => fallback
       end;
     format_time := fun ms _ => py_str_of_Z ms;
     AUTH_USERNAME := s2l "auth_username";
     PROXIED_USERNAME := s2l "proxied_username";
     PROXIED_HOSTNAME := s2l "proxied_hostname";
     HOSTNAME := s2l "hostname";
     PROXIED_IP := s2l "proxied_ip";
     IP := s2l "ip" |}.

(** The value of the last field under a key. *)
Fixpoint last_value (k : str) (fields : list (str * str)) : option str :=
  match fields with
  | [] => None
  | (k', v) :: rest =>
      match last_value k rest with
      | Some v' => Some v'
      | None => if bool_decide (k' = k) then Some v else None
      end
  end.

(** With a field open, no line makes the loop fail. *)
Definition field_open (s : parse_state) : Prop :=
  is_Some (current_key s) /\ is_Some (current_value s).

(** What the loop has taken from the text read so far: every value stored
    stands in the text after its key, and the open field is its end. *)
Definition taken_from (pre : str) (s : parse_state) : Prop :=
  (forall k v, parameters s !! k = Some v ->
               is_key k = true /\ infix (k ++ ":" :: v) pre)
  /\ ((current_key s = None /\ current_value s = None)
      \/ exists k cv a,
           current_key s = Some k /\ current_value s = Some cv
           /\ is_key k = true /\ pre = a ++ k ++ ":" :: cv).

(** The last character of a text. *)
Definition last_char (t : str) : ascii := List.last t " ".

(** The file holds a transcript whose header gives the identifier [k]. *)
Definition carries_id (d : disk) (g k : str) : Prop :=
  exists e, extract d g = Ok (Some e) /\ entry_id e = k.

(** In the index, the file [f] stands under no key but [k]. *)
Definition only_under (k f : str) (m : dict) : bool :=
  forallb (fun kv => negb (bool_decide (kv.2 = f)) || bool_decide (kv.1 = k))
          m.

(** ** More statements of the specification, as it words them *)




(** Stale-index recovery: once the file of an indexed identifier is
    deleted, [find_log] returns nothing for it, the identifier is out of
    the index, and no entry listed has it. *)
Definition stale_index_recovery_as_specified (p : platform) (d : disk)
    (s : service) (execution_id file : str) : Prop :=
  dict_get execution_id (_ids_to_file_map s) = Some file ->
  let d' := remove_file d file in
  exists s',
    find_log p d' execution_id s = Returned None s'
    /\ dict_get execution_id (_ids_to_file_map s') = None
    /\ forall es s'',
         get_history_entries d' s = Returned es s'' ->
         forall e, e ∈ es -> entry_id e <> execution_id.

(** The file carries the identifier, as a test. *)
Definition carries_id_b (d : disk) (g k : str) : bool :=
  match extract d g with
  | Ok (Some e) => bool_decide (entry_id e = k)
  | _ => false
  end.

(** No file that the index holds under another key carries the
    identifier [k]. *)
Definition id_only_under (k : str) (d : disk) (m : dict) : bool :=
  forallb (fun kv => bool_decide (kv.1 = k) || negb (carries_id_b d kv.2 k))
          m.

(** Idempotence of the synchronisation: the second of two runs parses no
    file that was visited and leaves the index as the first left it. *)
Definition sync_idempotent_as_specified (d : disk) (s : service) : Prop :=
  let s1 := final_state (_renew_files_cache d s) in
  let s2 := final_state (_renew_files_cache d s1) in
  (exists new, parse_log s2 = new ++ parse_log s1
               /\ forall g, g ∈ new -> g ∉ _visited_files s1)
  /\ _ids_to_file_map s2 = _ids_to_file_map s1.

(** A visited file that is out of the index is never parsed again and
    never enters the index again, whatever the calls. *)
Definition visited_monotone_as_specified (actions : list action)
    (s : service) (fs : files) : Prop :=
  let s' := (run actions (s, fs)).1 in
  forall file,
    file ∈ _visited_files s ->
    file ∉ map snd (_ids_to_file_map s) ->
    (file ∉ map snd (_ids_to_file_map s'))
    /\ exists new, parse_log s' = new ++ parse_log s /\ file ∉ new.


(** ** Facts about text *)

Lemma ascii_eqb_true a b : ascii_eqb a b = true <-> a = b.
Proof. unfold ascii_eqb. apply bool_decide_eq_true. Qed.

Lemma ascii_eqb_false a b : ascii_eqb a b = false <-> a <> b.
Proof. unfold ascii_eqb. apply bool_decide_eq_false. Qed.

Lemma ascii_eqb_refl a : ascii_eqb a a = true.
Proof. by apply ascii_eqb_true. Qed.

Lemma startswith_spec t pre :
  startswith t pre = true <-> exists r, t = pre ++ r.
Proof.
  revert t. induction pre as [|c pre IH]; intros t; simpl.
  - split; [eauto | done].
  - destruct t as [|x t]; simpl.
    + split; [done | intros [r Hr]; discriminate].
    + rewrite andb_true_iff, ascii_eqb_true, IH. split.
      * intros [-> [r ->]]. eauto.
      * intros [r Hr]. injection Hr as -> ->. eauto.
Qed.

Lemma startswith_app pre r : startswith (pre ++ r) pre = true.
Proof. apply startswith_spec. eauto. Qed.

Lemma startswith_long a b s :
  length s <= length a -> startswith (a ++ b) s = startswith a s.
Proof.
  revert a. induction s as [|c s IH]; intros a Hlen; simpl.
  - by destruct (a ++ b), a.
  - destruct a as [|x a]; simpl in *; [lia|].
    rewrite IH by lia. done.
Qed.

Lemma endswith_snoc t c : endswith (t ++ [c]) [c] = true.
Proof.
  unfold endswith. rewrite rev_app_distr. simpl. by rewrite ascii_eqb_refl.
Qed.

Lemma drop_last_snoc t c : drop_last (t ++ [c]) = t.
Proof. apply removelast_last. Qed.

Lemma _rstrip_once_snoc t c : _rstrip_once (t ++ [c]) [c] = t.
Proof. unfold _rstrip_once. by rewrite endswith_snoc, drop_last_snoc. Qed.

Lemma contains_infix t m : contains t m = true <-> infix m t.
Proof.
  induction t as [|c t IH]; simpl.
  - rewrite orb_false_r, startswith_spec. split.
    + intros [r Hr]. by exists [], r.
    + intros (a & b & Hab). destruct a; [|discriminate]. eauto.
  - rewrite orb_true_iff, startswith_spec, IH. split.
    + intros [[r Hr] | (a & b & ->)].
      * by exists [], r.
      * by exists (c :: a), b.
    + intros (a & b & Hab). destruct a as [|x a].
      * left. eauto.
      * right. injection Hab as -> ->. by exists a, b.
Qed.

Lemma not_contains_infix t m : contains t m = false <-> ~ infix m t.
Proof. rewrite <- contains_infix. by destruct (contains t m). Qed.

Lemma infix_elem m t c : infix m t -> c ∈ m -> c ∈ t.
Proof. intros (a & b & ->) Hc. set_solver. Qed.

Lemma infix_app_l m x y : infix m x -> infix m (x ++ y).
Proof. intros (a & b & ->). exists a, (b ++ y). by rewrite <- !app_assoc. Qed.

Lemma infix_app_r m x y : infix m y -> infix m (x ++ y).
Proof. intros (a & b & ->). exists (x ++ a), b. by rewrite <- !app_assoc. Qed.

Lemma infix_prefix m m' t : infix (m ++ m') t -> infix m t.
Proof. intros (a & b & ->). exists a, (m' ++ b). by rewrite <- !app_assoc. Qed.

(** An occurrence cannot run across a character that the pattern lacks. *)
Lemma infix_sep m x c y :
  c ∉ m -> infix m (x ++ c :: y) -> infix m x \/ infix m y.
Proof.
  intros Hc (a & b & Heq).
  apply app_eq_app in Heq as [l [[-> Hl] | [-> Hl]]].
  - apply app_eq_app in Hl as [l' [[-> Hl'] | [-> Hl']]].
    + destruct l' as [|c' l']; simpl in Hl'.
      * left. exists a, []. by rewrite !app_nil_r.
      * injection Hl' as -> _. set_solver.
    + left. exists a, l'. done.
  - right. destruct l as [|c' l]; simpl in Hl.
    + destruct m as [|c' m]; simpl in Hl.
      * by exists [], y.
      * injection Hl as -> _. set_solver.
    + injection Hl as -> ->. by exists l, b.
Qed.

(** An occurrence that ends with a character ends no later than the last
    place where that character stands. *)
Lemma infix_last m c x y :
  c ∉ y -> infix (m ++ [c]) (x ++ y) -> infix (m ++ [c]) x.
Proof.
  intros Hc (a & b & Heq).
  replace (a ++ (m ++ [c]) ++ b) with ((a ++ m) ++ c :: b) in Heq
    by (by rewrite <- !app_assoc).
  apply app_eq_app in Heq as [l [[-> Hl] | [Hl ->]]].
  - destruct l as [|c' l]; simpl in Hl.
    + subst y. set_solver.
    + injection Hl as -> ->. exists a, l. by rewrite <- !app_assoc.
  - exfalso. apply Hc. set_solver.
Qed.

Lemma split_once_unfold sep t :
  split_once sep t =
  if startswith t sep then Some ([], drop (length sep) t)
  else match t with
       | [] => None
       | c :: t' =>
           match split_once sep t' with
           | Some (a, b) => Some (c :: a, b)
           | None => None
           end
       end.
Proof. by destruct t. Qed.

Lemma drop_last_length (t : str) :
  t <> [] -> S (length (drop_last t)) = length t.
Proof.
  intros Hne. rewrite (app_removelast_last LF Hne) at 2.
  rewrite length_app. simpl. unfold drop_last. lia.
Qed.

Lemma split_once_first sep h rest :
  contains (h ++ drop_last sep) sep = false ->
  split_once sep (h ++ sep ++ rest) = Some (h, rest).
Proof.
  induction h as [|c h IH]; intros Hno.
  - rewrite split_once_unfold. simpl. rewrite startswith_app.
    by rewrite drop_app_length.
  - rewrite split_once_unfold. simpl in Hno.
    apply orb_false_iff in Hno as [Hs Hc].
    assert (Hs' : startswith ((c :: h) ++ sep ++ rest) sep = false).
    { destruct (decide (sep = [])) as [->|Hne].
      - simpl in Hs. done.
      - rewrite <- Hs.
        rewrite (app_removelast_last LF Hne) at 1.
        rewrite <- (app_assoc (removelast sep)), (app_assoc (c :: h)).
        rewrite startswith_long; [done|].
        rewrite length_app. simpl.
        pose proof (drop_last_length sep Hne). unfold drop_last in *. lia. }
    rewrite Hs'. simpl. by rewrite IH.
Qed.

Lemma universal_newlines_no_cr a b :
  CR ∉ a -> universal_newlines (a ++ b) = a ++ universal_newlines b.
Proof.
  induction a as [|c a IH]; intros Hcr; [done|].
  cbn [app universal_newlines].
  destruct (ascii_eqb c CR) eqn:E.
  - apply ascii_eqb_true in E. set_solver.
  - rewrite IH; [done | set_solver].
Qed.

Lemma universal_newlines_linesep p b :
  universal_newlines (linesep p ++ b) = LF :: universal_newlines b.
Proof. destruct p; reflexivity. Qed.

Lemma lines_lf_line l rest :
  LF ∉ l -> lines_lf (l ++ LF :: rest) = (l ++ [LF]) :: lines_lf rest.
Proof.
  induction l as [|c l IH]; intros Hl.
  - reflexivity.
  - cbn [app lines_lf]. destruct (ascii_eqb c LF) eqn:E.
    + apply ascii_eqb_true in E. set_solver.
    + rewrite IH by set_solver. done.
Qed.

Lemma lines_lf_concat t : concat (lines_lf t) = t.
Proof.
  induction t as [|c t IH]; [done|]. cbn [lines_lf].
  destruct (ascii_eqb c LF).
  - cbn. by rewrite IH.
  - destruct (lines_lf t) as [|l ls]; cbn in *; by rewrite <- IH.
Qed.

Lemma splitlines_line l rest :
  Forall (fun c => is_linebreak c = false) l ->
  splitlines (l ++ LF :: rest) = (l ++ [LF]) :: splitlines rest.
Proof.
  induction l as [|c l IH]; intros Hl.
  - reflexivity.
  - apply Forall_cons in Hl as [Hc Hl].
    cbn [app splitlines]. rewrite Hc.
    destruct (ascii_eqb c CR) eqn:E.
    + apply ascii_eqb_true in E. subst c. done.
    + rewrite IH by done. done.
Qed.

(** A line of [splitlines] has its line boundary, if any, at the end. *)
Lemma splitlines_lf_last t line :
  line ∈ splitlines t ->
  exists body, (LF ∉ body) /\ (line = body \/ line = body ++ [LF]).
Proof.
  remember (length t) as n eqn:Hn.
  assert (Hle : length t <= n) by lia. clear Hn.
  revert t line Hle. induction n as [|n IH]; intros t line Hle Hin.
  { destruct t; simpl in *; [set_solver | lia]. }
  destruct t as [|c t]; [simpl in Hin; set_solver|].
  simpl in Hle. cbn [splitlines] in Hin.
  destruct (ascii_eqb c CR) eqn:Ecr.
  - apply ascii_eqb_true in Ecr. subst c.
    assert (Hcr : LF ∉ [CR]) by (rewrite list_elem_of_singleton; done).
    destruct t as [|d t'].
    + apply list_elem_of_singleton in Hin as ->. exists [CR]. by split; [|left].
    + simpl in Hle. destruct (ascii_eqb d LF) eqn:Elf.
      * apply ascii_eqb_true in Elf. subst d.
        apply elem_of_cons in Hin as [->|Hin].
        -- exists [CR]. by split; [|right].
        -- eapply IH; [|exact Hin]; lia.
      * apply elem_of_cons in Hin as [->|Hin].
        -- exists [CR]. by split; [|left].
        -- eapply IH; [|exact Hin]; simpl; lia.
  - destruct (is_linebreak c) eqn:Elb.
    + apply elem_of_cons in Hin as [->|Hin].
      * destruct (decide (c = LF)) as [->|Hne].
        -- exists []. split; [set_solver | by right].
        -- exists [c]. split; [set_solver | by left].
      * eapply IH; [|exact Hin]; lia.
    + assert (Hne : c <> LF) by (intros ->; done).
      destruct (splitlines t) as [|l ls] eqn:Et.
      * apply list_elem_of_singleton in Hin as ->. exists [c].
        split; [set_solver | by left].
      * apply elem_of_cons in Hin as [->|Hin].
        -- destruct (IH t l ltac:(lia)) as (body & Hb & Hl).
           { rewrite Et. set_solver. }
           exists (c :: body). split; [set_solver|].
           destruct Hl as [->| ->]; [by left | by right].
        -- apply (IH t); [lia|]. rewrite Et. set_solver.
Qed.

(** ** Facts about the field pattern *)

Lemma span_word_key key c rest :
  Forall (fun c => is_word c = true) key -> is_word c = false ->
  span_word (key ++ c :: rest) = (key, c :: rest).
Proof.
  induction 1 as [|k key Hk _ IH]; intros Hc; simpl.
  - by rewrite Hc.
  - rewrite Hk, IH by done. done.
Qed.

Lemma span_word_spec t key r :
  span_word t = (key, r) ->
  t = key ++ r /\ Forall (fun c => is_word c = true) key
  /\ match r with [] => True | c :: _ => is_word c = false end.
Proof.
  revert key r. induction t as [|c t IH]; intros key r; simpl.
  - intros [= <- <-]. by repeat split.
  - destruct (is_word c) eqn:Hc.
    + destruct (span_word t) as [k r'] eqn:E. intros [= <- <-].
      destruct (IH k r' eq_refl) as (-> & Hk & Hr).
      repeat split; [by constructor | done].
    + intros [= <- <-]. by repeat split.
Qed.

Lemma dot_star_eol_spec v :
  dot_star_eol v = true <-> exists body, v = body ++ [LF] /\ LF ∉ body.
Proof.
  unfold dot_star_eol. split.
  - destruct (rev v) as [|c body] eqn:E; [done|].
    intros [Hc Hb]%andb_true_iff. apply ascii_eqb_true in Hc. subst c.
    exists (rev body). split.
    + by rewrite <- (rev_involutive v), E.
    + rewrite forallb_forall in Hb. intros Hin.
      apply list_elem_of_In, in_rev, Hb in Hin.
      by rewrite ascii_eqb_refl in Hin.
  - intros (body & -> & Hb). rewrite rev_app_distr. cbn [rev app].
    rewrite ascii_eqb_refl. cbn [andb]. apply forallb_forall. intros c Hc.
    apply negb_true_iff, ascii_eqb_false. intros ->.
    apply Hb. by apply list_elem_of_In, in_rev.
Qed.

(** The function [match_field] computes the match of the pattern. *)
Lemma match_field_fullmatch line key v :
  match_field line = Some (key, v) <-> fullmatch_field line key v.
Proof.
  unfold match_field. split.
  - destruct (span_word line) as [k r] eqn:E.
    apply span_word_spec in E as (-> & Hk & Hr).
    destruct k as [|k0 k]; [done|]. destruct r as [|c r]; [done|].
    destruct (ascii_eqb c ":") eqn:Ec; [|done]. simpl.
    destruct (dot_star_eol r) eqn:Ed; [|done].
    intros [= <- <-]. apply ascii_eqb_true in Ec. subst c.
    apply dot_star_eol_spec in Ed as (body & -> & Hb).
    pose proof (fullmatch_field_intro (k0 :: k) body []) as Hm.
    simpl in Hm. simpl. apply Hm; [done | done | | by left].
    apply Forall_forall. intros x Hx ->. done.
  - intros [k dots cr Hne Hk Hdots Hcr].
    rewrite span_word_key by done.
    destruct k as [|k0 k]; [done|].
    rewrite ascii_eqb_refl. simpl.
    assert (Hd : dot_star_eol (dots ++ cr ++ [LF]) = true).
    { apply dot_star_eol_spec. exists (dots ++ cr). split.
      - by rewrite <- app_assoc.
      - rewrite Forall_forall in Hdots. intros [H|H]%elem_of_app.
        + by apply (Hdots LF).
        + destruct Hcr as [-> | ->]; [set_solver|].
          apply list_elem_of_singleton in H. done. }
    by rewrite Hd.
Qed.

Lemma match_field_key_line key body :
  key <> [] -> Forall (fun c => is_word c = true) key -> LF ∉ body ->
  match_field (key ++ ":" :: body ++ [LF]) = Some (key, body ++ [LF]).
Proof.
  intros Hne Hk Hb. apply match_field_fullmatch.
  pose proof (fullmatch_field_intro key body [] Hne Hk) as Hm.
  simpl in Hm. apply Hm; [|by left].
  apply Forall_forall. intros x Hx ->. done.
Qed.

(** ** Facts about the decoder *)

Lemma is_word_not_linebreak c : is_word c = true -> is_linebreak c = false.
Proof.
  destruct c as [[] [] [] [] [] [] [] []]; vm_compute; congruence.
Qed.

Lemma span_word_lf l x :
  span_word (l ++ LF :: x) = ((span_word l).1, (span_word l).2 ++ LF :: x).
Proof.
  induction l as [|c l IH]; [done|].
  cbn [app span_word]. destruct (is_word c); [|done].
  rewrite IH. by destruct (span_word l).
Qed.

Lemma starts_field_lf l x : starts_field (l ++ LF :: x) = starts_field l.
Proof.
  unfold starts_field. rewrite span_word_lf.
  destruct (span_word l) as [[|k0 k] [|c r]]; done.
Qed.

Lemma match_field_not_field t : starts_field t = false -> match_field t = None.
Proof.
  unfold starts_field, match_field.
  destruct (span_word t) as [[|k0 k] [|c r]]; try done.
  by intros ->.
Qed.

Lemma match_field_continuation l :
  starts_field l = false -> match_field (l ++ [LF]) = None.
Proof.
  intros H. apply match_field_not_field. by rewrite starts_field_lf.
Qed.

Lemma parse_line_continuation s cv line :
  current_value s = Some cv -> match_field line = None ->
  parse_line s line = Ok (with_value s (cv ++ line)).
Proof. intros Hcv Hm. unfold parse_line. by rewrite Hm, Hcv. Qed.

(** The lines of a value after its first are taken as continuations. *)
Lemma parse_continuation v : forall pre s cv rest,
  header_value v = true ->
  Forall (fun c => is_linebreak c = false) pre ->
  starts_field (pre ++ v) = false ->
  current_value s = Some cv ->
  parse_lines s (splitlines (pre ++ v ++ LF :: rest))
  = parse_lines (with_value s (cv ++ pre ++ v ++ [LF])) (splitlines rest).
Proof.
  induction v as [|c v IH]; intros pre s cv rest Hv Hpre Hsf Hcv.
  - rewrite app_nil_r in Hsf. cbn [app].
    rewrite splitlines_line by done. cbn [parse_lines].
    rewrite (parse_line_continuation s cv) by auto using match_field_continuation.
    done.
  - cbn [header_value] in Hv. destruct (ascii_eqb c LF) eqn:Ec.
    + apply ascii_eqb_true in Ec. subst c.
      apply andb_true_iff in Hv as [Hs Hv]. apply negb_true_iff in Hs.
      cbn [app]. rewrite splitlines_line by done. cbn [parse_lines].
      rewrite starts_field_lf in Hsf.
      rewrite (parse_line_continuation s cv) by auto using match_field_continuation.
      cbn [result_bind].
      pose proof (IH [] (with_value s (cv ++ pre ++ [LF])) (cv ++ pre ++ [LF])
                     rest Hv ltac:(constructor) Hs eq_refl) as Hrec.
      cbn [app] in Hrec. rewrite Hrec.
      unfold with_value. cbn. by rewrite <- !app_assoc.
    + apply andb_true_iff in Hv as [Hc Hv]. apply negb_true_iff in Hc.
      replace (pre ++ (c :: v) ++ LF :: rest)
        with ((pre ++ [c]) ++ v ++ LF :: rest) by (by rewrite <- app_assoc).
      rewrite (IH (pre ++ [c]) s cv); [|done| |by rewrite <- app_assoc|done].
      * by rewrite <- !app_assoc.
      * apply Forall_app. split; [done | by constructor].
Qed.

(** A field line opens the field, whatever was open is stored. *)
Lemma parse_field_from key v : forall pre s params rest,
  key <> [] -> Forall (fun c => is_word c = true) key ->
  header_value v = true ->
  Forall (fun c => is_linebreak c = false) pre ->
  store_current s = Ok params ->
  parse_lines s (splitlines (key ++ ":" :: pre ++ v ++ LF :: rest))
  = parse_lines {| current_value := Some (pre ++ v ++ [LF]);
                   current_key := Some key; parameters := params |}
                (splitlines rest).
Proof.
  induction v as [|c v IH]; intros pre s params rest Hne Hk Hv Hpre Hst.
  all: assert (Hline : forall x, splitlines (key ++ ":" :: pre ++ LF :: x)
         = (key ++ ":" :: pre ++ [LF]) :: splitlines x).
  1,3: intros x;
      replace (key ++ ":" :: pre ++ LF :: x)
         with ((key ++ ":" :: pre) ++ LF :: x) by (by rewrite <- app_assoc);
      rewrite splitlines_line;
      [by rewrite <- app_assoc
      |apply Forall_app; split;
        [eapply Forall_impl; [exact Hk | auto using is_word_not_linebreak]
        |by constructor]].
  all: assert (Hlf : LF ∉ pre) by
      (intros Hin; rewrite Forall_forall in Hpre; by apply Hpre in Hin).
  - cbn [app]. rewrite Hline. cbn [parse_lines]. unfold parse_line.
    rewrite match_field_key_line by done. rewrite Hst. done.
  - cbn [header_value] in Hv. destruct (ascii_eqb c LF) eqn:Ec.
    + apply ascii_eqb_true in Ec. subst c.
      apply andb_true_iff in Hv as [Hs Hv]. apply negb_true_iff in Hs.
      cbn [app]. rewrite Hline. cbn [parse_lines]. unfold parse_line.
      rewrite match_field_key_line by done. rewrite Hst. cbn [result_bind].
      pose proof (parse_continuation v []
                    {| current_value := Some (pre ++ [LF]);
                       current_key := Some key; parameters := params |}
                    (pre ++ [LF]) rest Hv ltac:(constructor) Hs eq_refl)
        as Hrec.
      cbn [app] in Hrec. etrans; [exact Hrec|].
      unfold with_value. cbn. by rewrite <- !app_assoc.
    + apply andb_true_iff in Hv as [Hc Hv]. apply negb_true_iff in Hc.
      replace (pre ++ (c :: v) ++ LF :: rest)
        with ((pre ++ [c]) ++ v ++ LF :: rest) by (by rewrite <- app_assoc).
      rewrite (IH (pre ++ [c]) s params); [|done|done|done| |done].
      * by rewrite <- !app_assoc.
      * apply Forall_app. split; [done | by constructor].
Qed.

Lemma is_key_spec k :
  is_key k = true <-> k <> [] /\ Forall (fun c => is_word c = true) k.
Proof.
  destruct k as [|c k]; [by split; [|intros []]|].
  unfold is_key. rewrite forallb_forall, Forall_forall. split.
  - intros H. split; [done|]. intros x Hx. by apply H, list_elem_of_In.
  - intros [_ H] x Hx. by apply H, list_elem_of_In.
Qed.

Lemma header_value_no_break v c :
  header_value v = true -> c ∈ v -> is_linebreak c = true -> c = LF.
Proof.
  induction v as [|x v IH]; intros Hv Hin Hc; [by apply elem_of_nil in Hin|].
  cbn [header_value] in Hv. apply elem_of_cons in Hin as [->|Hin].
  - destruct (ascii_eqb x LF) eqn:E; [by apply ascii_eqb_true|].
    apply andb_true_iff in Hv as [Hx _]. rewrite Hc in Hx. done.
  - apply IH; [|done|done].
    destruct (ascii_eqb x LF); by apply andb_true_iff in Hv as [_ Hv].
Qed.

Lemma header_value_no_cr v : header_value v = true -> CR ∉ v.
Proof.
  intros Hv Hin. by pose proof (header_value_no_break v CR Hv Hin eq_refl).
Qed.

Lemma is_key_no_cr k : is_key k = true -> CR ∉ k.
Proof.
  intros [_ Hk]%is_key_spec Hin. rewrite Forall_forall in Hk.
  by apply Hk in Hin.
Qed.

(** Read in text mode, a header has the terminators of Posix. *)
Lemma universal_newlines_fields p fields rest :
  fields_ok fields ->
  universal_newlines (encode_fields p fields ++ rest)
  = encode_fields Posix fields ++ universal_newlines rest.
Proof.
  induction 1 as [|[k v] fields [Hk Hv] _ IH]; [done|].
  unfold encode_fields in *. cbn [flat_map fst snd].
  change (encode_field p k v) with (k ++ ":" :: v ++ linesep p).
  rewrite <- !app_assoc. cbn [app].
  rewrite universal_newlines_no_cr by by apply is_key_no_cr.
  change (":" :: ?x) with ([":"] ++ x).
  rewrite universal_newlines_no_cr
    by (rewrite list_elem_of_singleton; done).
  rewrite <- !app_assoc.
  rewrite universal_newlines_no_cr by by apply header_value_no_cr.
  rewrite universal_newlines_linesep, IH. unfold encode_field.
  cbn [linesep]. rewrite <- !app_assoc. cbn [app]. by rewrite <- !app_assoc.
Qed.

Lemma parse_fields fields : forall s params,
  fields_ok fields -> store_current s = Ok params ->
  result_bind (parse_lines s (splitlines (encode_fields Posix fields)))
              store_current
  = Ok (foldl (fun m kv => <[kv.1 := kv.2]> m) params fields).
Proof.
  induction fields as [|[k v] fields IH]; intros s params Hok Hst.
  - done.
  - apply Forall_cons in Hok as [[Hk Hv] Hok]. cbn [fst snd] in *.
    apply is_key_spec in Hk as [Hne Hk].
    unfold encode_fields in *. cbn [flat_map fst snd foldl].
    change (encode_field Posix k v) with (k ++ ":" :: v ++ linesep Posix).
    rewrite <- !app_assoc. cbn [linesep app]. rewrite <- !app_assoc.
    cbn [app].
    pose proof (parse_field_from k v [] s params
                  (flat_map (fun kv => encode_field Posix kv.1 kv.2) fields)
                  Hne Hk Hv ltac:(constructor) Hst) as Hf.
    cbn [app] in Hf. etrans; [by rewrite Hf|].
    apply IH; [done|]. unfold store_current. cbn.
    by rewrite _rstrip_once_snoc.
Qed.

(** Decoding what was encoded, with the terminators of Posix. *)
Lemma decode_fields_posix fields :
  fields_ok fields ->
  _parse_history_parameters (encode_fields Posix fields)
  = Ok (mapping_of fields).
Proof.
  intros Hok. unfold _parse_history_parameters.
  by apply (parse_fields fields parse_start ∅).
Qed.

Lemma endswith_spec t c : endswith t [c] = true <-> exists r, t = r ++ [c].
Proof.
  unfold endswith. rewrite startswith_spec. split.
  - intros [r Hr]. exists (rev r). rewrite <- (rev_involutive t), Hr.
    simpl. done.
  - intros [r ->]. exists (rev r). by rewrite rev_app_distr.
Qed.

Lemma _rstrip_once_prefix t c : exists tail, t = _rstrip_once t [c] ++ tail.
Proof.
  unfold _rstrip_once. destruct (endswith t [c]) eqn:E.
  - apply endswith_spec in E as [r ->]. rewrite drop_last_snoc. eauto.
  - exists []. by rewrite app_nil_r.
Qed.

Lemma store_current_open s cv :
  current_value s = Some cv -> store_current s = Ok (stored s cv).
Proof.
  intros H. unfold store_current, stored. rewrite H.
  by destruct (current_key s).
Qed.

(** C1, as the specification states it, fails: a value with an embedded
    newline whose second line looks like a field comes back as two
    fields. *)
Lemma header_roundtrip_counterexample :
  ~ header_roundtrip_as_specified Posix
      (s2l "1") (s2l "alice") (s2l "u1") (s2l "build.sh") (s2l "0")
      (s2l "a" ++ [LF] ++ s2l "b:c").
Proof.
  unfold header_roundtrip_as_specified. intros H.
  apply (f_equal (fun r => match r with
                           | Ok m => m !! s2l "b"
                           | Err _ => None
                           end)) in H.
  vm_compute in H. discriminate.
Qed.

(** C1, amended.  Encoding the six fields and decoding the text, as it is
    read back in text mode on either platform and as it stands on Posix,
    gives back the identical mapping, for all values whose only line
    boundary is the newline and of which no line after the first begins
    with word characters and a colon; colons and newlines are otherwise
    free. *)
Theorem header_roundtrip (p : platform)
    (execution_id user_name user_id script_name start_time command : str) :
  header_value execution_id = true -> header_value user_name = true ->
  header_value user_id = true -> header_value script_name = true ->
  header_value start_time = true -> header_value command = true ->
  _parse_history_parameters
    (universal_newlines
       (header_text p execution_id user_name user_id script_name start_time
                    command))
  = Ok (header_mapping execution_id user_name user_id script_name start_time
                       command)
  /\ header_roundtrip_as_specified Posix execution_id user_name user_id
       script_name start_time command.
Proof.
  intros H1 H2 H3 H4 H5 H6.
  assert (Hok : fields_ok (header_fields execution_id user_name user_id
                             script_name start_time command)).
  { unfold header_fields. repeat (constructor; [by split|]). constructor. }
  split.
  - unfold header_text.
    rewrite <- (app_nil_r (encode_fields p _)).
    rewrite universal_newlines_fields by done. rewrite app_nil_r.
    by rewrite decode_fields_posix.
  - unfold header_roundtrip_as_specified, header_text.
    by rewrite decode_fields_posix.
Qed.

Lemma header_roundtrip_witness :
  exists m,
    _parse_history_parameters
      (universal_newlines
         (header_text Windows (s2l "7") (s2l "alice") (s2l "u1")
            (s2l "build.sh") (s2l "1700000000000")
            (s2l "make: all" ++ [LF] ++ s2l "  --jobs=4")))
    = Ok m
    /\ m !! K_command = Some (s2l "make: all" ++ [LF] ++ s2l "  --jobs=4").
Proof.
  eexists. split.
  - apply (header_roundtrip Windows); reflexivity.
  - reflexivity.
Defined.

(** A header whose first line is not a field line cannot be decoded: the
    loop adds to a value that is still [None]. *)
Lemma first_line_continuation text line rest :
  splitlines text = line :: rest -> match_field line = None ->
  _parse_history_parameters text = Err TypeError.
Proof.
  intros Hl Hm. unfold _parse_history_parameters. rewrite Hl.
  cbn [parse_lines]. unfold parse_line. by rewrite Hm.
Qed.

(** C3: the code at the failing input.  A [.log] file that starts with a
    line which is not a field line makes the extraction raise [TypeError],
    and with it every look-up that comes across the file. *)
Theorem first_line_continuation_raises :
  let content := s2l "garbage" ++ [LF] ++ OUTPUT_STARTED_MARKER ++ [LF]
                 ++ s2l "out" in
  let d := [(s2l "bad.log", content)] in
  read_parameters_text content = (true, s2l "garbage" ++ [LF])
  /\ extract d (s2l "bad.log") = Err TypeError
  /\ (exists s, get_history_entries d new_service = Raised TypeError s)
  /\ (exists s, find_history_entry d (s2l "7") new_service
                = Raised TypeError s)
  /\ (exists s, find_log Posix d (s2l "7") new_service = Raised TypeError s).
Proof.
  cbv zeta. split; [reflexivity|]. split; [reflexivity|].
  repeat split; eexists; vm_compute; reflexivity.
Qed.

(** C9, as the specification states it, fails: a line that a vertical tab
    ends matches the pattern of the specification, and the code appends it
    to the open field. *)
Lemma field_start_rule_counterexample :
  let text := s2l "id:1" ++ [LF] ++ s2l "user:x" ++ ["011"; "y"; LF] in
  let s := {| current_value := Some (s2l "1" ++ [LF]);
              current_key := Some K_id; parameters := ∅ |} in
  let line := s2l "user:x" ++ ["011"] in
  line ∈ splitlines text
  /\ parse_lines parse_start [s2l "id:1" ++ [LF]] = Ok s
  /\ ~ field_start_rule_as_specified s line.
Proof.
  cbv zeta. split; [|split].
  - vm_compute. apply list_elem_of_further, list_elem_of_here.
  - reflexivity.
  - intros H. specialize (H _ eq_refl). vm_compute in H. discriminate.
Qed.

(** C9, amended.  For every line of a header text met with a field open:
    a line made of a key (a run of word characters), a colon and a
    remainder that ends with the newline opens a field with that key, the
    remainder being its first value and the field open before being
    stored; every other line is appended as it is to the open value. *)
Theorem field_start_rule (text : str) (s : parse_state) (line cv : str) :
  line ∈ splitlines text -> current_value s = Some cv ->
  (forall key v,
     line = key ++ ":" :: v -> is_key key = true -> endswith v [LF] = true ->
     parse_line s line
     = Ok {| current_value := Some v; current_key := Some key;
             parameters := stored s cv |})
  /\ ((forall key v,
         line = key ++ ":" :: v -> is_key key = true ->
         endswith v [LF] = false) ->
      parse_line s line = Ok (with_value s (cv ++ line))).
Proof.
  intros Hin Hcv. split.
  - intros key v -> [Hne Hk]%is_key_spec [r ->]%endswith_spec.
    apply splitlines_lf_last in Hin as (body & Hb & Hl).
    assert (Hr : LF ∉ r).
    { destruct Hl as [Hl|Hl].
      - exfalso. apply Hb. rewrite <- Hl. set_solver.
      - change (key ++ ":" :: r ++ [LF]) with (key ++ (":" :: r) ++ [LF]) in Hl.
        rewrite app_assoc in Hl. apply app_inj_tail in Hl as [<- _].
        set_solver. }
    unfold parse_line. rewrite match_field_key_line by done.
    by rewrite (store_current_open s cv).
  - intros Hno. apply parse_line_continuation; [done|].
    destruct (match_field line) as [[key v]|] eqn:Hm; [|done].
    exfalso. apply match_field_fullmatch in Hm.
    destruct Hm as [key dots cr Hne Hk Hdots Hcr].
    specialize (Hno key (dots ++ cr ++ [LF]) eq_refl).
    rewrite app_assoc, endswith_snoc in Hno.
    enough (true = false) by done. apply Hno, is_key_spec. done.
Qed.

Lemma field_start_rule_witness :
  parse_line {| current_value := Some (s2l "1" ++ [LF]);
                current_key := Some K_id; parameters := ∅ |}
             (s2l "user:x" ++ [LF])
  = Ok {| current_value := Some (s2l "x" ++ [LF]);
          current_key := Some (s2l "user");
          parameters := {[ K_id := s2l "1" ]} |}.
Proof.
  refine (proj1 (field_start_rule
                   (s2l "id:1" ++ [LF] ++ s2l "user:x" ++ [LF])
                   {| current_value := Some (s2l "1" ++ [LF]);
                      current_key := Some K_id; parameters := ∅ |}
                   (s2l "user:x" ++ [LF]) (s2l "1" ++ [LF]) _ eq_refl)
                (s2l "user") (s2l "x" ++ [LF]) eq_refl eq_refl eq_refl).
  vm_compute. apply list_elem_of_further, list_elem_of_here.
Defined.

(** ** Facts about the directory *)

Lemma exists_file_true d f : exists_file d f = true <-> f ∈ listdir d.
Proof. unfold exists_file. apply bool_decide_eq_true. Qed.

Lemma read_file_listed d f : is_Some (read_file d f) <-> f ∈ listdir d.
Proof.
  induction d as [|[n c] d IH]; simpl.
  - split; [by intros [x Hx] | by intros H%elem_of_nil].
  - case_bool_decide as E; subst.
    + split; [intros _; apply list_elem_of_here | eauto].
    + rewrite IH, elem_of_cons. naive_solver.
Qed.

Lemma read_file_write_eq d f c : read_file (write_file d f c) f = Some c.
Proof.
  induction d as [|[n x] d IH]; simpl.
  - by rewrite bool_decide_eq_true_2.
  - case_bool_decide as E; simpl.
    + by rewrite bool_decide_eq_true_2.
    + by rewrite bool_decide_eq_false_2.
Qed.

Lemma read_file_write_ne d f g c :
  f <> g -> read_file (write_file d f c) g = read_file d g.
Proof.
  intros Hne. induction d as [|[n x] d IH]; simpl.
  - by rewrite bool_decide_eq_false_2.
  - case_bool_decide as E; simpl.
    + subst. by rewrite !bool_decide_eq_false_2.
    + by rewrite IH.
Qed.

Lemma listdir_write_file d f c g :
  g ∈ listdir (write_file d f c) <-> g = f \/ g ∈ listdir d.
Proof.
  induction d as [|[n x] d IH]; simpl.
  - rewrite list_elem_of_singleton. split; [auto|].
    intros [?|H%elem_of_nil]; done.
  - case_bool_decide as E; simpl; rewrite !elem_of_cons.
    + subst. naive_solver.
    + rewrite IH. naive_solver.
Qed.

Lemma read_file_append_eq d f t :
  read_file (append_file d f t) f = (fun c => c ++ t) <$> read_file d f.
Proof.
  induction d as [|[n x] d IH]; simpl; [done|].
  case_bool_decide as E; simpl.
  - by rewrite bool_decide_eq_true_2.
  - by rewrite bool_decide_eq_false_2.
Qed.

Lemma read_file_append_ne d f g t :
  f <> g -> read_file (append_file d f t) g = read_file d g.
Proof.
  intros Hne. induction d as [|[n x] d IH]; simpl; [done|].
  case_bool_decide as E; simpl.
  - subst. by rewrite !bool_decide_eq_false_2.
  - by rewrite IH.
Qed.

Lemma listdir_append_file d f t : listdir (append_file d f t) = listdir d.
Proof.
  induction d as [|[n x] d IH]; simpl; [done|].
  case_bool_decide; simpl; [done | by rewrite IH].
Qed.

Lemma listdir_remove_file d f g :
  g ∈ listdir (remove_file d f) <-> g ∈ listdir d /\ g <> f.
Proof.
  unfold listdir, remove_file. rewrite !list_elem_of_fmap. split.
  - intros ([n c] & -> & [H1 H2]%list_elem_of_filter). split; [|done].
    by exists (n, c).
  - intros [([n c] & -> & Hin) Hne]. exists (n, c). split; [done|].
    by apply list_elem_of_filter.
Qed.

(** ** Facts about the index *)

Lemma dict_get_elem k g m : dict_get k m = Some g -> (k, g) ∈ m.
Proof.
  induction m as [|[k' v] m IH]; simpl; [done|].
  case_bool_decide as E.
  - intros [= ->]. subst. apply list_elem_of_here.
  - intros H. apply list_elem_of_further. auto.
Qed.

Lemma dict_get_None k m : dict_get k m = None <-> k ∉ map fst m.
Proof.
  induction m as [|[k' v] m IH]; simpl.
  - split; [intros _ H%elem_of_nil; done | done].
  - case_bool_decide as E; rewrite not_elem_of_cons.
    + subst. naive_solver.
    + rewrite IH. naive_solver.
Qed.

Lemma dict_get_unique k g g' m :
  NoDup (map fst m) -> dict_get k m = Some g -> (k, g') ∈ m -> g' = g.
Proof.
  induction m as [|[k' v] m IH]; simpl; [by intros _ _ H%elem_of_nil|].
  intros [Hk Hnd]%NoDup_cons. case_bool_decide as E.
  - intros [= ->]. subst. intros [[= ->]|Hin]%elem_of_cons; [done|].
    exfalso. apply Hk. apply list_elem_of_fmap. by exists (k, g').
  - intros Hg [[= -> ->]|Hin]%elem_of_cons; [done | auto].
Qed.

Lemma dict_get_set_eq k v m : dict_get k (dict_set k v m) = Some v.
Proof.
  induction m as [|[k' v'] m IH]; simpl.
  - by rewrite bool_decide_eq_true_2.
  - case_bool_decide as E; simpl.
    + by rewrite bool_decide_eq_true_2.
    + by rewrite bool_decide_eq_false_2.
Qed.

Lemma dict_set_elem k v m k' v' :
  (k', v') ∈ dict_set k v m -> (k', v') ∈ m \/ (k' = k /\ v' = v).
Proof.
  induction m as [|[k0 v0] m IH]; simpl.
  - intros [= -> ->]%list_elem_of_singleton. by right.
  - case_bool_decide as E; rewrite !elem_of_cons.
    + subst. naive_solver.
    + naive_solver.
Qed.

Lemma dict_set_keys k v m :
  NoDup (map fst m) -> NoDup (map fst (dict_set k v m)).
Proof.
  induction m as [|[k0 v0] m IH]; simpl.
  - intros _. apply NoDup_singleton.
  - intros [Hk Hnd]%NoDup_cons. case_bool_decide as E; simpl.
    + by apply NoDup_cons.
    + apply NoDup_cons. split; [|auto].
      intros ([k1 v1] & Hk1 & Hin)%list_elem_of_fmap. simpl in Hk1. subst k1.
      apply dict_set_elem in Hin as [Hin|[-> _]]; [|done].
      apply Hk. apply list_elem_of_fmap. by exists (k0, v1).
Qed.

Lemma pruned_filter d m :
  pruned d m = filter (fun kv => kv.1 ∉ obsolete_ids d m) m.
Proof.
  unfold pruned. generalize (obsolete_ids d m) as ks. intros ks.
  revert m. induction ks as [|k ks IH]; intros m; cbn [foldl].
  - induction m as [|kv m IHm]; [done|].
    rewrite filter_cons_True; [by f_equal | apply not_elem_of_nil].
  - rewrite IH. unfold dict_del. rewrite list_filter_filter.
    apply list_filter_iff. intros kv. rewrite not_elem_of_cons. naive_solver.
Qed.

Lemma obsolete_ids_elem d m k :
  k ∈ obsolete_ids d m <-> exists g, (k, g) ∈ m /\ exists_file d g = false.
Proof.
  unfold obsolete_ids. rewrite list_elem_of_fmap. split.
  - intros ([k' g] & -> & [H1 H2]%list_elem_of_filter). by exists g.
  - intros (g & Hin & Hg). exists (k, g). split; [done|].
    by apply list_elem_of_filter.
Qed.

Lemma pruned_elem d m k g :
  (k, g) ∈ pruned d m ->
  (k, g) ∈ m /\ exists_file d g = true /\ k ∉ obsolete_ids d m.
Proof.
  rewrite pruned_filter. intros [Hk Hin]%list_elem_of_filter. simpl in Hk.
  repeat split; [done| |done].
  destruct (exists_file d g) eqn:E; [done|].
  exfalso. apply Hk, obsolete_ids_elem. eauto.
Qed.

Lemma dict_get_filter_key (P : str * str -> Prop) `{!forall kv, Decision (P kv)}
    k m :
  (forall g, P (k, g)) -> dict_get k (filter P m) = dict_get k m.
Proof.
  intros HP. induction m as [|[k' v] m IH]; [done|].
  destruct (decide (P (k', v))) as [Hp|Hp].
  - rewrite filter_cons_True by done. simpl. by rewrite IH.
  - rewrite filter_cons_False by done. simpl.
    case_bool_decide as E; [subst; by destruct Hp|done].
Qed.

Lemma dict_get_pruned_keep d m k g :
  NoDup (map fst m) -> dict_get k m = Some g -> exists_file d g = true ->
  dict_get k (pruned d m) = Some g.
Proof.
  intros Hnd Hg He. rewrite pruned_filter.
  rewrite dict_get_filter_key; [done|].
  intros g0 (g' & Hin & Hg')%obsolete_ids_elem. simpl in Hin.
  pose proof (dict_get_unique k g g' m Hnd Hg Hin) as ->. congruence.
Qed.

Lemma dict_get_pruned_drop d m k :
  k ∈ obsolete_ids d m -> dict_get k (pruned d m) = None.
Proof.
  intros Hk. apply dict_get_None. rewrite pruned_filter.
  intros ([k' g] & Hk' & [H _]%list_elem_of_filter)%list_elem_of_fmap.
  simpl in *. by subst.
Qed.

(** ** Facts about the synchronisation *)

Lemma prune_spec d s :
  prune d s = Returned tt (with_cache s (pruned d (_ids_to_file_map s))).
Proof. reflexivity. Qed.

Lemma discover_visited d files s :
  forallb (fun file => negb (is_log_name file)
                       || bool_decide (file ∈ _visited_files s)) files = true ->
  discover d files s = Returned tt s.
Proof.
  induction files as [|file files IH]; [done|].
  cbn [forallb discover]. intros [Hf Hr]%andb_true_iff.
  destruct (is_log_name file); cbn [negb orb] in *; [|auto].
  unfold bind at 1. cbn [get_state]. rewrite Hf. auto.
Qed.

(** With every [.log] file already looked at, a synchronisation prunes and
    does nothing else. *)
Lemma sync_synced d s :
  synced s d = true ->
  _renew_files_cache d s
  = Returned tt (with_cache s (pruned d (_ids_to_file_map s))).
Proof.
  intros Hs. unfold _renew_files_cache, bind. rewrite prune_spec.
  by apply discover_visited.
Qed.

(** ** Facts about transcripts *)

Lemma marker_lacks c :
  bool_decide (c ∈ OUTPUT_STARTED_MARKER) = false -> c ∉ OUTPUT_STARTED_MARKER.
Proof. by intros H%bool_decide_eq_false. Qed.

Lemma marker_not_infix_short t :
  length t < length OUTPUT_STARTED_MARKER -> ~ infix OUTPUT_STARTED_MARKER t.
Proof.
  intros Hlen (a & b & ->). rewrite !length_app in Hlen. lia.
Qed.

Lemma marker_not_in_key k :
  is_key k = true -> ~ infix OUTPUT_STARTED_MARKER k.
Proof.
  intros [_ Hk]%is_key_spec Hin.
  assert (Hc : ">" ∈ k).
  { apply (infix_elem _ _ _ Hin). apply list_elem_of_here. }
  rewrite Forall_forall in Hk. by apply Hk in Hc.
Qed.

Lemma encode_fields_ends p fields :
  encode_fields p fields = [] \/ exists r, encode_fields p fields = r ++ [LF].
Proof.
  induction fields as [|[k v] fields IH]; [by left|]. right.
  unfold encode_fields in *. cbn [flat_map fst snd].
  destruct IH as [-> | [r ->]].
  - rewrite app_nil_r. unfold encode_field.
    destruct p; cbn [linesep].
    + exists (k ++ ":" :: v). by rewrite <- app_assoc.
    + exists (k ++ ":" :: v ++ [CR]). rewrite <- !app_assoc. cbn [app].
      by rewrite <- !app_assoc.
  - exists (encode_field p k v ++ r). by rewrite <- app_assoc.
Qed.

(** The marker text occurs in a header only inside a value. *)
Lemma marker_not_in_fields p fields :
  fields_ok fields ->
  Forall (fun kv => marker_free kv.2 = true) fields ->
  ~ infix OUTPUT_STARTED_MARKER (encode_fields p fields).
Proof.
  induction 1 as [|[k v] fields [Hk Hv] _ IH]; intros Hm.
  - apply marker_not_infix_short. simpl. lia.
  - apply Forall_cons in Hm as [Hmv Hm]. cbn [fst snd] in *.
    apply negb_true_iff, not_contains_infix in Hmv.
    unfold encode_fields in *. cbn [flat_map fst snd]. unfold encode_field at 1.
    rewrite <- !app_assoc. cbn [app]. rewrite <- !app_assoc.
    intros [H|H]%infix_sep; [by apply (marker_not_in_key k)| |by apply marker_lacks].
    destruct p; cbn [linesep app] in H.
    + apply infix_sep in H as [H|H]; [done|by apply IH|by apply marker_lacks].
    + apply infix_sep in H as [H|H]; [done| |by apply marker_lacks].
      apply (infix_sep _ []) in H as [H|H]; [|by apply IH|by apply marker_lacks].
      revert H. apply marker_not_infix_short. simpl. lia.
Qed.

(** The reader stops at the marker line and hands back what came before. *)
Lemma read_lines_until_marker h : forall pre acc b,
  LF ∉ pre ->
  (pre ++ h = [] \/ exists r, pre ++ h = r ++ [LF]) ->
  ~ infix OUTPUT_STARTED_MARKER (pre ++ h) ->
  read_lines (lines_lf (pre ++ h ++ OUTPUT_STARTED_MARKER ++ LF :: b)) acc
  = (true, acc ++ pre ++ h).
Proof.
  induction h as [|c h IH]; intros pre acc b Hpre Hend Hno.
  - rewrite app_nil_r in *. assert (pre = []) as ->.
    { destruct Hend as [?|[r ->]]; [done|]. exfalso. apply Hpre. set_solver. }
    cbn [app]. rewrite lines_lf_line by by apply marker_lacks.
    cbn [read_lines]. rewrite _rstrip_once_snoc.
    rewrite bool_decide_eq_true_2 by done. by rewrite app_nil_r.
  - destruct (decide (c = LF)) as [->|Hc].
    + cbn [app]. rewrite lines_lf_line by done. cbn [read_lines].
      rewrite _rstrip_once_snoc. rewrite bool_decide_eq_false_2.
      * pose proof (IH [] (acc ++ pre ++ [LF]) b) as Hrec. cbn [app] in Hrec.
        rewrite Hrec.
        -- by rewrite <- !app_assoc.
        -- apply not_elem_of_nil.
        -- destruct Hend as [Hend|[r Hr]]; [by destruct pre|].
           destruct (decide (h = [])) as [->|Hne]; [by left|]. right.
           destruct (exists_last Hne) as (h' & x & ->). exists h'.
           replace (pre ++ LF :: h' ++ [x]) with ((pre ++ LF :: h') ++ [x])
             in Hr by (by rewrite <- app_assoc).
           by apply app_inj_tail in Hr as [_ ->].
        -- intros H. apply Hno. by apply infix_app_r, (infix_app_r _ [LF]).
      * intros ->. apply Hno. exists [], (LF :: h). by rewrite app_nil_l.
    + replace (pre ++ (c :: h) ++ OUTPUT_STARTED_MARKER ++ LF :: b)
        with ((pre ++ [c]) ++ h ++ OUTPUT_STARTED_MARKER ++ LF :: b)
        by (by rewrite <- app_assoc).
      rewrite IH.
      * by rewrite <- !app_assoc.
      * rewrite elem_of_app, list_elem_of_singleton. naive_solver.
      * by rewrite <- app_assoc.
      * by rewrite <- app_assoc.
Qed.

(** Reading the header of a transcript. *)
Lemma read_parameters_transcript p fields body :
  fields_ok fields ->
  Forall (fun kv => marker_free kv.2 = true) fields ->
  read_parameters_text (transcript p fields body)
  = (true, encode_fields Posix fields).
Proof.
  intros Hok Hm. unfold read_parameters_text, file_lines, transcript.
  rewrite universal_newlines_fields by done.
  rewrite universal_newlines_no_cr by by apply marker_lacks.
  rewrite universal_newlines_linesep.
  pose proof (read_lines_until_marker (encode_fields Posix fields) [] []
                (universal_newlines body)) as Hr.
  cbn [app] in Hr. apply Hr.
  - apply not_elem_of_nil.
  - apply encode_fields_ends.
  - by apply marker_not_in_fields.
Qed.





(** The patch finds the end of the header. *)
Lemma split_marker_line_transcript p fields body :
  fields_ok fields ->
  Forall (fun kv => marker_free kv.2 = true) fields ->
  split_once (OUTPUT_STARTED_MARKER ++ linesep p) (transcript p fields body)
  = Some (encode_fields p fields, body).
Proof.
  intros Hok Hm. unfold transcript. rewrite (app_assoc OUTPUT_STARTED_MARKER).
  apply split_once_first. apply not_contains_infix.
  assert (Hsep : exists ls,
             OUTPUT_STARTED_MARKER ++ linesep p
             = (OUTPUT_STARTED_MARKER ++ ls) ++ [LF]
             /\ drop_last (OUTPUT_STARTED_MARKER ++ linesep p)
                = OUTPUT_STARTED_MARKER ++ ls
             /\ LF ∉ OUTPUT_STARTED_MARKER ++ ls).
  { destruct p; [exists [] | exists [CR]]; repeat split; compute_done. }
  destruct Hsep as (ls & E1 & E2 & Hlf). rewrite E2, E1.
  intros H%infix_last; [|done].
  apply (marker_not_in_fields p fields Hok Hm).
  rewrite <- app_assoc in H. by apply infix_prefix in H.
Qed.

(** ** Facts about integers in text *)

Lemma uint_digits_digits u : Forall (fun c => is_digit c = true) (uint_digits u).
Proof. induction u; simpl; by constructor. Qed.

Lemma int_digits_uint u b :
  u <> Nil \/ b = true -> int_digits b (uint_digits u) = Some u.
Proof.
  revert b. induction u; intros b Hb; cbn [uint_digits int_digits];
    [by destruct Hb as [?| ->] | ..];
    (change (ascii_eqb _ "_") with false; cbv iota;
     match goal with
     | |- context [digit_char ?c] =>
         let r := eval vm_compute in (digit_char c) in
         change (digit_char c) with r
     end; cbv iota; rewrite IHu by (by right); done).
Qed.

Lemma lstrip_space_head c t :
  is_int_space c = false -> lstrip_space (c :: t) = c :: t.
Proof. intros H. simpl. by rewrite H. Qed.

Lemma strip_space_plain t :
  Forall (fun c => is_int_space c = false) t -> strip_space t = t.
Proof.
  intros Ht. unfold strip_space.
  assert (Hl : forall x, Forall (fun c => is_int_space c = false) x ->
                         lstrip_space x = x).
  { intros [|c x] Hx; [done|]. apply Forall_cons in Hx as [Hc _].
    by apply lstrip_space_head. }
  rewrite (Hl t Ht), Hl; [apply rev_involutive|].
  by apply Forall_rev.
Qed.

Lemma py_str_of_Z_chars z :
  Forall (fun c => is_digit c = true \/ c = "-") (py_str_of_Z z).
Proof.
  unfold py_str_of_Z. destruct (Z.to_int z) as [u|u].
  - eapply Forall_impl; [apply uint_digits_digits | auto].
  - constructor; [by right|].
    eapply Forall_impl; [apply uint_digits_digits | auto].
Qed.

Lemma digit_or_minus_facts c :
  is_digit c = true \/ c = "-" ->
  is_int_space c = false /\ is_linebreak c = false /\ c <> ">" /\ c <> "_".
Proof.
  intros [H| ->]; [|by vm_compute].
  destruct c as [[] [] [] [] [] [] [] []]; vm_compute in H; try discriminate;
    by vm_compute.
Qed.

(** [int(str(n))] is [n]. *)
Lemma py_int_str z : py_int (py_str_of_Z z) = Some z.
Proof.
  unfold py_int. rewrite strip_space_plain.
  2:{ eapply Forall_impl; [apply py_str_of_Z_chars|].
      intros c Hc. by apply digit_or_minus_facts. }
  pose proof (DecimalZ.of_to z) as Hz. unfold py_str_of_Z.
  assert (Hnil : match Z.to_int z with
                 | Decimal.Pos u | Decimal.Neg u => u <> Nil
                 end).
  { destruct z; simpl; [done|apply Unsigned.to_uint_nonnil..]. }
  destruct (Z.to_int z) as [u|u]; simpl in Hz.
  - destruct u; [done|..];
      cbn [uint_digits];
      (change (ascii_eqb _ "-") with false; change (ascii_eqb _ "+") with false;
       cbv iota;
       match goal with
       | |- context [int_digits false (?c :: uint_digits ?v)] =>
           change (c :: uint_digits v) with (uint_digits (ltac:(
             match type of Hz with Z.of_uint ?w = _ => exact w end)))
       end;
       rewrite int_digits_uint by (by left); simpl; by rewrite Hz).
  - rewrite ascii_eqb_refl. rewrite int_digits_uint by (by left).
    simpl. by rewrite Hz.
Qed.

(** ** Facts about the writer *)

Lemma header_value_plain v :
  Forall (fun c => is_linebreak c = false) v -> header_value v = true.
Proof.
  induction 1 as [|c v Hc _ IH]; [done|]. cbn [header_value].
  destruct (ascii_eqb c LF) eqn:E.
  - apply ascii_eqb_true in E. by subst.
  - by rewrite Hc, IH.
Qed.

Lemma marker_free_lacks v : ">" ∉ v -> marker_free v = true.
Proof.
  intros H. apply negb_true_iff, not_contains_infix. intros Hin.
  apply H, (infix_elem _ _ _ Hin), list_elem_of_here.
Qed.

Lemma loggable_py_str z : loggable (py_str_of_Z z) = true.
Proof.
  pose proof (py_str_of_Z_chars z) as H. apply andb_true_iff. split.
  - apply header_value_plain. eapply Forall_impl; [exact H|].
    intros c Hc. by apply digit_or_minus_facts.
  - apply marker_free_lacks. rewrite Forall_forall in H. intros Hin.
    apply H, digit_or_minus_facts in Hin. naive_solver.
Qed.


(** What [start_logging] leaves behind when the file could be opened. *)
Lemma start_logging_opened p execution_id user_name user_id script_name
    command start_time_millis log_dir log_filename s fs :
  exists d',
    start_logging p true execution_id user_name user_id script_name command
      start_time_millis log_dir log_filename s fs
    = ({| _visited_files := {[log_filename]} ∪ _visited_files s;
          _ids_to_file_map := dict_set execution_id log_filename
                                       (_ids_to_file_map s);
          parse_log := parse_log s |},
       set_directory log_dir d' fs,
       {| opened := true; log_file_path := log_filename;
          log_file := Some log_filename; closed := false |})
    /\ read_file d' log_filename
       = Some (transcript p
                 (header_fields execution_id user_name user_id script_name
                    (py_str_of_Z start_time_millis) command) [])
    /\ (forall g, g <> log_filename ->
                  read_file d' g = read_file (directory log_dir fs) g)
    /\ (forall g, g ∈ listdir d'
                  <-> g = log_filename \/ g ∈ listdir (directory log_dir fs)).
Proof.
  eexists. split; [reflexivity|].
  cbv beta iota delta [__log new_logger opened log_file_path log_file closed
                       negb].
  split; [|split].
  - rewrite !read_file_append_eq, read_file_write_eq. cbn [fmap option_fmap option_map].
    f_equal. unfold transcript, header_fields, encode_fields, encode_field.
    cbn [flat_map fst snd app]. rewrite !app_nil_r.
    repeat (rewrite <- ?app_assoc; cbn [app]). done.
  - intros g Hg. rewrite !read_file_append_ne by done.
    by rewrite read_file_write_ne.
  - intros g. rewrite !listdir_append_file. apply listdir_write_file.
Qed.


(** ** Facts about marker lines *)












(** ** Facts about extraction *)

Lemma extract_transcript d f p fields body :
  read_file d f = Some (transcript p fields body) ->
  fields_ok fields ->
  Forall (fun kv => marker_free kv.2 = true) fields ->
  extract d f = _parameters_to_entry (mapping_of fields).
Proof.
  intros Hf Hok Hm. unfold extract, _read_parameters_text, open_text.
  rewrite Hf. cbn [result_bind]. rewrite read_parameters_transcript by done.
  cbn [negb]. by rewrite decode_fields_posix.
Qed.



Lemma fields_ok_snoc fields k v :
  fields_ok fields -> is_key k = true -> header_value v = true ->
  fields_ok (fields ++ [(k, v)]).
Proof.
  intros Hok Hk Hv. apply Forall_app. split; [done|].
  by constructor.
Qed.

Lemma encode_fields_snoc p fields k v :
  encode_fields p (fields ++ [(k, v)])
  = encode_fields p fields ++ k ++ ":" :: v ++ linesep p.
Proof.
  unfold encode_fields. rewrite flat_map_app. cbn [flat_map fst snd].
  by rewrite app_nil_r.
Qed.

Lemma mapping_of_snoc fields k v :
  mapping_of (fields ++ [(k, v)]) = <[k := v]> (mapping_of fields).
Proof. unfold mapping_of. by rewrite foldl_app. Qed.



(** ** Facts about the look-ups *)

Lemma synced_spec s d :
  synced s d = true
  <-> forall g, g ∈ listdir d -> is_log_name g = true -> g ∈ _visited_files s.
Proof.
  unfold synced. rewrite forallb_forall. split.
  - intros H g Hg Hlog. apply list_elem_of_In, H in Hg.
    rewrite Hlog in Hg. by apply bool_decide_eq_true in Hg.
  - intros H g Hg%list_elem_of_In. destruct (is_log_name g) eqn:E; [|done].
    apply bool_decide_eq_true. auto.
Qed.


Lemma find_history_entry_synced d execution_id s file :
  synced s d = true ->
  dict_get execution_id (pruned d (_ids_to_file_map s)) = Some file ->
  find_history_entry d execution_id s
  = let s2 := {| _visited_files := _visited_files s;
                 _ids_to_file_map := pruned d (_ids_to_file_map s);
                 parse_log := file :: parse_log s |} in
    match extract d file with
    | Ok r => Returned r s2
    | Err e => Raised e s2
    end.
Proof.
  intros Hs Hg. unfold find_history_entry, bind. rewrite sync_synced by done.
  cbn [get_state with_cache _ids_to_file_map]. rewrite Hg. reflexivity.
Qed.

Lemma find_log_synced p d execution_id s file content :
  synced s d = true ->
  dict_get execution_id (pruned d (_ids_to_file_map s)) = Some file ->
  read_file d file = Some content ->
  find_log p d execution_id s
  = let s2 := with_cache s (pruned d (_ids_to_file_map s)) in
    match after_marker content with
    | Ok log => Returned (Some (_lstrip_any_linesep p log)) s2
    | Err e => Raised e s2
    end.
Proof.
  intros Hs Hg Hf. unfold find_log, bind. rewrite sync_synced by done.
  cbn [get_state with_cache _ids_to_file_map]. rewrite Hg.
  unfold lift, open_text. rewrite Hf. by destruct (after_marker content).
Qed.

Lemma find_log_absent p d execution_id s :
  synced s d = true ->
  dict_get execution_id (pruned d (_ids_to_file_map s)) = None ->
  find_log p d execution_id s
  = Returned None (with_cache s (pruned d (_ids_to_file_map s))).
Proof.
  intros Hs Hg. unfold find_log, bind. rewrite sync_synced by done.
  cbn [get_state with_cache _ids_to_file_map]. by rewrite Hg.
Qed.

(** The state that [start_logging] leaves is in step with the directory. *)
Lemma started_state execution_id log_filename s d d' :
  dict_ok (_ids_to_file_map s) = true -> synced s d = true ->
  (forall g, g ∈ listdir d' <-> g = log_filename \/ g ∈ listdir d) ->
  let s1 := {| _visited_files := {[log_filename]} ∪ _visited_files s;
               _ids_to_file_map := dict_set execution_id log_filename
                                            (_ids_to_file_map s);
               parse_log := parse_log s |} in
  synced s1 d' = true
  /\ dict_get execution_id (pruned d' (_ids_to_file_map s1))
     = Some log_filename.
Proof.
  intros Hok Hs Hl. cbv zeta. split.
  - apply synced_spec. intros g [->|Hg]%Hl Hlog; cbn; [set_solver|].
    rewrite synced_spec in Hs. set_solver.
  - cbn. apply dict_get_pruned_keep.
    + apply dict_set_keys. by apply bool_decide_eq_true in Hok.
    + apply dict_get_set_eq.
    + apply exists_file_true, Hl. by left.
Qed.

(** ** Visibility after the start, and the patch *)







(** ** The body that [find_log] returns *)




(** ** Files without a marker *)

Lemma read_lines_no_marker lines acc :
  existsb (fun line =>
             bool_decide (_rstrip_once line [LF] = OUTPUT_STARTED_MARKER))
          lines = false ->
  read_lines lines acc = (false, acc ++ concat lines).
Proof.
  revert acc. induction lines as [|l lines IH]; intros acc H; simpl in *.
  - by rewrite app_nil_r.
  - apply orb_false_iff in H as [-> H]. rewrite IH by done.
    by rewrite <- app_assoc.
Qed.

Lemma extract_no_marker d file content :
  read_file d file = Some content -> has_marker_line content = false ->
  extract d file = Ok None.
Proof.
  intros Hf Hm. unfold extract, _read_parameters_text, open_text.
  rewrite Hf. cbn [result_bind]. unfold read_parameters_text.
  by rewrite read_lines_no_marker.
Qed.

(** The collecting loop leaves the index alone, and each entry it returns
    is the entry of one of the files it was given. *)
Lemma collect_entries_sources d files : forall s es s',
  collect_entries d files s = Returned es s' ->
  _ids_to_file_map s' = _ids_to_file_map s
  /\ forall e, e ∈ es -> exists g, g ∈ files /\ extract d g = Ok (Some e).
Proof.
  induction files as [|g files IH]; intros s es s' H.
  - injection H as <- <-. split; [done|]. by intros e He%elem_of_nil.
  - cbn [collect_entries] in H. unfold bind at 1 in H.
    unfold _extract_history_entry, bind, note_parse, lift in H.
    destruct (extract d g) as [r|x] eqn:Eg; [|done].
    unfold bind in H.
    destruct (collect_entries d files _) as [es0 s0|] eqn:Ec; [|done].
    apply IH in Ec as [Hc Hes]. cbn in Hc. injection H as <- <-.
    split; [done|]. intros e He.
    assert (Hcase : (r = Some e) \/ e ∈ es0).
    { destruct r as [e0|]; [|by right].
      apply elem_of_cons in He as [->|He]; [by left | by right]. }
    destruct Hcase as [-> | He0].
    + exists g. split; [apply list_elem_of_here | done].
    + destruct (Hes e He0) as (g' & Hg' & Hx). exists g'.
      split; [by apply list_elem_of_further | done].
Qed.

Lemma get_history_entries_sources d s es s' :
  get_history_entries d s = Returned es s' ->
  exists s1,
    _renew_files_cache d s = Returned tt s1
    /\ _ids_to_file_map s' = _ids_to_file_map s1
    /\ forall e, e ∈ es ->
         exists k g, (k, g) ∈ _ids_to_file_map s1
                     /\ extract d g = Ok (Some e).
Proof.
  unfold get_history_entries, bind. intros H.
  destruct (_renew_files_cache d s) as [[] s1|] eqn:Es; [|done].
  cbn [get_state] in H. apply collect_entries_sources in H as [Hc Hes].
  exists s1. repeat split; [done|]. intros e He.
  destruct (Hes e He) as (g & Hg & Hx).
  apply list_elem_of_fmap in Hg as ([k g'] & -> & Hin). by exists k, g'.
Qed.




(** ** Deleted files *)

(** C5, as the specification states it, fails: when the directory holds a
    [.log] file not yet visited that carries the same identifier, the sync
    that drops the deleted file indexes that one, and [find_log] returns
    its body. *)
Lemma stale_index_recovery_counterexample :
  ~ stale_index_recovery_as_specified Posix
      [(s2l "a.log",
        s2l "id:1" ++ [LF] ++ OUTPUT_STARTED_MARKER ++ [LF] ++ s2l "outA");
       (s2l "b.log",
        s2l "id:1" ++ [LF] ++ OUTPUT_STARTED_MARKER ++ [LF] ++ s2l "outB")]
      {| _visited_files := {[ s2l "a.log" ]};
         _ids_to_file_map := [(s2l "1", s2l "a.log")];
         parse_log := [s2l "a.log"] |}
      (s2l "1") (s2l "a.log").
Proof.
  unfold stale_index_recovery_as_specified. intros H.
  destruct (H eq_refl) as (s' & Hlog & _).
  vm_compute in Hlog. discriminate.
Qed.

Lemma read_file_remove_ne d f g :
  g <> f -> read_file (remove_file d f) g = read_file d g.
Proof.
  intros Hne. unfold remove_file.
  induction d as [|[n c] d IH]; [done|]. cbn [read_file].
  rewrite filter_cons. cbn [fst]. destruct (decide (n <> f)) as [Hn|Hn].
  - cbn [read_file]. by rewrite IH.
  - rewrite IH. apply dec_stable in Hn. subst n.
    by rewrite bool_decide_eq_false_2.
Qed.

Lemma id_only_under_spec k d m k' g e :
  id_only_under k d m = true -> (k', g) ∈ m -> k' <> k ->
  extract d g = Ok (Some e) -> entry_id e <> k.
Proof.
  unfold id_only_under. rewrite forallb_forall.
  intros H Hin%list_elem_of_In Hne Hx. apply H in Hin. cbn [fst snd] in Hin.
  rewrite bool_decide_eq_false_2 in Hin by done. cbn [orb] in Hin.
  apply negb_true_iff in Hin. unfold carries_id_b in Hin. rewrite Hx in Hin.
  by apply bool_decide_eq_false in Hin.
Qed.

(** C5, amended.  For every identifier of the index, every [.log] file of
    the directory visited (the deletion is the only change): once its file
    is deleted, the next synchronisation returns and takes the identifier
    out of the index, [find_log] returns nothing for it, and
    [get_history_entries] takes its entries from files held under other
    identifiers only; none of them has the identifier, when no file held
    under another identifier carries it. *)
Theorem stale_index_recovery (p : platform) (d : disk) (s : service)
    (execution_id file : str) :
  synced s d = true ->
  dict_get execution_id (_ids_to_file_map s) = Some file ->
  let d' := remove_file d file in
  exists s',
    _renew_files_cache d' s = Returned tt s'
    /\ dict_get execution_id (_ids_to_file_map s') = None
    /\ find_log p d' execution_id s = Returned None s'
    /\ forall es s'',
         get_history_entries d' s = Returned es s'' ->
         forall e, e ∈ es ->
           (exists k g, (k, g) ∈ _ids_to_file_map s' /\ k <> execution_id
                        /\ g <> file /\ extract d' g = Ok (Some e))
           /\ (id_only_under execution_id d' (_ids_to_file_map s) = true ->
               entry_id e <> execution_id).
Proof.
  intros Hs Hg d'.
  assert (Hs' : synced s d' = true).
  { rewrite synced_spec in *. intros g [Hin _]%listdir_remove_file. auto. }
  assert (Hgone : exists_file d' file = false).
  { apply bool_decide_eq_false. intros [_ H]%listdir_remove_file. done. }
  assert (Hobs : execution_id ∈ obsolete_ids d' (_ids_to_file_map s)).
  { apply obsolete_ids_elem. exists file. split; [|done].
    by apply dict_get_elem. }
  exists (with_cache s (pruned d' (_ids_to_file_map s))).
  split; [by apply sync_synced|]. split; [by apply dict_get_pruned_drop|].
  split.
  - apply find_log_absent; [done | by apply dict_get_pruned_drop].
  - intros es s'' H e He.
    apply get_history_entries_sources in H as (s1 & Hsync & _ & Hes).
    rewrite sync_synced in Hsync by done. injection Hsync as <-.
    destruct (Hes e He) as (k & g & Hin & Hx).
    cbn in Hin. apply pruned_elem in Hin as Hin'.
    destruct Hin' as (Hm & Hex & Hk).
    assert (Hke : k <> execution_id) by (by intros ->).
    split.
    + exists k, g. split; [done|].
      repeat split; [done| |done]. intros ->. congruence.
    + intros Honly. by apply (id_only_under_spec _ d' _ k g e Honly Hm).
Qed.

Lemma stale_index_recovery_witness :
  let s := {| _visited_files := {[ s2l "a.log" ]};
              _ids_to_file_map := [(s2l "1", s2l "a.log")];
              parse_log := [s2l "a.log"] |} in
  find_log Posix [] (s2l "1") s
  = Returned None {| _visited_files := {[ s2l "a.log" ]};
                     _ids_to_file_map := [];
                     parse_log := [s2l "a.log"] |}.
Proof.
  intros s.
  pose (d := [(s2l "a.log",
               s2l "id:1" ++ [LF] ++ OUTPUT_STARTED_MARKER ++ [LF]
               ++ s2l "out")]).
  assert (Hs : synced s d = true) by (vm_compute; reflexivity).
  destruct (stale_index_recovery Posix d s (s2l "1") (s2l "a.log") Hs eq_refl)
    as (s' & Hsync & _ & Hlog & _).
  vm_compute in Hsync. injection Hsync as <-. exact Hlog.
Defined.

(** ** A second synchronisation *)

(** One turn of the discovery loop. *)
Lemma discover_cons d file files s :
  discover d (file :: files) s
  = if negb (is_log_name file) then discover d files s
    else if bool_decide (file ∈ _visited_files s) then discover d files s
    else
      let seen := {[file]} ∪ _visited_files s in
      match extract d file with
      | Err x => Raised x {| _visited_files := seen;
                             _ids_to_file_map := _ids_to_file_map s;
                             parse_log := file :: parse_log s |}
      | Ok None =>
          discover d files {| _visited_files := seen;
                              _ids_to_file_map := _ids_to_file_map s;
                              parse_log := file :: parse_log s |}
      | Ok (Some e) =>
          discover d files
            {| _visited_files := seen;
               _ids_to_file_map := dict_set (entry_id e) file
                                            (_ids_to_file_map s);
               parse_log := file :: parse_log s |}
      end.
Proof.
  cbn [discover]. destruct (is_log_name file); [|done]. cbn [negb].
  unfold bind at 1. cbn [get_state]. case_bool_decide; [done|].
  unfold bind at 1. cbn [add_visited]. unfold bind at 1.
  unfold _extract_history_entry, bind at 1, note_parse, lift.
  by destruct (extract d file) as [[e|]|x].
Qed.

Lemma discover_post d files : forall s s1,
  discover d files s = Returned tt s1 ->
  _visited_files s ⊆ _visited_files s1
  /\ (forall g, g ∈ files -> is_log_name g = true -> g ∈ _visited_files s1)
  /\ (forall k g, (k, g) ∈ _ids_to_file_map s1 ->
                  (k, g) ∈ _ids_to_file_map s \/ g ∈ files).
Proof.
  induction files as [|file files IH]; intros s s1 H.
  - injection H as <-. split; [done|]. split; [|auto].
    by intros g Hg%elem_of_nil.
  - rewrite discover_cons in H.
    destruct (is_log_name file) eqn:Elog; cbn [negb] in H.
    2:{ apply IH in H as (Hv & Hl & Hc). split; [done|]. split.
        - intros g [->|Hg]%elem_of_cons Hglog; [congruence | auto].
        - intros k g Hin. destruct (Hc k g Hin); [by left|].
          right. by apply list_elem_of_further. }
    case_bool_decide as Ev.
    { apply IH in H as (Hv & Hl & Hc). split; [done|]. split.
      - intros g [->|Hg]%elem_of_cons Hglog; [set_solver | auto].
      - intros k g Hin. destruct (Hc k g Hin); [by left|].
        right. by apply list_elem_of_further. }
    cbv zeta in H. destruct (extract d file) as [[e|]|x]; [| |done];
      apply IH in H as (Hv & Hl & Hc); cbn in Hv, Hc;
      (split; [set_solver|]); split.
    + intros g [->|Hg]%elem_of_cons Hglog; [set_solver | auto].
    + intros k g Hin. destruct (Hc k g Hin) as [Hd|Hd].
      * apply dict_set_elem in Hd as [Hd|[-> ->]]; [by left|].
        right. apply list_elem_of_here.
      * right. by apply list_elem_of_further.
    + intros g [->|Hg]%elem_of_cons Hglog; [set_solver | auto].
    + intros k g Hin. destruct (Hc k g Hin); [by left|].
      right. by apply list_elem_of_further.
Qed.

Lemma pruned_all_exist d m :
  (forall k g, (k, g) ∈ m -> exists_file d g = true) -> pruned d m = m.
Proof.
  intros H. unfold pruned.
  assert (obsolete_ids d m = []) as ->; [|done].
  destruct (obsolete_ids d m) as [|k ks] eqn:E; [done|]. exfalso.
  assert (Hk : k ∈ obsolete_ids d m) by (rewrite E; apply list_elem_of_here).
  apply obsolete_ids_elem in Hk as (g & Hin & Hg).
  rewrite (H k g Hin) in Hg. done.
Qed.


(** Whatever its outcome, the discovery parses only files that were not
    visited. *)
Lemma discover_parses_unvisited d files : forall s,
  let s' := final_state (discover d files s) in
  _visited_files s ⊆ _visited_files s'
  /\ exists new, parse_log s' = new ++ parse_log s
                 /\ forall g, g ∈ new -> g ∉ _visited_files s.
Proof.
  induction files as [|file files IH]; intros s; cbv zeta.
  { split; [done|]. exists []. split; [done|]. by intros g Hg%elem_of_nil. }
  rewrite discover_cons. destruct (is_log_name file); cbn [negb]; [|apply IH].
  case_bool_decide as Ev; [apply IH|]. cbv zeta.
  assert (Hstep : forall m,
            let s1 := {| _visited_files := {[file]} ∪ _visited_files s;
                         _ids_to_file_map := m;
                         parse_log := file :: parse_log s |} in
            forall s', (_visited_files s1 ⊆ _visited_files s'
                        /\ exists new, parse_log s' = new ++ parse_log s1
                             /\ forall g, g ∈ new -> g ∉ _visited_files s1) ->
            _visited_files s ⊆ _visited_files s'
            /\ exists new, parse_log s' = new ++ parse_log s
                           /\ forall g, g ∈ new -> g ∉ _visited_files s).
  { intros m s1 s' (Hv & new & Hp & Hn). split; [set_solver|].
    exists (new ++ [file]). split; [by rewrite Hp, <- app_assoc|].
    intros g [Hg|Hg]%elem_of_app.
    - apply Hn in Hg. set_solver.
    - apply list_elem_of_singleton in Hg. by subst. }
  destruct (extract d file) as [[e|]|x].
  - eapply Hstep, IH.
  - eapply Hstep, IH.
  - apply (Hstep (_ids_to_file_map s)). split; [done|]. exists [].
    split; [done|]. by intros g Hg%elem_of_nil.
Qed.

Lemma sync_parses_unvisited d s :
  let s' := final_state (_renew_files_cache d s) in
  exists new, parse_log s' = new ++ parse_log s
              /\ forall g, g ∈ new -> g ∉ _visited_files s.
Proof.
  unfold _renew_files_cache, bind. rewrite prune_spec.
  apply (discover_parses_unvisited d (listdir d)
           (with_cache s (pruned d (_ids_to_file_map s)))).
Qed.

(** C6, as the specification states it, fails: a first run that raises at
    one file leaves the files listed after it unvisited, and the second run
    indexes them. *)
Lemma sync_idempotent_counterexample :
  ~ sync_idempotent_as_specified
      [(s2l "bad.log",
        s2l "garbage" ++ [LF] ++ OUTPUT_STARTED_MARKER ++ [LF]);
       (s2l "a.log",
        s2l "id:1" ++ [LF] ++ OUTPUT_STARTED_MARKER ++ [LF] ++ s2l "out")]
      new_service.
Proof.
  unfold sync_idempotent_as_specified. intros [_ H].
  vm_compute in H. discriminate.
Qed.

(** C6, amended.  Of two synchronisations on the same directory, the second
    parses no file that was visited, whatever the outcomes; and when the
    first has run through, the second parses no file at all and leaves the
    index, and the whole state of the service, as the first left them. *)
Theorem sync_idempotent (d : disk) (s : service) :
  let s1 := final_state (_renew_files_cache d s) in
  let s2 := final_state (_renew_files_cache d s1) in
  (exists new, parse_log s2 = new ++ parse_log s1
               /\ forall g, g ∈ new -> g ∉ _visited_files s1)
  /\ (_renew_files_cache d s = Returned tt s1 ->
      _renew_files_cache d s1 = Returned tt s1
      /\ parse_log s2 = parse_log s1
      /\ _ids_to_file_map s2 = _ids_to_file_map s1).
Proof.
  cbv zeta. split; [apply sync_parses_unvisited|].
  set (s1 := final_state (_renew_files_cache d s)). intros H.
  assert (Hrun : _renew_files_cache d s1 = Returned tt s1).
  { unfold _renew_files_cache, bind in H. rewrite prune_spec in H.
    apply discover_post in H as (Hv & Hl & Hc). cbn in Hv, Hc.
    assert (Hs1 : synced s1 d = true) by by apply synced_spec.
    assert (Hex : forall k g, (k, g) ∈ _ids_to_file_map s1 ->
                              exists_file d g = true).
    { intros k g [Hin | Hin]%Hc.
      - by apply pruned_elem in Hin as (_ & Hex & _).
      - by apply exists_file_true. }
    rewrite sync_synced by done.
    rewrite pruned_all_exist by done. by destruct s1. }
  by rewrite Hrun.
Qed.

Lemma sync_idempotent_witness :
  let d := [(s2l "plain.log", s2l "id:9" ++ [LF] ++ s2l "no marker here");
            (s2l "a.log",
             s2l "id:1" ++ [LF] ++ OUTPUT_STARTED_MARKER ++ [LF]
             ++ s2l "out")] in
  let s1 := final_state (_renew_files_cache d new_service) in
  _renew_files_cache d s1 = Returned tt s1
  /\ parse_log s1 = [s2l "a.log"; s2l "plain.log"]
  /\ _ids_to_file_map s1 = [(s2l "1", s2l "a.log")].
Proof.
  intros d s1.
  destruct (sync_idempotent d new_service) as [_ Hsame].
  destruct Hsame as (Hrun & _ & _); [vm_compute; reflexivity|].
  split; [exact Hrun|]. split; reflexivity.
Defined.

(** ** The visited files *)

Lemma grows_refl s : grows s s.
Proof.
  split; [done|]. split; [auto|]. exists []. split; [done|].
  by intros g Hg%elem_of_nil.
Qed.

Lemma values_elem (m : dict) g : g ∈ map snd m <-> exists k, (k, g) ∈ m.
Proof.
  rewrite list_elem_of_fmap. split.
  - intros ([k g'] & -> & Hin). by exists k.
  - intros [k Hin]. by exists (k, g).
Qed.

Lemma grows_trans s s' s'' : grows s s' -> grows s' s'' -> grows s s''.
Proof.
  intros (Hv & Hc & new & Hp & Hn) (Hv' & Hc' & new' & Hp' & Hn').
  split; [set_solver|]. split.
  - intros k g Hin. destruct (Hc' k g Hin) as [H|H]; [auto|].
    right. set_solver.
  - exists (new' ++ new). split; [by rewrite Hp', Hp, app_assoc|].
    intros g [Hg|Hg]%elem_of_app; [|auto].
    destruct (Hn' g Hg) as [H|H]; [left; set_solver|].
    apply values_elem in H as [k Hin].
    destruct (Hc k g Hin) as [H|H]; [|by left].
    right. apply values_elem. eauto.
Qed.

Lemma discover_grows d files : forall s,
  grows s (final_state (discover d files s)).
Proof.
  induction files as [|file files IH]; intros s; [apply grows_refl|].
  rewrite discover_cons. destruct (is_log_name file); cbn [negb]; [|apply IH].
  case_bool_decide as Ev; [apply IH|]. cbv zeta.
  assert (Hstep : forall m,
            (forall k g, (k, g) ∈ m ->
                         (k, g) ∈ _ids_to_file_map s \/ g = file) ->
            grows s {| _visited_files := {[file]} ∪ _visited_files s;
                       _ids_to_file_map := m;
                       parse_log := file :: parse_log s |}).
  { intros m Hm. split; [cbn; set_solver|]. split.
    - intros k g Hin. cbn in Hin. destruct (Hm k g Hin) as [H| ->]; auto.
    - exists [file]. split; [done|].
      intros g ->%list_elem_of_singleton. by left. }
  destruct (extract d file) as [[e|]|x].
  - eapply grows_trans; [|apply IH]. apply Hstep.
    intros k g [H|[_ ->]]%dict_set_elem; auto.
  - eapply grows_trans; [|apply IH]. apply Hstep. auto.
  - apply Hstep. auto.
Qed.

Lemma sync_grows d s : grows s (final_state (_renew_files_cache d s)).
Proof.
  unfold _renew_files_cache, bind. rewrite prune_spec.
  eapply grows_trans; [|apply discover_grows]. split; [done|]. split.
  - intros k g Hin. left. cbn in Hin. by apply pruned_elem in Hin as [? _].
  - exists []. split; [done|]. by intros g Hg%elem_of_nil.
Qed.

Lemma final_state_bind {A B} (m : M A) (k : A -> M B) s :
  final_state (bind m k s)
  = match m s with
    | Returned a s' => final_state (k a s')
    | Raised _ s' => s'
    end.
Proof. unfold bind. by destruct (m s). Qed.

Lemma extract_history_entry_state d file s :
  final_state (_extract_history_entry d file s)
  = {| _visited_files := _visited_files s;
       _ids_to_file_map := _ids_to_file_map s;
       parse_log := file :: parse_log s |}.
Proof.
  unfold _extract_history_entry, bind, note_parse, lift.
  by destruct (extract d file).
Qed.

Lemma extract_history_entry_grows d file s :
  file ∈ map snd (_ids_to_file_map s) ->
  grows s (final_state (_extract_history_entry d file s)).
Proof.
  intros Hin. rewrite extract_history_entry_state.
  split; [done|]. split; [auto|]. exists [file]. split; [done|].
  intros g ->%list_elem_of_singleton. by right.
Qed.

Lemma collect_entries_grows d files : forall s,
  files ⊆ map snd (_ids_to_file_map s) ->
  grows s (final_state (collect_entries d files s)).
Proof.
  induction files as [|file files IH]; intros s Hsub; [apply grows_refl|].
  cbn [collect_entries]. rewrite final_state_bind.
  pose proof (extract_history_entry_state d file s) as Hst.
  pose proof (extract_history_entry_grows d file s) as Hg.
  destruct (_extract_history_entry d file s) as [r s1|x s1];
    cbn [final_state] in Hst, Hg; [|apply Hg; set_solver].
  eapply grows_trans; [apply Hg; set_solver|].
  rewrite final_state_bind.
  pose proof (IH s1) as Hrec.
  destruct (collect_entries d files s1) as [es s2|x s2]; cbn [final_state] in *;
    apply Hrec; subst s1; cbn; set_solver.
Qed.

Lemma get_history_entries_grows d s :
  grows s (final_state (get_history_entries d s)).
Proof.
  unfold get_history_entries. rewrite final_state_bind.
  pose proof (sync_grows d s) as Hg.
  destruct (_renew_files_cache d s) as [[] s1|x s1]; cbn [final_state] in Hg;
    [|done].
  eapply grows_trans; [exact Hg|]. rewrite final_state_bind. cbn [get_state].
  by apply collect_entries_grows.
Qed.

Lemma find_history_entry_grows d execution_id s :
  grows s (final_state (find_history_entry d execution_id s)).
Proof.
  unfold find_history_entry. rewrite final_state_bind.
  pose proof (sync_grows d s) as Hg.
  destruct (_renew_files_cache d s) as [[] s1|x s1]; cbn [final_state] in Hg;
    [|done].
  eapply grows_trans; [exact Hg|]. rewrite final_state_bind. cbn [get_state].
  destruct (dict_get execution_id (_ids_to_file_map s1)) as [file|] eqn:E;
    [|apply grows_refl].
  apply extract_history_entry_grows, values_elem.
  exists execution_id. by apply dict_get_elem.
Qed.

Lemma find_log_grows p d execution_id s :
  grows s (final_state (find_log p d execution_id s)).
Proof.
  unfold find_log. rewrite final_state_bind.
  pose proof (sync_grows d s) as Hg.
  destruct (_renew_files_cache d s) as [[] s1|x s1]; cbn [final_state] in Hg;
    [|done].
  eapply grows_trans; [exact Hg|]. rewrite final_state_bind. cbn [get_state].
  destruct (dict_get execution_id (_ids_to_file_map s1)) as [file|];
    [|apply grows_refl].
  unfold bind, lift.
  destruct (open_text d file); [|apply grows_refl].
  destruct (after_marker _); apply grows_refl.
Qed.

Lemma start_logging_state p can_open execution_id user_name user_id
    script_name command start_time_millis log_dir log_filename s fs :
  (start_logging p can_open execution_id user_name user_id script_name
     command start_time_millis log_dir log_filename s fs).1.1
  = {| _visited_files := {[log_filename]} ∪ _visited_files s;
       _ids_to_file_map := dict_set execution_id log_filename
                                    (_ids_to_file_map s);
       parse_log := parse_log s |}.
Proof. by destruct can_open. Qed.

(** A file that is visited and out of the index stays so, and is not
    parsed, as long as no transcript is started under its name. *)
Lemma step_quiet file a s fs :
  starts_file file a = false ->
  file ∈ _visited_files s -> file ∉ map snd (_ids_to_file_map s) ->
  let s' := (step a (s, fs)).1 in
  file ∈ _visited_files s' /\ (file ∉ map snd (_ids_to_file_map s'))
  /\ exists new, parse_log s' = new ++ parse_log s /\ file ∉ new.
Proof.
  intros Ha Hv Hc.
  assert (Hgrow : forall s', grows s s' ->
            file ∈ _visited_files s'
            /\ (file ∉ map snd (_ids_to_file_map s'))
            /\ exists new, parse_log s' = new ++ parse_log s /\ file ∉ new).
  { intros s' (Hv' & Hc' & new & Hp & Hn). split; [set_solver|]. split.
    - intros [k Hin]%values_elem. destruct (Hc' k file Hin) as [H|H]; [|done].
      apply Hc, values_elem. eauto.
    - exists new. split; [done|]. intros Hin.
      by destruct (Hn file Hin). }
  destruct a as [fs0 | p can_open x un uid sc cmd t log_dir log_filename
                 | | x | p x];
    cbn [step fst].
  - apply Hgrow, grows_refl.
  - pose proof (start_logging_state p can_open x un uid sc cmd t log_dir
                  log_filename s fs) as E.
    destruct (start_logging _ _ _ _ _ _ _ _ _ _ _ _) as [[s1 fs1] w].
    cbn in E. subst s1. cbn. cbn in Ha. apply bool_decide_eq_false in Ha.
    split; [set_solver|]. split.
    + intros [k [H|[_ H]]%dict_set_elem]%values_elem; [|done].
      apply Hc, values_elem. eauto.
    + exists []. split; [done|]. apply not_elem_of_nil.
  - apply Hgrow, get_history_entries_grows.
  - apply Hgrow, find_history_entry_grows.
  - apply Hgrow, find_log_grows.
Qed.

Lemma step_visited a s fs :
  _visited_files s ⊆ _visited_files (step a (s, fs)).1.
Proof.
  destruct a as [fs0 | p can_open x un uid sc cmd t log_dir log_filename
                 | | x | p x];
    cbn [step fst]; [done| | | |].
  - pose proof (start_logging_state p can_open x un uid sc cmd t log_dir
                  log_filename s fs) as E.
    destruct (start_logging _ _ _ _ _ _ _ _ _ _ _ _) as [[s1 fs1] w].
    cbn in E. subst s1. cbn. set_solver.
  - apply get_history_entries_grows.
  - apply find_history_entry_grows.
  - apply find_log_grows.
Qed.

(** C10, as the specification states it, fails: a transcript started under
    the name of a file that was visited puts the name in the index again,
    and the look-up parses the file. *)
Lemma visited_monotone_counterexample :
  ~ visited_monotone_as_specified
      [StartLogging Posix true (s2l "2") (s2l "al") (s2l "u1") (s2l "job")
         (s2l "make") 17 InFolder (s2l "a.log");
       FindHistoryEntry (s2l "2")]
      {| _visited_files := {[ s2l "a.log" ]}; _ids_to_file_map := [];
         parse_log := [s2l "a.log"] |}
      new_files.
Proof.
  unfold visited_monotone_as_specified. intros H.
  destruct (H (s2l "a.log")) as [Hc _].
  - cbn. set_solver.
  - apply not_elem_of_nil.
  - apply Hc. vm_compute. apply list_elem_of_here.
Qed.

(** C10, amended.  No call of the façade takes a file name out of the
    visited files, whatever happens to the files in between.  So a file
    that was visited and is out of the index, deleted and made anew or not,
    is never parsed again and never enters the index again, as long as no
    transcript is started under its name. *)
Theorem visited_monotone (actions : list action) (s : service) (fs : files) :
  let s' := (run actions (s, fs)).1 in
  _visited_files s ⊆ _visited_files s'
  /\ forall file,
       file ∈ _visited_files s ->
       file ∉ map snd (_ids_to_file_map s) ->
       forallb (fun a => negb (starts_file file a)) actions = true ->
       (file ∉ map snd (_ids_to_file_map s'))
       /\ exists new, parse_log s' = new ++ parse_log s /\ file ∉ new.
Proof.
  revert s fs. induction actions as [|a actions IH]; intros s fs; cbv zeta.
  - cbn. split; [done|]. intros file _ Hc _. split; [done|].
    exists []. split; [done | apply not_elem_of_nil].
  - change (run (a :: actions) (s, fs)) with (run actions (step a (s, fs))).
    destruct (step a (s, fs)) as [s1 fs1] eqn:Es.
    destruct (IH s1 fs1) as [Hv Hq]. split.
    + pose proof (step_visited a s fs) as H. rewrite Es in H. cbn [fst] in H.
      set_solver.
    + intros file Hfv Hfc [Ha Hr]%andb_true_iff. apply negb_true_iff in Ha.
      pose proof (step_quiet file a s fs Ha Hfv Hfc) as H. rewrite Es in H.
      cbn [fst] in H. destruct H as (Hv1 & Hc1 & new1 & Hp1 & Hn1).
      destruct (Hq file Hv1 Hc1 Hr) as (Hc2 & new2 & Hp2 & Hn2).
      split; [done|]. exists (new2 ++ new1).
      split; [by rewrite Hp2, Hp1, app_assoc|]. set_solver.
Qed.

Lemma visited_monotone_witness :
  let file := s2l "a.log" in
  let s := {| _visited_files := {[ file ]}; _ids_to_file_map := [];
              parse_log := [file] |} in
  let recreated :=
    {| folder := [(file,
                   s2l "id:2" ++ [LF] ++ OUTPUT_STARTED_MARKER ++ [LF])];
       others := fun _ => [] |} in
  let s' := (run [Environment recreated; GetHistoryEntries;
                  FindHistoryEntry (s2l "2"); FindLog Posix (s2l "2")]
                 (s, new_files)).1 in
  file ∈ _visited_files s'
  /\ (file ∉ map snd (_ids_to_file_map s'))
  /\ exists new, parse_log s' = new ++ parse_log s /\ file ∉ new.
Proof.
  intros file s recreated s'.
  destruct (visited_monotone
              [Environment recreated; GetHistoryEntries;
               FindHistoryEntry (s2l "2"); FindLog Posix (s2l "2")] s
              new_files)
    as [Hv Hq].
  split.
  - apply Hv. cbn. set_solver.
  - apply Hq; [cbn; set_solver | apply not_elem_of_nil | reflexivity].
Defined.

(** ** The scenario of the specification *)

Example concrete_scenario :
  let '(s, fs, w) :=
    start_logging Posix true (s2l "7") (s2l "alice") (s2l "alice")
      (s2l "build.sh") (s2l "./build.sh --release") 1700000000000 InFolder
      (s2l "build.sh_alice_231114_221320.log") new_service new_files in
  let d := feed w [Some (s2l "line1" ++ [LF]); Some (s2l "line2" ++ [LF])]
                (folder fs) in
  match (on_close Posix w (fun _ => Some 0%Z) (s2l "7") d).2 with
  | Ok d =>
      (exists s', find_log Posix d (s2l "7") s
                  = Returned (Some (s2l "line1" ++ [LF] ++ s2l "line2" ++ [LF]))
                             s')
      /\ exists e s', find_history_entry d (s2l "7") s = Returned (Some e) s'
                      /\ script_name e = Some (s2l "build.sh")
                      /\ exit_code e = Some 0%Z
  | Err _ => False
  end.
Proof.
  vm_compute. split; [eexists; reflexivity|].
  eexists _, _. split; [reflexivity|]. by split.
Qed.

(** A script name with a directory part: [create_filename] keeps the
    [/], the transcript is written in another directory, and the index
    holds a base name that the log directory does not have.  The next
    look-up drops the identifier. *)
Example started_elsewhere :
  @create_filename sample_utilities (new_LogNameCreator None None) (s2l "7")
    [(s2l "user", s2l "al")] (s2l "/tmp/x") 17
  = s2l "/tmp/x_al_17.log"
  /\ let '(s, fs, w) :=
       start_logging Posix true (s2l "7") (s2l "al") (s2l "u1")
         (s2l "/tmp/x") (s2l "make") 17 (Elsewhere (s2l "/tmp"))
         (s2l "x_al_17.log") new_service new_files in
     dict_get (s2l "7") (_ids_to_file_map s) = Some (s2l "x_al_17.log")
     /\ folder fs = []
     /\ is_Some (read_file (others fs (s2l "/tmp")) (s2l "x_al_17.log"))
     /\ exists s', find_history_entry (folder fs) (s2l "7") s
                   = Returned None s'
                   /\ dict_get (s2l "7") (_ids_to_file_map s') = None.
Proof.
  split; [vm_compute; reflexivity|].
  vm_compute. split; [reflexivity|]. split; [reflexivity|].
  split; [by eexists|]. eexists. split; reflexivity.
Qed.

(** Read in text mode, a marker line that ends with [\r\n] is a marker
    line. *)
Example marker_line_crlf :
  has_marker_line (s2l "id:1" ++ [CR; LF] ++ OUTPUT_STARTED_MARKER
                   ++ [CR; LF] ++ s2l "out") = true.
Proof. reflexivity. Qed.

(** * Further properties of the code *)

(** ** The reader and the decoder *)

Lemma universal_newlines_lacks_cr t : CR ∉ universal_newlines t.
Proof.
  remember (length t) as n eqn:Hn.
  assert (Hle : length t <= n) by lia. clear Hn.
  revert t Hle. induction n as [|n IH]; intros t Hle.
  { destruct t; simpl in *; [apply not_elem_of_nil | lia]. }
  destruct t as [|c t]; [apply not_elem_of_nil|]. simpl in Hle.
  cbn [universal_newlines]. destruct (ascii_eqb c CR) eqn:Ec.
  - apply not_elem_of_cons. split; [done|].
    destruct t as [|d t']; [apply not_elem_of_nil|]. simpl in Hle.
    destruct (ascii_eqb d LF); apply IH; simpl; lia.
  - apply ascii_eqb_false in Ec. apply not_elem_of_cons. split; [done|].
    apply IH. lia.
Qed.

Lemma universal_newlines_fixed t : CR ∉ t -> universal_newlines t = t.
Proof.
  intros H. rewrite <- (app_nil_r t) at 1.
  by rewrite universal_newlines_no_cr, app_nil_r.
Qed.

Lemma lines_lf_cons_inv t l ls :
  lines_lf t = l :: ls ->
  exists t', t = l ++ t' /\ lines_lf t' = ls
             /\ (ls <> [] -> exists l0, l = l0 ++ [LF] /\ LF ∉ l0).
Proof.
  revert l ls. induction t as [|c t IH]; intros l ls; [done|].
  cbn [lines_lf]. destruct (ascii_eqb c LF) eqn:Ec.
  - apply ascii_eqb_true in Ec. subst c. intros [= <- <-].
    exists t. repeat split. intros _. exists []. split; [done|].
    apply not_elem_of_nil.
  - apply ascii_eqb_false in Ec.
    destruct (lines_lf t) as [|l' ls'] eqn:El.
    + intros [= <- <-]. exists []. destruct t as [|d t]; [|exfalso].
      * by repeat split.
      * cbn [lines_lf] in El. destruct (ascii_eqb d LF); [done|].
        by destruct (lines_lf t).
    + intros [= <- <-]. destruct (IH l' ls' eq_refl) as (t' & -> & Ht' & Hl).
      exists t'. repeat split; [done|]. intros Hne.
      destruct (Hl Hne) as (l0 & -> & Hl0). exists (c :: l0).
      split; [done|]. apply not_elem_of_cons. by split.
Qed.

Lemma lines_lf_before t before line after :
  lines_lf t = before ++ line :: after ->
  exists t', t = concat before ++ t' /\ lines_lf t' = line :: after
             /\ lines_lf (concat before) = before
             /\ (concat before = [] \/ exists r, concat before = r ++ [LF]).
Proof.
  revert t. induction before as [|l before IH]; intros t Ht.
  - exists t. repeat split; [done|]. by left.
  - cbn [app] in Ht. apply lines_lf_cons_inv in Ht as (t1 & -> & Ht1 & Hl).
    destruct Hl as (l0 & -> & Hl0); [by destruct before|].
    destruct (IH t1 Ht1) as (t' & -> & Ht' & Hb & Hend).
    exists t'. cbn [concat]. rewrite <- !app_assoc. repeat split; [done| |].
    + cbn [app]. rewrite lines_lf_line by done. by rewrite Hb.
    + right. destruct Hend as [-> | [r ->]].
      * exists l0. by rewrite app_nil_r.
      * exists (l0 ++ [LF] ++ r). by rewrite <- !app_assoc.
Qed.

Lemma read_lines_outcome lines : forall acc,
  let is_marker := fun line =>
    bool_decide (_rstrip_once line [LF] = OUTPUT_STARTED_MARKER) in
  match read_lines lines acc with
  | (true, text) =>
      exists before line after,
        lines = before ++ line :: after
        /\ _rstrip_once line [LF] = OUTPUT_STARTED_MARKER
        /\ existsb is_marker before = false
        /\ text = acc ++ concat before
  | (false, text) =>
      text = acc ++ concat lines /\ existsb is_marker lines = false
  end.
Proof.
  induction lines as [|l lines IH]; intros acc; cbv zeta; cbn [read_lines].
  - split; [by rewrite app_nil_r | done].
  - case_bool_decide as El.
    + exists [], l, lines. repeat split; [done|]. by rewrite app_nil_r.
    + specialize (IH (acc ++ l)). cbv zeta in IH.
      destruct (read_lines lines (acc ++ l)) as [[] text].
      * destruct IH as (before & line & after & -> & Hm & Hb & ->).
        exists (l :: before), line, after. repeat split; [done| |].
        -- cbn [existsb]. by rewrite bool_decide_eq_false_2.
        -- cbn [concat]. by rewrite <- app_assoc.
      * destruct IH as [-> He]. split.
        -- cbn [concat]. by rewrite <- app_assoc.
        -- cbn [existsb]. by rewrite bool_decide_eq_false_2.
Qed.

Lemma marker_line_cases line :
  _rstrip_once line [LF] = OUTPUT_STARTED_MARKER ->
  line = OUTPUT_STARTED_MARKER \/ line = OUTPUT_STARTED_MARKER ++ [LF].
Proof.
  unfold _rstrip_once. destruct (endswith line [LF]) eqn:E; [|by left].
  apply endswith_spec in E as [r ->]. rewrite drop_last_snoc.
  intros ->. by right.
Qed.

(** X1.  What the reader makes of a file.  When it reports the file well
    formed, the text as read is the header it returns, then the marker, then
    a rest that is empty or begins with a newline; the header is empty or
    ends with a newline, and has no marker line of its own.  When it does
    not, it returns the whole text as read, and no line of it is the
    marker. *)
Theorem read_parameters_text_split (content : str) :
  match read_parameters_text content with
  | (true, text) =>
      exists rest,
        universal_newlines content = text ++ OUTPUT_STARTED_MARKER ++ rest
        /\ (rest = [] \/ exists r, rest = LF :: r)
        /\ (text = [] \/ exists t, text = t ++ [LF])
        /\ read_parameters_text text = (false, text)
  | (false, text) =>
      text = universal_newlines content /\ has_marker_line content = false
  end.
Proof.
  unfold read_parameters_text at 1, file_lines, has_marker_line.
  pose proof (read_lines_outcome (lines_lf (universal_newlines content)) [])
    as H.
  destruct (read_lines _ _) as [[] text].
  - destruct H as (before & line & after & Hl & Hm & Hb & ->). cbn [app].
    destruct (lines_lf_before _ _ _ _ Hl) as (t' & Ht & Ht' & Hcb & Hend).
    apply lines_lf_cons_inv in Ht' as (t2 & -> & Ht2 & Hline).
    assert (Hcr : CR ∉ concat before).
    { intros Hin. apply (universal_newlines_lacks_cr content).
      rewrite Ht. apply elem_of_app. by left. }
    apply marker_line_cases in Hm as [-> | ->].
    + exists t2. repeat split; [done| |done|].
      * destruct after as [|a after]; [|by destruct Hline as (l0 & E & _);
          [done|]; destruct (marker_lacks LF eq_refl); rewrite E;
          apply elem_of_app; right; apply list_elem_of_here].
        left. by destruct t2 as [|c t2];
          [|cbn [lines_lf] in Ht2; destruct (ascii_eqb c LF);
            [|destruct (lines_lf t2)]].
      * unfold read_parameters_text, file_lines.
        rewrite universal_newlines_fixed, Hcb by done.
        by rewrite read_lines_no_marker.
    + exists (LF :: t2). rewrite <- app_assoc in Ht.
      repeat split; [done| |done|].
      * right. eauto.
      * unfold read_parameters_text, file_lines.
        rewrite universal_newlines_fixed, Hcb by done.
        by rewrite read_lines_no_marker.
  - destruct H as [-> He]. cbn [app]. by rewrite lines_lf_concat.
Qed.

Lemma splitlines_concat t : concat (splitlines t) = t.
Proof.
  remember (length t) as n eqn:Hn.
  assert (Hle : length t <= n) by lia. clear Hn.
  revert t Hle. induction n as [|n IH]; intros t Hle.
  { destruct t; simpl in *; [done | lia]. }
  destruct t as [|c t]; [done|]. simpl in Hle. cbn [splitlines].
  destruct (ascii_eqb c CR).
  - destruct t as [|d t']; [done|]. simpl in Hle.
    destruct (ascii_eqb d LF); cbn [concat app]; rewrite IH; simpl; done || lia.
  - destruct (is_linebreak c).
    + cbn [concat app]. rewrite IH; [done | lia].
    + pose proof (IH t ltac:(lia)) as Ht.
      destruct (splitlines t) as [|l ls]; cbn in *; by rewrite <- Ht.
Qed.

Lemma parse_line_open s line :
  field_open s -> exists s', parse_line s line = Ok s' /\ field_open s'.
Proof.
  intros [[k Hk] [v Hv]]. unfold parse_line.
  destruct (match_field line) as [[k' v']|].
  - unfold store_current. rewrite Hk, Hv. cbn. eexists. split; [done|].
    split; eauto.
  - rewrite Hv. eexists. split; [done|]. split; cbn; eauto.
Qed.

Lemma parse_lines_open lines : forall s,
  field_open s -> exists s', parse_lines s lines = Ok s' /\ field_open s'.
Proof.
  induction lines as [|l lines IH]; intros s Hs; [by exists s|].
  cbn [parse_lines]. destruct (parse_line_open s l Hs) as (s1 & -> & Hs1).
  cbn. by apply IH.
Qed.

(** X2.  The decoder fails in one way only.  The text without lines gives
    the empty mapping; a text whose first line is a field line is decoded,
    whatever follows; any other text raises [TypeError]. *)
Theorem parse_history_parameters_outcome (parameters_text : str) :
  match splitlines parameters_text with
  | [] => _parse_history_parameters parameters_text = Ok ∅
  | line :: _ =>
      match match_field line with
      | Some _ => exists parameters,
                    _parse_history_parameters parameters_text = Ok parameters
      | None => _parse_history_parameters parameters_text = Err TypeError
      end
  end.
Proof.
  unfold _parse_history_parameters.
  destruct (splitlines parameters_text) as [|line rest]; [reflexivity|].
  cbn [parse_lines]. unfold parse_line.
  destruct (match_field line) as [[k v]|]; [|reflexivity]. cbn.
  destruct (parse_lines_open rest
              {| current_value := Some v; current_key := Some k;
                 parameters := ∅ |}) as (s' & -> & [[k' Hk] [v' Hv]]).
  { split; cbn; eauto. }
  cbn. unfold store_current. rewrite Hk, Hv. eauto.
Qed.

Lemma match_field_line line k v :
  match_field line = Some (k, v) -> line = k ++ ":" :: v /\ is_key k = true.
Proof.
  intros H%match_field_fullmatch. destruct H as [k dots cr Hne Hk _ _].
  split; [done|]. by apply is_key_spec.
Qed.

Lemma store_current_taken pre s params :
  taken_from pre s -> store_current s = Ok params ->
  forall k v, params !! k = Some v ->
              is_key k = true /\ infix (k ++ ":" :: v) pre.
Proof.
  intros [Hp Hc] Hs k v Hkv. unfold store_current in Hs.
  destruct Hc as [[Hk _] | (k0 & cv & a & Hk & Hv & Hkey & ->)].
  - rewrite Hk in Hs. injection Hs as <-. auto.
  - rewrite Hk, Hv in Hs. injection Hs as <-.
    destruct (decide (k0 = k)) as [->|Hne].
    + rewrite lookup_insert_eq in Hkv. injection Hkv as <-.
      split; [done|]. destruct (_rstrip_once_prefix cv LF) as [tail Ht].
      exists a, tail. rewrite Ht at 1. by rewrite <- !app_assoc.
    + rewrite lookup_insert_ne in Hkv by done.
      destruct (Hp k v Hkv) as [? Hin]. split; [done|].
      exact Hin.
Qed.

Lemma parse_line_taken pre s line s' :
  taken_from pre s -> parse_line s line = Ok s' ->
  taken_from (pre ++ line) s'.
Proof.
  intros Ht Hl. unfold parse_line in Hl.
  destruct (match_field line) as [[k v]|] eqn:Hm.
  - apply match_field_line in Hm as [-> Hk].
    destruct (store_current s) as [params|] eqn:Hs; [|done].
    injection Hl as <-. split; cbn.
    + intros k0 v0 H0.
      destruct (store_current_taken pre s params Ht Hs k0 v0 H0) as [? Hin].
      split; [done | by apply infix_app_l].
    + right. exists k, v, pre. by repeat split.
  - destruct Ht as [Hp Hc].
    destruct Hc as [[_ Hv] | (k0 & cv & a & Hk & Hv & Hkey & ->)];
      rewrite Hv in Hl; [done|]. injection Hl as <-. split; cbn.
    + intros k v H0. destruct (Hp k v H0) as [? Hin].
      split; [done | by apply infix_app_l].
    + right. exists k0, (cv ++ line), a. repeat split; [done..|].
      by rewrite <- !app_assoc.
Qed.

Lemma parse_lines_taken lines : forall pre s s',
  taken_from pre s -> parse_lines s lines = Ok s' ->
  taken_from (pre ++ concat lines) s'.
Proof.
  induction lines as [|l lines IH]; intros pre s s' Ht Hl.
  - injection Hl as <-. cbn. by rewrite app_nil_r.
  - cbn [parse_lines] in Hl.
    destruct (parse_line s l) as [s1|] eqn:H1; [|done]. cbn in Hl.
    cbn [concat]. rewrite app_assoc.
    eapply IH; [|exact Hl]. by eapply parse_line_taken.
Qed.

(** X3.  The decoder invents nothing.  Every key of the mapping it returns
    is a run of word characters, and every value stands in the text as it
    is, right after its key and a colon. *)
Theorem parse_history_parameters_verbatim (parameters_text : str)
    (parameters : gmap str str) (k v : str) :
  _parse_history_parameters parameters_text = Ok parameters ->
  parameters !! k = Some v ->
  is_key k = true /\ infix (k ++ ":" :: v) parameters_text.
Proof.
  unfold _parse_history_parameters. intros H Hkv.
  destruct (parse_lines parse_start (splitlines parameters_text))
    as [s|] eqn:Hl; [|done]. cbn in H.
  assert (Ht : taken_from [] parse_start).
  { split; [|by left]. intros k0 v0 H0. cbn in H0. by rewrite lookup_empty in H0. }
  pose proof (parse_lines_taken _ _ _ _ Ht Hl) as Ht'.
  rewrite splitlines_concat in Ht'. cbn [app] in Ht'.
  by apply (store_current_taken parameters_text s parameters).
Qed.

Lemma parse_history_parameters_verbatim_witness :
  infix (s2l "command:make all" ++ [LF] ++ s2l " --jobs=4")
        (s2l "id:7" ++ [LF] ++ s2l "command:make all" ++ [LF]
         ++ s2l " --jobs=4" ++ [LF]).
Proof.
  refine (proj2 (parse_history_parameters_verbatim
                   (s2l "id:7" ++ [LF] ++ s2l "command:make all" ++ [LF]
                    ++ s2l " --jobs=4" ++ [LF])
                   {[ K_id := s2l "7";
                      K_command := s2l "make all" ++ [LF] ++ s2l " --jobs=4" ]}
                   K_command (s2l "make all" ++ [LF] ++ s2l " --jobs=4")
                   _ _)).
  - vm_compute. reflexivity.
  - vm_compute. reflexivity.
Defined.

Lemma mapping_of_last_value fields : forall (m0 : gmap str str) k,
  foldl (fun m kv => <[kv.1 := kv.2]> m) m0 fields !! k
  = match last_value k fields with
    | Some v => Some v
    | None => m0 !! k
    end.
Proof.
  induction fields as [|[k' v] fields IH]; intros m0 k; [done|].
  cbn [foldl last_value fst snd]. rewrite IH.
  destruct (last_value k fields); [done|].
  case_bool_decide as E.
  - subst. by rewrite lookup_insert_eq.
  - by rewrite lookup_insert_ne.
Qed.

(** X4.  Decoding any header that was encoded, read back in text mode on
    either platform: each key has the value of the last field written
    under it, and no other key is there.  The values are such as
    [header_value] admits. *)
Theorem decode_last_field_wins (p : platform) (fields : list (str * str)) :
  fields_ok fields ->
  exists parameters,
    _parse_history_parameters (universal_newlines (encode_fields p fields))
    = Ok parameters
    /\ forall k, parameters !! k = last_value k fields.
Proof.
  intros Hok. exists (mapping_of fields). split.
  - rewrite <- (app_nil_r (encode_fields p fields)).
    rewrite universal_newlines_fields by done. rewrite app_nil_r.
    by apply decode_fields_posix.
  - intros k. unfold mapping_of. rewrite mapping_of_last_value.
    by destruct (last_value k fields).
Qed.

Lemma decode_last_field_wins_witness :
  exists parameters,
    _parse_history_parameters
      (universal_newlines
         (encode_fields Windows
            [(K_id, s2l "7"); (K_exit_code, s2l "1");
             (K_exit_code, s2l "0")]))
    = Ok parameters
    /\ parameters !! K_exit_code = Some (s2l "0").
Proof.
  destruct (decode_last_field_wins Windows
              [(K_id, s2l "7"); (K_exit_code, s2l "1");
               (K_exit_code, s2l "0")])
    as (parameters & Hp & Hk).
  - repeat (constructor; [by split|]). constructor.
  - exists parameters. split; [exact Hp|]. by rewrite Hk.
Defined.

(** ** The writer *)

Lemma append_file_nil d f : append_file d f [] = d.
Proof.
  induction d as [|[n c] d IH]; [done|]. cbn.
  case_bool_decide; [by rewrite app_nil_r | by rewrite IH].
Qed.

Lemma append_file_app d f a b :
  append_file (append_file d f a) f b = append_file d f (a ++ b).
Proof.
  induction d as [|[n c] d IH]; [done|]. cbn.
  case_bool_decide as E; cbn; rewrite bool_decide_decide;
    destruct (decide (n = f)); try done.
  - by rewrite <- app_assoc.
  - by rewrite IH.
Qed.

(** X5.  What a stream of chunks does to the directory.  A writer whose
    file is open and not yet closed appends the chunks in order, a [None]
    chunk adding nothing, so that the whole stream is one append of the
    chunks joined; a writer that was never opened, whose file could not be
    opened, or that is closed, writes nothing. *)
Theorem feed_effect (w : ScriptOutputLogger) (chunks : list (option str))
    (d : disk) :
  feed w chunks d
  = match log_file w with
    | Some f => if opened w && negb (closed w)
                then append_file d f (chunk_text chunks)
                else d
    | None => d
    end.
Proof.
  unfold feed. revert d.
  induction chunks as [|output chunks IH]; intros d; cbn [foldl].
  - cbn. destruct (log_file w); [|done].
    destruct (opened w && negb (closed w)); [|done].
    by rewrite append_file_nil.
  - rewrite IH. unfold on_next, __log.
    destruct (log_file w) as [f|] eqn:Hf.
    + destruct (opened w), (closed w); cbn; try by destruct output.
      destruct output as [t|]; cbn; [by rewrite append_file_app | done].
    + by destruct (opened w).
Qed.

(** X6.  A transcript whose file cannot be opened.  [start_logging] still
    returns, with the identifier in the index under the file name and the
    name among the visited files, but the files are as they were, the log
    directory and the others, and nothing the output source sends
    afterwards changes a directory. *)
Theorem start_logging_unopened (p : platform)
    (execution_id user_name user_id script_name command : str)
    (start_time_millis : Z) (log_dir : place) (log_filename : str)
    (s : service) (fs : files) :
  exists w fs',
    start_logging p false execution_id user_name user_id script_name command
      start_time_millis log_dir log_filename s fs
    = ({| _visited_files := {[log_filename]} ∪ _visited_files s;
          _ids_to_file_map := dict_set execution_id log_filename
                                       (_ids_to_file_map s);
          parse_log := parse_log s |}, fs', w)
    /\ folder fs' = folder fs
    /\ (forall dir, others fs' dir = others fs dir)
    /\ opened w = true /\ log_file w = None
    /\ forall chunks d, feed w chunks d = d.
Proof.
  eexists _, _. split; [reflexivity|].
  split; [by destruct log_dir|]. split.
  - intros dir. destruct log_dir as [|dir']; [done|]. cbn.
    case_bool_decide; by subst.
  - split; [reflexivity|]. split; [reflexivity|].
    intros chunks d. by rewrite feed_effect.
Qed.

Lemma find_history_entry_absent d execution_id s :
  synced s d = true ->
  dict_get execution_id (pruned d (_ids_to_file_map s)) = None ->
  find_history_entry d execution_id s
  = Returned None (with_cache s (pruned d (_ids_to_file_map s))).
Proof.
  intros Hs Hg. unfold find_history_entry, bind.
  rewrite (sync_synced d s Hs). cbn. by rewrite Hg.
Qed.

Lemma open_text_missing d f : f ∉ listdir d -> open_text d f = Err FileNotFoundError.
Proof.
  intros Hf. unfold open_text.
  destruct (read_file d f) as [c|] eqn:E; [|done].
  exfalso. apply Hf, read_file_listed. by rewrite E.
Qed.

(** X7.  The execution that could not be logged is lost at the next
    look-up.  With the index in step with the directory and no file of that
    name there, nor where the path lies, after a [start_logging] whose file
    could not be opened the next [find_history_entry] and [find_log] for
    the identifier return [None], the identifier is dropped from the index,
    and the patch that the closing of the output source runs raises
    [FileNotFoundError]. *)
Theorem unopened_transcript_lost (p : platform)
    (execution_id user_name user_id script_name command : str)
    (start_time_millis : Z) (log_dir : place) (log_filename : str)
    (s : service) (fs : files) (c : Z) :
  synced s (folder fs) = true ->
  log_filename ∉ listdir (folder fs) ->
  log_filename ∉ listdir (directory log_dir fs) ->
  let started :=
    start_logging p false execution_id user_name user_id script_name command
      start_time_millis log_dir log_filename s fs in
  let s1 := started.1.1 in
  let fs1 := started.1.2 in
  (exists s2, find_history_entry (folder fs1) execution_id s1
              = Returned None s2
              /\ dict_get execution_id (_ids_to_file_map s2) = None)
  /\ (exists s2, find_log p (folder fs1) execution_id s1 = Returned None s2
                 /\ dict_get execution_id (_ids_to_file_map s2) = None)
  /\ _write_post_execution_info p log_filename (Some c)
       (directory log_dir fs1)
     = Err FileNotFoundError.
Proof.
  intros Hs Hf Hf' started s1 fs1.
  destruct (start_logging_unopened p execution_id user_name user_id
              script_name command start_time_millis log_dir log_filename s
              fs)
    as (w & fs' & Hst & Hfold & Hoth & _).
  subst s1 fs1 started. rewrite Hst. cbn [fst snd].
  set (s1 := {| _visited_files := _; _ids_to_file_map := _;
                parse_log := _ |}).
  assert (Hdir : directory log_dir fs' = directory log_dir fs).
  { destruct log_dir; [exact Hfold | apply Hoth]. }
  rewrite Hfold, Hdir.
  assert (Hs1 : synced s1 (folder fs) = true).
  { apply synced_spec. intros g Hg Hl. cbn.
    apply elem_of_union_r. by apply (proj1 (synced_spec s _) Hs). }
  assert (Hdrop : dict_get execution_id
                    (pruned (folder fs) (_ids_to_file_map s1)) = None).
  { apply dict_get_pruned_drop, obsolete_ids_elem. exists log_filename.
    split.
    - apply dict_get_elem. cbn. apply dict_get_set_eq.
    - unfold exists_file. by apply bool_decide_eq_false. }
  split; [|split].
  - eexists. split; [by apply find_history_entry_absent|]. exact Hdrop.
  - eexists. split; [by apply find_log_absent|]. exact Hdrop.
  - unfold _write_post_execution_info. by rewrite open_text_missing.
Qed.

Lemma unopened_transcript_lost_witness :
  let d := [(s2l "a.log",
             s2l "id:1" ++ [LF] ++ OUTPUT_STARTED_MARKER ++ [LF])] in
  let fs := {| folder := d; others := fun _ => [] |} in
  let s := final_state (init_service d) in
  let started :=
    start_logging Posix false (s2l "7") (s2l "al") (s2l "u1") (s2l "job")
      (s2l "make") 17 InFolder (s2l "b.log") s fs in
  exists s2, find_history_entry (folder started.1.2) (s2l "7") started.1.1
             = Returned None s2
             /\ dict_get (s2l "7") (_ids_to_file_map s2) = None.
Proof.
  intros d fs s started.
  assert (Hs : synced s (folder fs) = true) by (vm_compute; reflexivity).
  assert (Hf : s2l "b.log" ∉ listdir (folder fs)).
  { apply (proj1 (bool_decide_eq_false _)). vm_compute. reflexivity. }
  exact (proj1 (unopened_transcript_lost Posix (s2l "7") (s2l "al")
                  (s2l "u1") (s2l "job") (s2l "make") 17 InFolder
                  (s2l "b.log") s fs 0 Hs Hf Hf)).
Defined.

(** ** The patch *)

Lemma sep_split (sep : str) :
  sep <> [] -> sep = drop_last sep ++ [last_char sep].
Proof.
  intros Hne. destruct (exists_last Hne) as (sep0 & c & ->).
  unfold last_char. by rewrite drop_last_snoc, last_last.
Qed.

Lemma split_once_sound sep t : forall a b,
  sep <> [] ->
  split_once sep t = Some (a, b) ->
  t = a ++ sep ++ b /\ contains (a ++ drop_last sep) sep = false.
Proof.
  induction t as [|c t IH]; intros a b Hne H; rewrite split_once_unfold in H.
  - destruct (startswith [] sep) eqn:E; [|done].
    apply startswith_spec in E as [r E]. destruct sep; [done | discriminate].
  - destruct (startswith (c :: t) sep) eqn:E.
    + injection H as <- <-. apply startswith_spec in E as [r E].
      split.
      * rewrite E. cbn [app]. rewrite drop_app_length. done.
      * apply not_contains_infix. cbn [app]. intros Hin.
        destruct Hin as (x & y & Hxy). apply (f_equal length) in Hxy.
        rewrite !length_app in Hxy.
        pose proof (drop_last_length sep Hne). lia.
    + destruct (split_once sep t) as [[a' b']|] eqn:Hs; [|done].
      injection H as <- <-.
      destruct (IH a' b' Hne eq_refl) as [-> Hc]. split; [done|].
      cbn [app contains]. rewrite Hc, orb_false_r.
      destruct (startswith (c :: a' ++ drop_last sep) sep) eqn:E2; [|done].
      apply startswith_spec in E2 as [r E2].
      assert (startswith (c :: a' ++ sep ++ b') sep = true) as E3; [|congruence].
      apply startswith_spec. exists (r ++ last_char sep :: b').
      transitivity ((c :: a' ++ drop_last sep) ++ last_char sep :: b').
      * cbn [app]. f_equal. rewrite <- app_assoc. f_equal.
        rewrite (sep_split sep Hne) at 1. by rewrite <- app_assoc.
      * rewrite E2. by rewrite <- app_assoc.
Qed.

Lemma split_once_none sep t :
  split_once sep t = None <-> contains t sep = false.
Proof.
  induction t as [|c t IH]; rewrite split_once_unfold; cbn [contains].
  - destruct (startswith [] sep); [by split | by split].
  - destruct (startswith (c :: t) sep); cbn; [by split|].
    destruct (split_once sep t) as [[a b]|].
    + split; [done|]. intros H. by apply IH in H.
    + split; [|done]. intros _. by apply IH.
Qed.

Lemma listdir_write_present d f c :
  f ∈ listdir d -> listdir (write_file d f c) = listdir d.
Proof.
  induction d as [|[n x] d IH]; intros Hf; cbn in *.
  - by apply elem_of_nil in Hf.
  - case_bool_decide as E; cbn; [done|].
    f_equal. apply IH. apply elem_of_cons in Hf as [->|Hf]; done.
Qed.

(** X8.  What the patch does, in every case.  Without an exit code the
    directory is left alone.  With one: a missing file raises
    [FileNotFoundError]; a file in which the marker followed by the
    platform's line terminator does not occur raises [IndexError] and is
    left as it was; otherwise the line [exit_code:c] is put right before
    the first such occurrence, everything before and after it is kept, no
    other file changes and the listing stays the same. *)
Theorem write_post_execution_info_outcome (p : platform)
    (log_file_path : str) (exit_code : option Z) (d : disk) :
  match exit_code, read_file d log_file_path with
  | None, _ =>
      _write_post_execution_info p log_file_path exit_code d = Ok d
  | Some c, None =>
      _write_post_execution_info p log_file_path exit_code d
      = Err FileNotFoundError
  | Some c, Some file_content =>
      if contains file_content (OUTPUT_STARTED_MARKER ++ linesep p)
      then exists before after d',
          file_content
          = before ++ (OUTPUT_STARTED_MARKER ++ linesep p) ++ after
          /\ contains (before
                       ++ drop_last (OUTPUT_STARTED_MARKER ++ linesep p))
                      (OUTPUT_STARTED_MARKER ++ linesep p) = false
          /\ _write_post_execution_info p log_file_path exit_code d = Ok d'
          /\ read_file d' log_file_path
             = Some (before ++ K_exit_code ++ ":" :: py_str_of_Z c
                     ++ linesep p
                     ++ (OUTPUT_STARTED_MARKER ++ linesep p) ++ after)
          /\ (forall g, g <> log_file_path -> read_file d' g = read_file d g)
          /\ listdir d' = listdir d
      else _write_post_execution_info p log_file_path exit_code d
           = Err IndexError
  end.
Proof.
  destruct exit_code as [c|]; [|by destruct (read_file d log_file_path)].
  unfold _write_post_execution_info, open_text.
  destruct (read_file d log_file_path) as [file_content|] eqn:Hr; [|done].
  cbn [result_bind].
  destruct (split_once (OUTPUT_STARTED_MARKER ++ linesep p) file_content)
    as [[before after]|] eqn:Hs.
  - apply split_once_sound in Hs as [Hc Hfirst]; [|by destruct p].
    assert (Hin : contains file_content (OUTPUT_STARTED_MARKER ++ linesep p)
                  = true).
    { apply contains_infix. by exists before, after. }
    rewrite Hin. exists before, after. eexists.
    split; [exact Hc|]. split; [exact Hfirst|]. split; [reflexivity|].
    split; [|split].
    + rewrite read_file_write_eq. by rewrite <- !app_assoc.
    + intros g Hg. by apply read_file_write_ne.
    + apply listdir_write_present, read_file_listed. by rewrite Hr.
  - apply split_once_none in Hs. by rewrite Hs.
Qed.

Lemma patch_transcript p f fields body c d :
  fields_ok fields ->
  Forall (fun kv => marker_free kv.2 = true) fields ->
  read_file d f = Some (transcript p fields body) ->
  let fields' := fields ++ [(K_exit_code, py_str_of_Z c)] in
  exists d',
    _write_post_execution_info p f (Some c) d = Ok d'
    /\ read_file d' f = Some (transcript p fields' body)
    /\ fields_ok fields'
    /\ Forall (fun kv => marker_free kv.2 = true) fields'.
Proof.
  intros Hok Hfree Hr fields'.
  pose proof (loggable_py_str c) as Hl. unfold loggable in Hl.
  apply andb_true_iff in Hl as [Hv Hm].
  unfold _write_post_execution_info, open_text. rewrite Hr.
  cbn [result_bind]. rewrite (split_marker_line_transcript p fields body Hok Hfree).
  eexists. split; [reflexivity|]. split; [|split].
  - rewrite read_file_write_eq. f_equal. unfold transcript, fields'.
    rewrite encode_fields_snoc. rewrite <- !app_assoc. cbn [app].
    by rewrite <- !app_assoc.
  - by apply fields_ok_snoc.
  - apply Forall_app. split; [done|]. by constructor.
Qed.

(** X9.  Patching twice.  On a transcript as the writer leaves it (field
    values that the header can carry, free of the marker text), a second
    patch succeeds like the first, both [exit_code] lines stay in the header
    in the order written, the body is untouched, and the entry read back
    has the exit code of the second patch. *)
Theorem patch_twice_last_wins (p : platform) (f : str)
    (fields : list (str * str)) (body : str) (c1 c2 : Z) (d : disk) :
  fields_ok fields ->
  Forall (fun kv => marker_free kv.2 = true) fields ->
  read_file d f = Some (transcript p fields body) ->
  exists d1 d2,
    _write_post_execution_info p f (Some c1) d = Ok d1
    /\ _write_post_execution_info p f (Some c2) d1 = Ok d2
    /\ read_file d2 f
       = Some (transcript p
                 (fields ++ [(K_exit_code, py_str_of_Z c1);
                             (K_exit_code, py_str_of_Z c2)]) body)
    /\ extract d2 f
       = _parameters_to_entry
           (<[K_exit_code := py_str_of_Z c2]> (mapping_of fields))
    /\ forall e, extract d2 f = Ok (Some e) -> exit_code e = Some c2.
Proof.
  intros Hok Hfree Hr.
  destruct (patch_transcript p f fields body c1 d Hok Hfree Hr)
    as (d1 & H1 & Hr1 & Hok1 & Hfree1).
  destruct (patch_transcript p f _ body c2 d1 Hok1 Hfree1 Hr1)
    as (d2 & H2 & Hr2 & Hok2 & Hfree2).
  rewrite <- app_assoc in Hr2, Hok2, Hfree2. cbn [app] in Hr2, Hok2, Hfree2.
  exists d1, d2. split; [done|]. split; [done|]. split; [done|].
  assert (He : extract d2 f
               = _parameters_to_entry
                   (<[K_exit_code := py_str_of_Z c2]> (mapping_of fields))).
  { rewrite (extract_transcript d2 f p _ body Hr2 Hok2 Hfree2). f_equal.
    change (fields ++ [(K_exit_code, py_str_of_Z c1);
                       (K_exit_code, py_str_of_Z c2)])
      with (fields ++ [(K_exit_code, py_str_of_Z c1)]
                   ++ [(K_exit_code, py_str_of_Z c2)]).
    rewrite app_assoc, !mapping_of_snoc. apply insert_insert_eq. }
  split; [exact He|]. intros e. rewrite He. unfold _parameters_to_entry.
  rewrite lookup_insert_eq.
  rewrite !(lookup_insert_ne _ K_exit_code) by done.
  unfold int_of at 1. rewrite py_int_str. cbn [result_bind].
  destruct (mapping_of fields !! K_id) as [[|i id]|]; [done| |done].
  destruct (mapping_of fields !! K_start_time) as [[|t0 t]|].
  - intros [= <-]. done.
  - destruct (int_of (t0 :: t)); cbn; [|done]. intros [= <-]. done.
  - intros [= <-]. done.
Qed.

Lemma patch_twice_last_wins_witness :
  let f := s2l "a.log" in
  let d := [(f, transcript Posix [(K_id, s2l "7")] (s2l "out"))] in
  exists d1 d2,
    _write_post_execution_info Posix f (Some 1%Z) d = Ok d1
    /\ _write_post_execution_info Posix f (Some 0%Z) d1 = Ok d2
    /\ forall e, extract d2 f = Ok (Some e) -> exit_code e = Some 0%Z.
Proof.
  intros f d.
  destruct (patch_twice_last_wins Posix f [(K_id, s2l "7")] (s2l "out")
              1 0 d) as (d1 & d2 & H1 & H2 & _ & _ & He).
  - repeat (constructor; [by split|]). constructor.
  - repeat (constructor; [reflexivity|]). constructor.
  - reflexivity.
  - exists d1, d2. by repeat split.
Defined.

(** ** A transcript that lost its marker *)

Lemma universal_newlines_prefix m : forall t b,
  LF ∉ m -> universal_newlines t = m ++ b -> exists b', t = m ++ b'.
Proof.
  induction m as [|c m IH]; intros t b Hm H; [by exists t|].
  apply not_elem_of_cons in Hm as [Hc Hm].
  destruct t as [|x t]; [done|]. cbn [universal_newlines app] in H.
  destruct (ascii_eqb x CR) eqn:Ex.
  - injection H as H _. congruence.
  - injection H as -> H. destruct (IH t b Hm H) as [b' ->]. by exists b'.
Qed.

Lemma universal_newlines_infix m t :
  LF ∉ m -> infix m (universal_newlines t) -> infix m t.
Proof.
  intros Hm (a & b & H). revert t H.
  induction a as [|x a IH]; intros t H.
  - destruct (universal_newlines_prefix m t b Hm H) as [b' ->].
    by exists [], b'.
  - destruct t as [|c t]; [done|]. cbn [universal_newlines app] in H.
    assert (Hin : infix m t -> infix m (c :: t)).
    { intros Hi. by apply (infix_app_r m [c] t). }
    destruct (ascii_eqb c CR).
    + injection H as _ H. destruct t as [|c' t].
      * symmetry in H. apply app_eq_nil in H as [_ H].
        apply app_eq_nil in H as [-> _]. by exists [], [c].
      * destruct (ascii_eqb c' LF).
        -- apply Hin. apply (infix_app_r m [c'] t). by apply IH.
        -- apply Hin. by apply IH.
    + injection H as _ H. apply Hin. by apply IH.
Qed.

Lemma marker_line_infix content :
  has_marker_line content = true -> infix OUTPUT_STARTED_MARKER content.
Proof.
  unfold has_marker_line, file_lines. intros H.
  apply existsb_exists in H as (line & Hin & Hl).
  apply bool_decide_eq_true in Hl.
  apply universal_newlines_infix.
  { apply marker_lacks. vm_compute. reflexivity. }
  apply List.in_split in Hin as (l1 & l2 & Hsplit).
  pose proof (lines_lf_concat (universal_newlines content)) as Hc.
  rewrite Hsplit, concat_app in Hc. cbn [concat] in Hc.
  destruct (_rstrip_once_prefix line LF) as [tail Ht]. rewrite Hl in Ht.
  exists (concat l1), (tail ++ concat l2).
  rewrite <- Hc, Ht. by rewrite <- !app_assoc.
Qed.

(** X10.  A transcript that lost its marker after it was indexed (it is
    visited, so it is not parsed anew): with the index in step with the
    directory, [find_history_entry] for its identifier returns [None] and
    leaves it in the index, while [find_log] for the same identifier raises
    [IndexError]. *)
Theorem marker_lost (p : platform) (d : disk) (execution_id : str)
    (s : service) (file content : str) :
  synced s d = true ->
  dict_get execution_id (pruned d (_ids_to_file_map s)) = Some file ->
  read_file d file = Some content ->
  contains content OUTPUT_STARTED_MARKER = false ->
  (exists s2, find_history_entry d execution_id s = Returned None s2
              /\ dict_get execution_id (_ids_to_file_map s2) = Some file)
  /\ exists s2, find_log p d execution_id s = Raised IndexError s2.
Proof.
  intros Hs Hg Hr Hc. split.
  - rewrite (find_history_entry_synced d execution_id s file Hs Hg).
    rewrite (extract_no_marker d file content Hr).
    + eexists. split; [reflexivity|]. exact Hg.
    + destruct (has_marker_line content) eqn:E; [|done].
      apply marker_line_infix in E. by apply not_contains_infix in Hc.
  - rewrite (find_log_synced p d execution_id s file content Hs Hg Hr).
    unfold after_marker.
    apply split_once_none in Hc. rewrite Hc. by eexists.
Qed.

Lemma marker_lost_witness :
  let before := [(s2l "a.log",
                  s2l "id:1" ++ [LF] ++ OUTPUT_STARTED_MARKER ++ [LF]
                  ++ s2l "out")] in
  let d := [(s2l "a.log", s2l "rotated")] in
  let s := final_state (init_service before) in
  (exists s2, find_history_entry d (s2l "1") s = Returned None s2
              /\ dict_get (s2l "1") (_ids_to_file_map s2)
                 = Some (s2l "a.log"))
  /\ exists s2, find_log Posix d (s2l "1") s = Raised IndexError s2.
Proof.
  intros before d s.
  assert (Hs : synced s d = true) by (vm_compute; reflexivity).
  assert (Hg : dict_get (s2l "1") (pruned d (_ids_to_file_map s))
               = Some (s2l "a.log")) by (vm_compute; reflexivity).
  apply (marker_lost Posix d (s2l "1") s (s2l "a.log") (s2l "rotated") Hs Hg);
    reflexivity.
Defined.

(** ** What a sync puts in the index *)

Lemma parameters_to_entry_id m e :
  _parameters_to_entry m = Ok (Some e) ->
  entry_id e <> [] /\ m !! K_id = Some (entry_id e).
Proof.
  unfold _parameters_to_entry.
  destruct (m !! K_id) as [[|i id]|]; [done| |done].
  destruct (m !! K_exit_code) as [x|]; [destruct (int_of x)|];
    cbn [result_bind]; try done;
    (destruct (m !! K_start_time) as [[|t0 t]|];
     [|destruct (int_of (t0 :: t))|]; cbn [result_bind]; try done;
     intros [= <-]; done).
Qed.

Lemma extract_entry_id d g e :
  extract d g = Ok (Some e) -> entry_id e <> [].
Proof.
  unfold extract, _read_parameters_text.
  destruct (open_text d g) as [content|]; [|done]. cbn [result_bind].
  destruct (read_parameters_text content) as [[] text]; [|done].
  cbn [negb]. destruct (_parse_history_parameters text) as [m|]; [|done].
  cbn [result_bind]. by intros [? _]%parameters_to_entry_id.
Qed.

Lemma carries_id_nonempty d g k : carries_id d g k -> k <> [].
Proof. intros (e & He & <-). by eapply extract_entry_id. Qed.

Lemma discover_sound d files : forall s s1,
  discover d files s = Returned tt s1 ->
  forall k g, (k, g) ∈ _ids_to_file_map s1 ->
    (k, g) ∈ _ids_to_file_map s
    \/ (g ∈ files /\ is_log_name g = true /\ (g ∉ _visited_files s)
        /\ carries_id d g k).
Proof.
  induction files as [|file files IH]; intros s s1 H k g Hin.
  - injection H as <-. by left.
  - rewrite discover_cons in H.
    assert (Hrest : forall s',
              _visited_files s ⊆ _visited_files s' ->
              discover d files s' = Returned tt s1 ->
              (k, g) ∈ _ids_to_file_map s'
              \/ (g ∈ file :: files /\ is_log_name g = true
                  /\ (g ∉ _visited_files s) /\ carries_id d g k)).
    { intros s' Hsub H'. destruct (IH s' s1 H' k g Hin)
        as [?|(Hg & Hl & Hv & Hc)]; [by left|]. right.
      split; [by apply list_elem_of_further|]. split; [done|].
      split; [set_solver | done]. }
    destruct (is_log_name file) eqn:Elog; cbn [negb] in H.
    2:{ by apply Hrest in H. }
    case_bool_decide as Ev; [by apply Hrest in H|].
    cbv zeta in H. destruct (extract d file) as [[e|]|x] eqn:Ex; [| |done].
    + apply Hrest in H; [|cbn; set_solver]. cbn in H.
      destruct H as [Hd|?]; [|by right].
      apply dict_set_elem in Hd as [Hd|[-> ->]]; [by left|]. right.
      split; [apply list_elem_of_here|]. split; [done|]. split; [done|].
      by exists e.
    + apply Hrest in H; [|cbn; set_solver]. done.
Qed.

(** X11.  The index after a sync is sound.  When [_renew_files_cache]
    returns, every pair of the index names a file of the directory; a pair
    that was not in the index before names a [.log] file that had not been
    visited, and its key is the identifier that the file's header gives,
    which is not empty. *)
Theorem sync_index_sound (d : disk) (s s1 : service) (k g : str) :
  _renew_files_cache d s = Returned tt s1 ->
  (k, g) ∈ _ids_to_file_map s1 ->
  g ∈ listdir d
  /\ ((k, g) ∈ _ids_to_file_map s
      \/ (is_log_name g = true /\ (g ∉ _visited_files s) /\ k <> []
          /\ carries_id d g k)).
Proof.
  unfold _renew_files_cache, bind. rewrite prune_spec. intros H Hin.
  destruct (discover_sound d (listdir d) _ s1 H k g Hin)
    as [Hold|(Hg & Hl & Hv & Hc)].
  - cbn in Hold. apply pruned_elem in Hold as (Hm & He & _).
    split; [by apply exists_file_true | by left].
  - split; [done|]. right. split; [done|]. split; [done|].
    split; [by eapply carries_id_nonempty | done].
Qed.

Lemma sync_index_sound_witness :
  let d := [(s2l "a.log",
             s2l "id:1" ++ [LF] ++ OUTPUT_STARTED_MARKER ++ [LF]
             ++ s2l "out");
            (s2l "notes.txt", s2l "id:2" ++ [LF] ++ OUTPUT_STARTED_MARKER)] in
  s2l "a.log" ∈ listdir d
  /\ ((s2l "1", s2l "a.log") ∈ _ids_to_file_map new_service
      \/ (is_log_name (s2l "a.log") = true
          /\ (s2l "a.log" ∉ _visited_files new_service) /\ s2l "1" <> []
          /\ carries_id d (s2l "a.log") (s2l "1"))).
Proof.
  intros d.
  apply (sync_index_sound d new_service
           (final_state (_renew_files_cache d new_service))).
  - vm_compute. reflexivity.
  - vm_compute. apply list_elem_of_here.
Defined.

Lemma dict_get_set_ne k k' v m :
  k <> k' -> dict_get k (dict_set k' v m) = dict_get k m.
Proof.
  intros Hne. induction m as [|[k0 v0] m IH]; cbn.
  - by rewrite bool_decide_eq_false_2.
  - case_bool_decide as E; cbn.
    + subst. by rewrite !bool_decide_eq_false_2 by done.
    + by rewrite IH.
Qed.

Lemma discover_complete d files : forall s s1,
  discover d files s = Returned tt s1 ->
  (forall k g0, dict_get k (_ids_to_file_map s) = Some g0 ->
     exists g', dict_get k (_ids_to_file_map s1) = Some g'
                /\ (g' = g0 \/ (g' ∈ files /\ carries_id d g' k)))
  /\ (forall g k, g ∈ files -> is_log_name g = true ->
        g ∉ _visited_files s -> carries_id d g k ->
        exists g', dict_get k (_ids_to_file_map s1) = Some g'
                   /\ g' ∈ files /\ carries_id d g' k).
Proof.
  induction files as [|file files IH]; intros s s1 H.
  - injection H as <-. split.
    + intros k g0 Hk. exists g0. auto.
    + by intros g k Hg%elem_of_nil.
  - rewrite discover_cons in H.
    assert (Hskip : discover d files s = Returned tt s1 ->
                    (is_log_name file = false \/ file ∈ _visited_files s) ->
      (forall k g0, dict_get k (_ids_to_file_map s) = Some g0 ->
         exists g', dict_get k (_ids_to_file_map s1) = Some g'
                    /\ (g' = g0 \/ (g' ∈ file :: files /\ carries_id d g' k)))
      /\ (forall g k, g ∈ file :: files -> is_log_name g = true ->
            g ∉ _visited_files s -> carries_id d g k ->
            exists g', dict_get k (_ids_to_file_map s1) = Some g'
                       /\ g' ∈ file :: files /\ carries_id d g' k)).
    { intros H' Hwhy. destruct (IH s s1 H') as [Ha Hb]. split.
      - intros k g0 Hk. destruct (Ha k g0 Hk) as (g' & Hg' & Hor).
        exists g'. split; [done|]. destruct Hor as [->|[Hin Hc]]; [by left|].
        right. split; [by apply list_elem_of_further | done].
      - intros g k [->|Hg]%elem_of_cons Hl Hv Hc.
        + destruct Hwhy; [congruence | done].
        + destruct (Hb g k Hg Hl Hv Hc) as (g' & Hg' & Hin & Hc').
          exists g'. split; [done|].
          split; [by apply list_elem_of_further | done]. }
    destruct (is_log_name file) eqn:Elog; cbn [negb] in H.
    2:{ apply Hskip; auto. }
    case_bool_decide as Ev; [apply Hskip; auto|].
    cbv zeta in H. destruct (extract d file) as [[e|]|x] eqn:Ex; [| |done].
    + destruct (IH _ s1 H) as [Ha Hb]. cbn in Ha, Hb.
      assert (Hnew : forall k, entry_id e = k ->
                exists g', dict_get k (_ids_to_file_map s1) = Some g'
                           /\ g' ∈ file :: files /\ carries_id d g' k).
      { intros k <-.
        destruct (Ha (entry_id e) file (dict_get_set_eq _ _ _))
          as (g' & Hg' & Hor). exists g'. split; [done|].
        destruct Hor as [->|[Hin Hc]].
        - split; [apply list_elem_of_here | by exists e].
        - split; [by apply list_elem_of_further | done]. }
      split.
      * intros k g0 Hk. destruct (decide (entry_id e = k)) as [Hek|Hek].
        -- destruct (Hnew k Hek) as (g' & Hg' & Hr). exists g'. auto.
        -- destruct (Ha k g0) as (g' & Hg' & Hor).
           { by rewrite dict_get_set_ne. }
           exists g'. split; [done|]. destruct Hor as [->|[Hin Hc]]; [by left|].
           right. split; [by apply list_elem_of_further | done].
      * intros g k [->|Hg]%elem_of_cons Hl Hv Hc.
        -- destruct Hc as (e' & He' & <-). rewrite Ex in He'.
           injection He' as <-. by apply Hnew.
        -- destruct (decide (g = file)) as [->|Hne].
           { destruct Hc as (e' & He' & <-). rewrite Ex in He'.
             injection He' as <-. by apply Hnew. }
           destruct (Hb g k Hg Hl) as (g' & Hg' & Hin & Hc'); [set_solver|done|].
           exists g'. split; [done|].
           split; [by apply list_elem_of_further | done].
    + destruct (IH _ s1 H) as [Ha Hb]. cbn in Ha, Hb. split.
      * intros k g0 Hk. destruct (Ha k g0 Hk) as (g' & Hg' & Hor).
        exists g'. split; [done|]. destruct Hor as [->|[Hin Hc]]; [by left|].
        right. split; [by apply list_elem_of_further | done].
      * intros g k [->|Hg]%elem_of_cons Hl Hv Hc.
        -- destruct Hc as (e' & He' & _). congruence.
        -- destruct (decide (g = file)) as [->|Hne].
           { destruct Hc as (e' & He' & _). congruence. }
           destruct (Hb g k Hg Hl) as (g' & Hg' & Hin & Hc'); [set_solver|done|].
           exists g'. split; [done|].
           split; [by apply list_elem_of_further | done].
Qed.

(** X12.  The index after a sync is complete for what is new.  When
    [_renew_files_cache] returns, the identifier carried by any [.log] file
    of the directory that had not been visited is a key of the index, and
    the file it is mapped to is a file of the directory carrying that
    identifier. *)
Theorem sync_index_complete (d : disk) (s s1 : service) (g k : str) :
  _renew_files_cache d s = Returned tt s1 ->
  g ∈ listdir d -> is_log_name g = true -> g ∉ _visited_files s ->
  carries_id d g k ->
  exists g', dict_get k (_ids_to_file_map s1) = Some g'
             /\ g' ∈ listdir d /\ carries_id d g' k.
Proof.
  unfold _renew_files_cache, bind. rewrite prune_spec. intros H Hg Hl Hv Hc.
  destruct (discover_complete d (listdir d) _ s1 H) as [_ Hb].
  by apply (Hb g k).
Qed.

Lemma sync_index_complete_witness :
  let d := [(s2l "a.log",
             s2l "id:1" ++ [LF] ++ OUTPUT_STARTED_MARKER ++ [LF]
             ++ s2l "out");
            (s2l "b.LOG",
             s2l "id:1" ++ [LF] ++ OUTPUT_STARTED_MARKER ++ [LF])] in
  exists g',
    dict_get (s2l "1")
      (_ids_to_file_map (final_state (_renew_files_cache d new_service)))
    = Some g'
    /\ g' ∈ listdir d /\ carries_id d g' (s2l "1").
Proof.
  intros d.
  apply (sync_index_complete d new_service
           (final_state (_renew_files_cache d new_service)) (s2l "a.log")).
  - vm_compute. reflexivity.
  - apply list_elem_of_here.
  - vm_compute. reflexivity.
  - apply (proj1 (bool_decide_eq_false _)). vm_compute. reflexivity.
  - eexists. split; vm_compute; reflexivity.
Defined.

(** ** What a sync reads *)

Lemma discover_reads d files : forall s,
  let s' := final_state (discover d files s) in
  exists new,
    parse_log s' = new ++ parse_log s
    /\ NoDup new
    /\ forall g, g ∈ new ->
         g ∈ files /\ is_log_name g = true
         /\ (g ∉ _visited_files s) /\ g ∈ _visited_files s'.
Proof.
  induction files as [|file files IH]; intros s; cbv zeta.
  { exists []. split; [done|]. split; [constructor|].
    by intros g Hg%elem_of_nil. }
  assert (Hskip :
    let s' := final_state (discover d files s) in
    exists new,
      parse_log s' = new ++ parse_log s
      /\ NoDup new
      /\ forall g, g ∈ new ->
           g ∈ file :: files /\ is_log_name g = true
           /\ (g ∉ _visited_files s) /\ g ∈ _visited_files s').
  { destruct (IH s) as (new & Hp & Hn & Hg). exists new.
    split; [done|]. split; [done|]. intros g Hin.
    destruct (Hg g Hin) as (? & ? & ? & ?).
    split; [by apply list_elem_of_further | done]. }
  rewrite discover_cons. destruct (is_log_name file) eqn:Elog; cbn [negb];
    [|exact Hskip].
  case_bool_decide as Ev; [exact Hskip|]. cbv zeta. clear Hskip.
  assert (Hstep : forall m,
    let s1 := {| _visited_files := {[file]} ∪ _visited_files s;
                 _ids_to_file_map := m;
                 parse_log := file :: parse_log s |} in
    let s' := final_state (discover d files s1) in
    exists new,
      parse_log s' = new ++ parse_log s
      /\ NoDup new
      /\ forall g, g ∈ new ->
           g ∈ file :: files /\ is_log_name g = true
           /\ (g ∉ _visited_files s) /\ g ∈ _visited_files s').
  { intros m s1 s'. destruct (IH s1) as (new & Hp & Hn & Hg). fold s' in Hp, Hg.
    pose proof (proj1 (discover_parses_unvisited d files s1)) as Hsub.
    fold s' in Hsub.
    exists (new ++ [file]). split; [by rewrite Hp, <- app_assoc|]. split.
    - apply NoDup_app. split; [done|]. split; [|apply NoDup_singleton].
      intros g Hin ->%list_elem_of_singleton.
      destruct (Hg file Hin) as (_ & _ & Hv & _). apply Hv. cbn. set_solver.
    - intros g [Hin | ->%list_elem_of_singleton]%elem_of_app.
      + destruct (Hg g Hin) as (? & ? & Hv & ?).
        split; [by apply list_elem_of_further|]. split; [done|].
        split; [|done]. intros Hv'. apply Hv. cbn. set_solver.
      + split; [apply list_elem_of_here|]. split; [done|]. split; [done|].
        apply Hsub. cbn. set_solver. }
  destruct (extract d file) as [[e|]|x].
  - apply Hstep.
  - apply Hstep.
  - cbn. exists [file]. split; [done|]. split; [apply NoDup_singleton|].
    intros g ->%list_elem_of_singleton.
    split; [apply list_elem_of_here|]. split; [done|]. split; [done|].
    set_solver.
Qed.

(** X13.  What a sync reads.  Whatever its outcome, [_renew_files_cache]
    hands to the parser only files of the directory listing whose name ends
    in [.log] (in any letter case), each of them once, none that was
    visited before, and every one of them is visited afterwards. *)
Theorem sync_reads_new_log_files_once (d : disk) (s : service) :
  let s' := final_state (_renew_files_cache d s) in
  exists new,
    parse_log s' = new ++ parse_log s
    /\ NoDup new
    /\ forall g, g ∈ new ->
         g ∈ listdir d /\ is_log_name g = true
         /\ (g ∉ _visited_files s) /\ g ∈ _visited_files s'.
Proof.
  unfold _renew_files_cache, bind. rewrite prune_spec.
  apply (discover_reads d (listdir d)
           (with_cache s (pruned d (_ids_to_file_map s)))).
Qed.

(** ** The look-ups agree *)

Lemma collect_entries_complete d files : forall s es s',
  collect_entries d files s = Returned es s' ->
  forall g e, g ∈ files -> extract d g = Ok (Some e) -> e ∈ es.
Proof.
  induction files as [|file files IH]; intros s es s' H g e Hg He.
  - by apply elem_of_nil in Hg.
  - cbn [collect_entries] in H. unfold bind, _extract_history_entry in H.
    cbn in H. unfold lift in H.
    destruct (extract d file) as [r|x] eqn:Ex; [|done].
    destruct (collect_entries d files _) as [es' s2|x s2] eqn:Hc; [|done].
    injection H as <- <-.
    apply elem_of_cons in Hg as [->|Hg].
    + rewrite Ex in He. injection He as ->. apply list_elem_of_here.
    + pose proof (IH _ _ _ Hc g e Hg He) as Hin.
      destruct r; [by apply list_elem_of_further | done].
Qed.

(** X14.  The look-ups agree.  From the same service state and directory,
    an entry that [find_history_entry] returns for some identifier is among
    the entries that [get_history_entries] returns, when that call
    returns. *)
Theorem found_entry_is_listed (d : disk) (s : service) (execution_id : str)
    (e : HistoryEntry) (s1 : service) (es : list HistoryEntry)
    (s2 : service) :
  find_history_entry d execution_id s = Returned (Some e) s1 ->
  get_history_entries d s = Returned es s2 ->
  e ∈ es.
Proof.
  unfold find_history_entry, get_history_entries, bind, get_state.
  destruct (_renew_files_cache d s) as [[] s0|x s0]; [|done].
  destruct (dict_get execution_id (_ids_to_file_map s0)) as [file|] eqn:Hg;
    [|done].
  unfold _extract_history_entry, bind, note_parse, lift.
  destruct (extract d file) as [r|x] eqn:Ex; [|done].
  intros [= -> <-] Hc.
  apply (collect_entries_complete d _ _ _ _ Hc file e); [|done].
  apply dict_get_elem in Hg. apply list_elem_of_fmap. by exists (execution_id, file).
Qed.

Lemma found_entry_is_listed_witness :
  let d := [(s2l "a.log",
             s2l "id:1" ++ [LF] ++ OUTPUT_STARTED_MARKER ++ [LF]
             ++ s2l "out");
            (s2l "b.log",
             s2l "id:2" ++ [LF] ++ s2l "exit_code:0" ++ [LF]
             ++ OUTPUT_STARTED_MARKER ++ [LF])] in
  let entry id code :=
    {| user_name := None; user_id := None; start_time := None;
       script_name := None; command := None; entry_id := id;
       exit_code := code |} in
  entry (s2l "2") (Some 0%Z) ∈ [entry (s2l "1") None; entry (s2l "2") (Some 0%Z)].
Proof.
  intros d entry.
  apply (found_entry_is_listed d new_service (s2l "2")
           (entry (s2l "2") (Some 0%Z))
           (final_state (find_history_entry d (s2l "2") new_service))
           [entry (s2l "1") None; entry (s2l "2") (Some 0%Z)]
           (final_state (get_history_entries d new_service)));
    vm_compute; reflexivity.
Defined.

(** ** File names *)

Lemma endswith_suffix t suf :
  endswith t suf = true <-> exists r, t = r ++ suf.
Proof.
  unfold endswith. rewrite startswith_spec. split.
  - intros [r H]. exists (rev r).
    rewrite <- (rev_involutive t), H, rev_app_distr.
    by rewrite rev_involutive.
  - intros [r ->]. exists (rev r). by rewrite rev_app_distr.
Qed.

Lemma replace_spaces_fixed t : " " ∉ t -> replace_spaces t = t.
Proof.
  unfold replace_spaces.
  induction t as [|c t IH]; [done|]. intros [Hc Ht]%not_elem_of_cons.
  cbn [map]. rewrite (IH Ht). unfold ascii_eqb.
  by rewrite bool_decide_eq_false_2 by done.
Qed.

Lemma replace_spaces_app a b :
  replace_spaces (a ++ b) = replace_spaces a ++ replace_spaces b.
Proof. apply map_app. Qed.

Lemma replace_spaces_underscore t :
  replace_spaces ("_" :: t) = "_" :: replace_spaces t.
Proof. reflexivity. Qed.

Lemma replace_spaces_no_space t : " " ∉ replace_spaces t.
Proof.
  unfold replace_spaces.
  induction t as [|c t IH]; cbn [map]; [by intros ?%elem_of_nil|].
  apply not_elem_of_cons. split; [|done].
  unfold ascii_eqb. case_bool_decide; [done | congruence].
Qed.

Lemma log_suffix_no_space t :
  lower t = s2l ".log" -> " " ∉ t.
Proof.
  destruct t as [|c1 [|c2 [|c3 [|c4 [|c5 t]]]]]; try done.
  cbn. intros [= H1 H2 H3 H4]. intros Hin.
  repeat (apply elem_of_cons in Hin as [<-|Hin]; [by vm_compute in *|]).
  by apply elem_of_nil in Hin.
Qed.

Lemma is_log_name_replace_spaces t :
  is_log_name t = true -> is_log_name (replace_spaces t) = true.
Proof.
  unfold is_log_name. intros [r Hr]%endswith_suffix.
  unfold lower in Hr. apply map_eq_app in Hr as (t1 & t2 & -> & H1 & H2).
  apply endswith_suffix. exists (lower (replace_spaces t1)).
  rewrite replace_spaces_app, (replace_spaces_fixed t2).
  - unfold lower. by rewrite map_app, H2.
  - by apply log_suffix_no_space.
Qed.

Lemma with_log_extension_is_log_name filename :
  is_log_name (with_log_extension filename) = true.
Proof.
  unfold with_log_extension, is_log_name.
  destruct (endswith (lower filename) (s2l ".log")) eqn:E; cbn [negb]; [done|].
  apply endswith_suffix. exists (lower filename). unfold lower.
  by rewrite map_app.
Qed.

(** X15.  Every name that [create_filename] makes passes the name test of
    the sync.  Whatever the pattern, the date format, the audit names and
    the utilities, the name returned ends in [.log] (in some letter case),
    which is the test of [_renew_files_cache] at line 220, and has no
    space. *)
Theorem create_filename_is_log_name `{Utilities} (self : LogNameCreator)
    (execution_id : str) (all_audit_names : dict) (script_name : str)
    (start_time : Z) :
  is_log_name (create_filename self execution_id all_audit_names script_name
                 start_time) = true
  /\ " " ∉ create_filename self execution_id all_audit_names script_name
             start_time.
Proof.
  unfold create_filename. cbv zeta. split.
  - apply is_log_name_replace_spaces, with_log_extension_is_log_name.
  - apply replace_spaces_no_space.
Qed.

Lemma default_substitute `{Utilities} (date_format : str)
    (execution_id : str) (all_audit_names : dict) (script_name : str)
    (start_time : Z) :
  safe_substitute DEFAULT_FILENAME_PATTERN
    (filename_mapping date_format execution_id all_audit_names script_name
       start_time)
  = script_name ++ "_" :: to_filename (get_audit_name all_audit_names)
    ++ "_" :: format_time start_time date_format.
Proof.
  transitivity (script_name ++ "_" :: to_filename (get_audit_name all_audit_names)
                ++ "_" :: format_time start_time date_format ++ []).
  - vm_compute. reflexivity.
  - by rewrite app_nil_r.
Qed.

(** X16.  The default file name and the log identifier.  With the default
    pattern and date format, when the audit name as a file name and the
    date text have no space and the identifier does not itself end in
    [.log], the file name of an execution is the text that
    [_create_log_identifier] gives for the same audit name, script and
    time, followed by [.log]. *)
Theorem default_filename_is_identifier `{Utilities} (execution_id : str)
    (all_audit_names : dict) (script_name : str) (start_time : Z) :
  let identifier :=
    _create_log_identifier (get_audit_name all_audit_names) script_name
      start_time in
  " " ∉ to_filename (get_audit_name all_audit_names) ->
  " " ∉ format_time start_time DEFAULT_DATE_FORMAT ->
  is_log_name identifier = false ->
  create_filename (new_LogNameCreator None None) execution_id all_audit_names
    script_name start_time
  = identifier ++ s2l ".log".
Proof.
  intros identifier Ha Hd Hl. unfold create_filename. cbv zeta.
  change (_filename_template (new_LogNameCreator None None))
    with DEFAULT_FILENAME_PATTERN.
  change (_date_format (new_LogNameCreator None None))
    with DEFAULT_DATE_FORMAT.
  rewrite default_substitute.
  set (name := script_name ++ _).
  assert (Hid : replace_spaces name = identifier).
  { unfold name, identifier, _create_log_identifier.
    rewrite replace_spaces_app, replace_spaces_underscore.
    rewrite replace_spaces_app, replace_spaces_underscore.
    by rewrite (replace_spaces_fixed _ Ha), (replace_spaces_fixed _ Hd). }
  unfold with_log_extension.
  destruct (endswith (lower name) (s2l ".log")) eqn:E; cbn [negb].
  - apply is_log_name_replace_spaces in E. rewrite Hid in E. congruence.
  - rewrite replace_spaces_app, Hid. f_equal.
Qed.

Lemma default_filename_is_identifier_witness :
  @create_filename sample_utilities (new_LogNameCreator None None) (s2l "7")
    [(s2l "user", s2l "al ice")] (s2l "my script") 17
  = s2l "my_script_al_ice_17.log".
Proof.
  refine (@default_filename_is_identifier sample_utilities (s2l "7")
            [(s2l "user", s2l "al ice")] (s2l "my script") 17 _ _ _).
  - apply (proj1 (bool_decide_eq_false _)). vm_compute. reflexivity.
  - apply (proj1 (bool_decide_eq_false _)). vm_compute. reflexivity.
  - vm_compute. reflexivity.
Defined.

Lemma substitute_plain mapping t :
  "$" ∉ t -> substitute mapping Plain t = t.
Proof.
  induction t as [|c t IH]; [done|]. intros [Hc Ht]%not_elem_of_cons.
  cbn. unfold ascii_eqb. rewrite bool_decide_eq_false_2 by done.
  by rewrite (IH Ht).
Qed.

(** X17.  A pattern without placeholders.  When the file name pattern is
    not empty and has no [$], [create_filename] gives the same name for
    every execution: the pattern, with [.log] added unless it ends so, and
    its spaces replaced. *)
Theorem constant_pattern_filename `{Utilities} (pattern : str)
    (date_format : option str) (execution_id : str) (all_audit_names : dict)
    (script_name : str) (start_time : Z) :
  pattern <> [] -> "$" ∉ pattern ->
  create_filename (new_LogNameCreator (Some pattern) date_format)
    execution_id all_audit_names script_name start_time
  = replace_spaces (with_log_extension pattern).
Proof.
  intros Hne Hp. unfold create_filename. cbv zeta.
  assert (_filename_template (new_LogNameCreator (Some pattern) date_format)
          = pattern) as ->.
  { by destruct pattern. }
  unfold safe_substitute. by rewrite substitute_plain.
Qed.

Lemma constant_pattern_filename_witness :
  @create_filename sample_utilities
    (new_LogNameCreator (Some (s2l "run log")) None) (s2l "7")
    [(s2l "user", s2l "al")] (s2l "job") 17
  = s2l "run_log.log".
Proof.
  refine (@constant_pattern_filename sample_utilities (s2l "run log") None
            (s2l "7") [(s2l "user", s2l "al")] (s2l "job") 17 _ _).
  - discriminate.
  - apply (proj1 (bool_decide_eq_false _)). vm_compute. reflexivity.
Defined.

(** ** When a look-up raises *)

Lemma discover_raised d files : forall s x s1,
  discover d files s = Raised x s1 ->
  exists g, g ∈ files /\ is_log_name g = true /\ (g ∉ _visited_files s)
            /\ g ∈ _visited_files s1 /\ extract d g = Err x
            /\ hd_error (parse_log s1) = Some g.
Proof.
  induction files as [|file files IH]; intros s x s1 H; [done|].
  rewrite discover_cons in H.
  assert (Hrest : forall s',
            _visited_files s ⊆ _visited_files s' ->
            discover d files s' = Raised x s1 ->
            exists g, g ∈ file :: files /\ is_log_name g = true
                      /\ (g ∉ _visited_files s)
                      /\ g ∈ _visited_files s1 /\ extract d g = Err x
                      /\ hd_error (parse_log s1) = Some g).
  { intros s' Hsub H'.
    destruct (IH s' x s1 H') as (g & Hg & Hl & Hv & Hv1 & He & Hp).
    exists g. split; [by apply list_elem_of_further|]. split; [done|].
    split; [set_solver | done]. }
  destruct (is_log_name file) eqn:Elog; cbn [negb] in H; [|by apply Hrest in H].
  case_bool_decide as Ev; [by apply Hrest in H|].
  cbv zeta in H. destruct (extract d file) as [[e|]|y] eqn:Ex.
  - apply Hrest in H; [done | cbn; set_solver].
  - apply Hrest in H; [done | cbn; set_solver].
  - injection H as <- <-. exists file.
    split; [apply list_elem_of_here|]. split; [done|]. split; [done|].
    split; [cbn; set_solver | done].
Qed.

(** X18.  Why a sync raises.  [_renew_files_cache] raises only while
    parsing a [.log] file of the directory that had not been visited: the
    exception is the one that the extraction of that file raises; the file
    is the last one handed to the parser, and it is among the visited files
    when the exception leaves the call. *)
Theorem sync_raise_cause (d : disk) (s : service) (x : exn) (s1 : service) :
  _renew_files_cache d s = Raised x s1 ->
  exists g,
    g ∈ listdir d /\ is_log_name g = true /\ (g ∉ _visited_files s)
    /\ g ∈ _visited_files s1 /\ extract d g = Err x
    /\ hd_error (parse_log s1) = Some g.
Proof.
  unfold _renew_files_cache, bind. rewrite prune_spec. intros H.
  destruct (discover_raised d (listdir d) _ x s1 H)
    as (g & Hg & Hl & Hv & Hv1 & He & Hp).
  exists g. by repeat split.
Qed.

Lemma sync_raise_cause_witness :
  let d := [(s2l "bad.log",
             s2l "garbage" ++ [LF] ++ OUTPUT_STARTED_MARKER ++ [LF]
             ++ s2l "out")] in
  exists g,
    g ∈ listdir d /\ is_log_name g = true
    /\ (g ∉ _visited_files new_service)
    /\ g ∈ _visited_files (final_state (_renew_files_cache d new_service))
    /\ extract d g = Err TypeError
    /\ hd_error (parse_log (final_state (_renew_files_cache d new_service)))
       = Some g.
Proof.
  intros d.
  apply (sync_raise_cause d new_service TypeError
           (final_state (_renew_files_cache d new_service))).
  vm_compute. reflexivity.
Defined.

Lemma collect_entries_raises d files : forall s g x,
  g ∈ files -> extract d g = Err x ->
  exists y s', collect_entries d files s = Raised y s'.
Proof.
  induction files as [|file files IH]; intros s g x Hg He.
  - by apply elem_of_nil in Hg.
  - cbn [collect_entries]. unfold bind, _extract_history_entry.
    cbn. unfold lift.
    destruct (extract d file) as [r|y] eqn:Ex; [|by eauto].
    apply elem_of_cons in Hg as [->|Hg]; [congruence|].
    destruct (IH {| _visited_files := _visited_files s;
                    _ids_to_file_map := _ids_to_file_map s;
                    parse_log := file :: parse_log s |} g x Hg He)
      as (y & s' & ->). eauto.
Qed.

Lemma get_history_entries_synced d s :
  synced s d = true ->
  get_history_entries d s
  = collect_entries d (map snd (pruned d (_ids_to_file_map s)))
      (with_cache s (pruned d (_ids_to_file_map s))).
Proof.
  intros Hs. unfold get_history_entries, bind.
  by rewrite (sync_synced d s Hs).
Qed.

(** X19.  An exit code that is not an integer.  For an indexed transcript
    (header values that the header can carry, free of the marker text)
    whose last [id] field is not empty and whose last [exit_code] field is
    not a text that [int] accepts, with the index in step with the
    directory: [find_history_entry] for its identifier raises [ValueError],
    and [get_history_entries] raises too, returning no entry at all. *)
Theorem bad_exit_code_raises (p : platform) (d : disk) (s : service)
    (execution_id file : str) (fields : list (str * str)) (body : str)
    (c : ascii) (id v : str) :
  synced s d = true ->
  dict_get execution_id (pruned d (_ids_to_file_map s)) = Some file ->
  read_file d file = Some (transcript p fields body) ->
  fields_ok fields ->
  Forall (fun kv => marker_free kv.2 = true) fields ->
  last_value K_id fields = Some (c :: id) ->
  last_value K_exit_code fields = Some v ->
  py_int v = None ->
  (exists s2, find_history_entry d execution_id s = Raised ValueError s2)
  /\ exists x s2, get_history_entries d s = Raised x s2.
Proof.
  intros Hs Hg Hr Hok Hfree Hid Hcode Hint.
  assert (He : extract d file = Err ValueError).
  { rewrite (extract_transcript d file p fields body Hr Hok Hfree).
    unfold _parameters_to_entry, mapping_of.
    rewrite !mapping_of_last_value, Hid, Hcode. unfold int_of.
    by rewrite Hint. }
  split.
  - rewrite (find_history_entry_synced d execution_id s file Hs Hg), He.
    by eexists.
  - rewrite (get_history_entries_synced d s Hs).
    apply (collect_entries_raises d _ _ file ValueError); [|done].
    apply dict_get_elem in Hg. apply list_elem_of_fmap.
    by exists (execution_id, file).
Qed.

Lemma bad_exit_code_raises_witness :
  let before := [(s2l "a.log",
                  s2l "id:1" ++ [LF] ++ OUTPUT_STARTED_MARKER ++ [LF])] in
  let fields := [(K_id, s2l "1"); (K_exit_code, s2l "killed")] in
  let d := [(s2l "a.log", transcript Posix fields (s2l "out"))] in
  let s := final_state (init_service before) in
  (exists s2, find_history_entry d (s2l "1") s = Raised ValueError s2)
  /\ exists x s2, get_history_entries d s = Raised x s2.
Proof.
  intros before fields d s.
  assert (Hs : synced s d = true) by (vm_compute; reflexivity).
  assert (Hg : dict_get (s2l "1") (pruned d (_ids_to_file_map s))
               = Some (s2l "a.log")) by (vm_compute; reflexivity).
  apply (bad_exit_code_raises Posix d s (s2l "1") (s2l "a.log") fields
           (s2l "out") "1" [] (s2l "killed") Hs Hg).
  - reflexivity.
  - repeat (constructor; [by split|]). constructor.
  - repeat (constructor; [reflexivity|]). constructor.
  - reflexivity.
  - reflexivity.
  - reflexivity.
Defined.

(** ** An identifier used again *)

(** X20.  An identifier used again hides the earlier transcript.  The
    keys of the index distinct, the index in step with the directory, an
    identifier that the index maps to a file of the directory which stands
    under no other key: when an execution is started under that identifier
    with another file name, its file opened directly in the log directory,
    the earlier file is still there, the index maps the identifier to the
    new file after the next [get_history_entries], and that call, when it
    returns, takes no entry from the earlier file. *)
Theorem reused_id_hides_earlier_run (p : platform)
    (execution_id user_name user_id script_name command : str)
    (start_time_millis : Z) (earlier log_filename : str)
    (s : service) (fs : files) :
  dict_ok (_ids_to_file_map s) = true ->
  synced s (folder fs) = true ->
  dict_get execution_id (_ids_to_file_map s) = Some earlier ->
  only_under execution_id earlier (_ids_to_file_map s) = true ->
  log_filename <> earlier ->
  earlier ∈ listdir (folder fs) ->
  let started :=
    start_logging p true execution_id user_name user_id script_name command
      start_time_millis InFolder log_filename s fs in
  let s1 := started.1.1 in
  let d1 := folder started.1.2 in
  earlier ∈ listdir d1
  /\ forall es s2,
       get_history_entries d1 s1 = Returned es s2 ->
       dict_get execution_id (_ids_to_file_map s2) = Some log_filename
       /\ forall e, e ∈ es ->
            exists k g, (k, g) ∈ _ids_to_file_map s2 /\ g <> earlier
                        /\ extract d1 g = Ok (Some e).
Proof.
  intros Hok Hs Hg Honly Hne Hin started s1 d1.
  destruct (start_logging_opened p execution_id user_name user_id script_name
              command start_time_millis InFolder log_filename s fs)
    as (d' & Hst & _ & _ & Hlist).
  subst s1 d1 started. rewrite Hst. cbn [fst snd set_directory folder].
  cbn [directory] in Hlist.
  set (s1 := {| _visited_files := _; _ids_to_file_map := _;
                parse_log := _ |}).
  destruct (started_state execution_id log_filename s (folder fs) d' Hok Hs
              Hlist)
    as [Hs1 Hg1]. fold s1 in Hs1, Hg1.
  split; [apply Hlist; by right|].
  intros es s2 Hget.
  apply get_history_entries_sources in Hget as (s0 & Hsync & Hc & Hsrc).
  rewrite (sync_synced d' s1 Hs1) in Hsync. injection Hsync as <-.
  cbn in Hc, Hsrc. rewrite Hc. split; [exact Hg1|].
  intros e He. destruct (Hsrc e He) as (k & g & Hkg & Hex).
  exists k, g. split; [done|]. split; [|done]. intros ->.
  apply pruned_elem in Hkg as (Hkg & _).
  assert (Hnd : NoDup (map fst (dict_set execution_id log_filename
                                         (_ids_to_file_map s)))).
  { apply dict_set_keys. by apply bool_decide_eq_true in Hok. }
  assert (k = execution_id) as ->.
  { apply dict_set_elem in Hkg as [Hkg|[-> _]]; [|done].
    unfold only_under in Honly. rewrite forallb_forall in Honly.
    apply list_elem_of_In, Honly in Hkg. cbn in Hkg.
    rewrite bool_decide_eq_true_2 in Hkg by done.
    by apply bool_decide_eq_true in Hkg. }
  apply Hne. symmetry.
  apply (dict_get_unique execution_id log_filename earlier _ Hnd);
    [apply dict_get_set_eq | done].
Qed.

Lemma reused_id_hides_earlier_run_witness :
  let d := [(s2l "a.log",
             s2l "id:7" ++ [LF] ++ s2l "command:first" ++ [LF]
             ++ OUTPUT_STARTED_MARKER ++ [LF] ++ s2l "out")] in
  let fs := {| folder := d; others := fun _ => [] |} in
  let s := final_state (init_service d) in
  let started :=
    start_logging Posix true (s2l "7") (s2l "al") (s2l "u1") (s2l "job")
      (s2l "second") 17 InFolder (s2l "b.log") s fs in
  s2l "a.log" ∈ listdir (folder started.1.2)
  /\ forall es s2,
       get_history_entries (folder started.1.2) started.1.1
       = Returned es s2 ->
       dict_get (s2l "7") (_ids_to_file_map s2) = Some (s2l "b.log")
       /\ forall e, e ∈ es ->
            exists k g, (k, g) ∈ _ids_to_file_map s2 /\ g <> s2l "a.log"
                        /\ extract (folder started.1.2) g = Ok (Some e).
Proof.
  intros d fs s started.
  assert (Hs : synced s (folder fs) = true) by (vm_compute; reflexivity).
  assert (Hin : s2l "a.log" ∈ listdir (folder fs)) by apply list_elem_of_here.
  apply (reused_id_hides_earlier_run Posix (s2l "7") (s2l "al") (s2l "u1")
           (s2l "job") (s2l "second") 17 (s2l "a.log") (s2l "b.log") s fs).
  - vm_compute. reflexivity.
  - exact Hs.
  - vm_compute. reflexivity.
  - vm_compute. reflexivity.
  - discriminate.
  - exact Hin.
Defined.

(** ** A transcript written outside the log directory *)

(** X21.  A file name with a directory part.  When the path of the new
    transcript lies in another directory and its file opens, the transcript
    is written there and the log directory stays as it was, while the index
    gets the base name; with the index in step with the log directory and
    no file of that base name in it, the next [find_history_entry] for the
    identifier returns [None] and drops the identifier from the index. *)
Theorem started_elsewhere_lost (p : platform)
    (execution_id user_name user_id script_name command : str)
    (start_time_millis : Z) (dir log_filename : str)
    (s : service) (fs : files) :
  synced s (folder fs) = true ->
  log_filename ∉ listdir (folder fs) ->
  let started :=
    start_logging p true execution_id user_name user_id script_name command
      start_time_millis (Elsewhere dir) log_filename s fs in
  let s1 := started.1.1 in
  let fs1 := started.1.2 in
  folder fs1 = folder fs
  /\ read_file (others fs1 dir) log_filename
     = Some (transcript p
               (header_fields execution_id user_name user_id script_name
                  (py_str_of_Z start_time_millis) command) [])
  /\ dict_get execution_id (_ids_to_file_map s1) = Some log_filename
  /\ exists s2, find_history_entry (folder fs1) execution_id s1
                = Returned None s2
                /\ dict_get execution_id (_ids_to_file_map s2) = None.
Proof.
  intros Hs Hf started s1 fs1.
  destruct (start_logging_opened p execution_id user_name user_id script_name
              command start_time_millis (Elsewhere dir) log_filename s fs)
    as (d' & Hst & Hr & _ & _).
  subst s1 fs1 started. rewrite Hst. cbn [fst snd set_directory folder others].
  set (s1 := {| _visited_files := _; _ids_to_file_map := _;
                parse_log := _ |}).
  split; [done|]. split; [by rewrite bool_decide_eq_true_2|].
  split; [apply dict_get_set_eq|].
  assert (Hs1 : synced s1 (folder fs) = true).
  { apply synced_spec. intros g Hg Hl. cbn.
    apply elem_of_union_r. by apply (proj1 (synced_spec s _) Hs). }
  assert (Hdrop : dict_get execution_id
                    (pruned (folder fs) (_ids_to_file_map s1)) = None).
  { apply dict_get_pruned_drop, obsolete_ids_elem. exists log_filename.
    split.
    - apply dict_get_elem. cbn. apply dict_get_set_eq.
    - unfold exists_file. by apply bool_decide_eq_false. }
  eexists. split; [by apply find_history_entry_absent | exact Hdrop].
Qed.

Lemma started_elsewhere_lost_witness :
  let started :=
    start_logging Posix true (s2l "7") (s2l "al") (s2l "u1") (s2l "/tmp/x")
      (s2l "make") 17 (Elsewhere (s2l "/tmp")) (s2l "x_al_17.log")
      new_service new_files in
  exists s2, find_history_entry (folder started.1.2) (s2l "7") started.1.1
             = Returned None s2
             /\ dict_get (s2l "7") (_ids_to_file_map s2) = None.
Proof.
  intros started.
  assert (Hs : synced new_service (folder new_files) = true) by reflexivity.
  assert (Hf : s2l "x_al_17.log" ∉ listdir (folder new_files))
    by apply not_elem_of_nil.
  exact (proj2 (proj2 (proj2
           (started_elsewhere_lost Posix (s2l "7") (s2l "al") (s2l "u1")
              (s2l "/tmp/x") (s2l "make") 17 (s2l "/tmp")
              (s2l "x_al_17.log") new_service new_files Hs Hf)))).
Defined.
